(** * riscemu: memory sections, loader, CSR bank and privileged RV32I

    A shallow embedding of
      - riscemu/Executable.py   (memory sections and the loader),
      - riscemu/priv/CSR.py     (control and status registers),
      - riscemu/priv/PrivRV32I.py (privileged instruction handlers).

    Python integers are unbounded, so they are [Z].  Python objects that
    are mutated in place and can be reached through more than one name
    (bytearrays, lists) live in an explicit object store and are named
    by references.  A Python exception leaves every mutation done before
    it in place, so a computation is a function from a state to a result
    *and* the state reached. *)

From Stdlib Require Import ZArith Lia Ascii.
From stdpp Require Import base option list gmap strings pretty.

Open Scope Z_scope.

(** ** Exceptions and the state-and-exception monad *)

(** The exception classes are declared in modules that are not part of
    the sources; each carries the arguments it is raised with.  The two
    arguments of a CpuTrap are the reason and the cause code. *)
Inductive exn : Type :=
| MemoryAccessException (msg : string) (addr : Z) (size : Z) (op : string)
| ParseException (msg : string)
| IllegalInstructionTrap
| CpuTrap (reason : Z) (code : Z)
| IndexError
| KeyError (key : string)
| TypeError (msg : string)
| ValueError (msg : string)
| RuntimeError (msg : string)
| BufferError (msg : string).

Inductive result (A : Type) : Type :=
| Ok (a : A)
| Raise (e : exn).
Arguments Ok {A} a.
Arguments Raise {A} e.

Definition result_map {A B : Type} (f : A -> B) (x : result A) : result B :=
  match x with
  | Ok a => Ok (f a)
  | Raise e => Raise e
  end.
Notation "f <$$> x" := (result_map f x) (at level 61, left associativity).

Definition M (S A : Type) : Type := S -> result A * S.

Definition ret {S A : Type} (a : A) : M S A := fun s => (Ok a, s).

Definition raise {S A : Type} (e : exn) : M S A := fun s => (Raise e, s).

Definition bind {S A B : Type} (m : M S A) (k : A -> M S B) : M S B :=
  fun s =>
    match m s with
    | (Ok a, s') => k a s'
    | (Raise e, s') => (Raise e, s')
    end.

Declare Scope py_scope.
Delimit Scope py_scope with py.
Notation "x <- m ;; k" := (bind m (fun x => k))
  (at level 100, m at next level, right associativity) : py_scope.
Notation "'let*' p := m 'in' k" := (bind m (fun x => match x with p => k end))
  (at level 100, p pattern, m at next level, right associativity) : py_scope.
Notation "m ;;; k" := (bind m (fun _ => k))
  (at level 100, right associativity) : py_scope.
Open Scope py_scope.

(** [for x in xs: body(x)] *)
Fixpoint for_each {S A : Type} (xs : list A) (body : A -> M S unit) : M S unit :=
  match xs with
  | [] => ret tt
  | x :: xs' => body x ;;; for_each xs' body
  end.

(** [range(n)] for an integer [n]: empty when [n <= 0]. *)
Definition range (n : Z) : list Z := Z.of_nat <$> seq 0 (Z.to_nat n).

(** ** Python sequences *)

(** Index normalisation of a slice bound against a sequence of length
    [len]: a negative bound counts from the end, and the result is
    clamped to [0, len]. *)
Definition slice_bound (len i : Z) : Z :=
  let j := if i <? 0 then i + len else i in
  Z.max 0 (Z.min len j).

(** [l[start:stop]] *)
Definition py_slice {A : Type} (l : list A) (start stop : Z) : list A :=
  let len := Z.of_nat (length l) in
  let a := slice_bound len start in
  let b := slice_bound len stop in
  take (Z.to_nat (b - a)) (drop (Z.to_nat a) l).

(** ** Instructions as stored in sections *)

Module RiscVInstructionToken.
(** Modelled from the spec: the tokenizer's instruction token (Tokenizer.py
    is not part of the sources); only the two fields the loader reads. *)
Record t : Type := mk {
  instruction : string;
  args : list string
}.
End RiscVInstructionToken.

Module LoadedInstruction.
(** [bin] is a back-reference to the owning LoadedExecutable; it is
    kept as that executable's name. *)
Record t : Type := mk {
  name : string;
  args : list string;
  bin : string
}.
End LoadedInstruction.

(** ** The object store *)

Inductive pyval : Type :=
| VInt (b : Byte.byte)
| VInsn (i : LoadedInstruction.t).

Inductive pyobj : Type :=
| Bytearray (bs : list Byte.byte)
| PyList (xs : list pyval).

#[global] Instance pyobj_inhabited : Inhabited pyobj := populate (Bytearray []).

Definition ref : Type := nat.
Abbreviation heap := (list pyobj).

Definition deref (h : heap) (r : ref) : pyobj := h !!! r.

(** a new object gets the next free reference *)
Definition alloc (o : pyobj) : M heap ref :=
  fun h => (Ok (length h), h ++ [o]).

(** [len(o)] *)
Definition py_len (o : pyobj) : Z :=
  match o with
  | Bytearray bs => Z.of_nat (length bs)
  | PyList xs => Z.of_nat (length xs)
  end.

(** [o += b] for two objects that are not one and the same: a bytearray
    is extended in place by the bytes of a bytearray and refuses a list;
    a list is extended in place by the elements of either. *)
Definition py_iadd (o b : pyobj) : result pyobj :=
  match o, b with
  | Bytearray bs, Bytearray bs' => Ok (Bytearray (bs ++ bs'))
  | Bytearray _, PyList _ => Raise (TypeError "can't concat list to bytearray")
  | PyList xs, Bytearray bs' => Ok (PyList (xs ++ (VInt <$> bs')))
  | PyList xs, PyList xs' => Ok (PyList (xs ++ xs'))
  end.

(** [o += o]: a bytearray that holds bytes cannot grow while it is the
    operand too (its buffer is exported for the time of the append), and
    the append is refused with BufferError; an empty bytearray has
    nothing to grow by, and a list extends by a copy of itself. *)
Definition self_append_refused (o : pyobj) : bool :=
  match o with
  | Bytearray (_ :: _) => true
  | Bytearray [] | PyList _ => false
  end.

(** the statement [content += b] where [content] names the object at [r]
    and [b] the object at [r']; the name [content] still names [r] after it *)
Definition iadd (r r' : ref) : M heap unit :=
  fun h =>
    if bool_decide (r = r') && self_append_refused (deref h r)
    then (Raise (BufferError "Existing exports of data: object cannot be re-sized"), h)
    else
      match py_iadd (deref h r) (deref h r') with
      | Ok o => (Ok tt, <[r := o]> h)
      | Raise e => (Raise e, h)
      end.

(** ** Executable.py: unloaded sections *)

Record MemoryFlags : Type := {
  read_only : bool;
  executable : bool
}.

Module MemorySection.
Record t : Type := mk {
  name : string;
  flags : MemoryFlags;
  size : Z;
  content : list ref
}.

Definition add (self : t) (data : ref) : M heap t :=
  fun h =>
    (Ok {| name := name self; flags := flags self;
           size := size self + py_len (deref h data);
           content := content self ++ [data] |}, h).

Definition continuous_content (self : t) (parent : string) : M heap ref :=
  if size self =? 0 then alloc (Bytearray [])
  else
    match content self with
    | [] => raise IndexError
    | content0 :: rest =>
        for_each rest (fun b => iadd content0 b) ;;;
        ret content0
    end.

(** the sum of the lengths of the stored chunks *)
Definition chunks_len (h : heap) (cs : list ref) : Z :=
  foldr (fun r acc => py_len (deref h r) + acc) 0 cs.

(** the bytes of the stored chunks, in order *)
Definition chunk_bytes (h : heap) (r : ref) : list Byte.byte :=
  match deref h r with
  | Bytearray bs => bs
  | PyList _ => []
  end.

Definition is_bytearray (h : heap) (r : ref) : Prop :=
  exists bs, h !! r = Some (Bytearray bs).

(** the invariant [add] keeps: [size] is the sum of the chunk lengths *)
Definition size_ok (h : heap) (self : t) : Prop :=
  size self = chunks_len h (content self).

(** what a call of [continuous_content] on a section of several chunks
    does to the section: the first chunk is the buffer returned and now
    holds the bytes of all chunks, the chunk lengths no longer add up to
    [size], and a second call returns a longer buffer *)
Definition first_chunk_extended (parent : string) (h : heap) (self : t) : Prop :=
  exists c h1 h2,
    head (content self) = Some c /\
    continuous_content self parent h = (Ok c, h1) /\
    chunk_bytes h1 c = concat (chunk_bytes h <$> content self) /\
    chunks_len h1 (content self) <> size self /\
    continuous_content self parent h1 = (Ok c, h2) /\
    py_len (deref h1 c) < py_len (deref h2 c).

(** [for data in datas: self.add(data)] *)
Fixpoint add_all (self : t) (datas : list ref) : M heap t :=
  match datas with
  | [] => ret self
  | data :: datas' =>
      self' <- add self data ;;
      add_all self' datas'
  end.
End MemorySection.

Module InstructionMemorySection.
Record t : Type := mk {
  name : string;
  flags : MemoryFlags;
  size : Z;
  content : list RiscVInstructionToken.t
}.

Definition add_insn (self : t) (insn : RiscVInstructionToken.t) : t :=
  {| name := name self; flags := flags self;
     size := size self + 1;
     content := content self ++ [insn] |}.

Definition continuous_content (self : t) (parent : string) : M heap ref :=
  alloc (PyList ((fun ins =>
                    VInsn (LoadedInstruction.mk
                             (RiscVInstructionToken.instruction ins)
                             (RiscVInstructionToken.args ins) parent))
                 <$> content self)).
End InstructionMemorySection.


(** ** Executable.py: loaded sections *)

(** the position an index [i] names in a sequence of length [len]: a
    negative index counts from the end, and there is none out of range *)
Definition py_index (len i : Z) : option nat :=
  if (0 <=? i) && (i <? len) then Some (Z.to_nat i)
  else if (i <? 0) && (0 <=? i + len) then Some (Z.to_nat (i + len))
  else None.

(** [seq[i]] *)
Definition py_getitem {A : Type} (l : list A) (i : Z) : result A :=
  match py_index (Z.of_nat (length l)) i ≫= (l !!.) with
  | Some x => Ok x
  | None => Raise IndexError
  end.

(** [o[i] = b] for a byte [b] *)
Definition py_setitem (o : pyobj) (i : Z) (b : Byte.byte) : result pyobj :=
  match py_index (py_len o) i with
  | None => Raise IndexError
  | Some n =>
      match o with
      | Bytearray bs => Ok (Bytearray (<[n := b]> bs))
      | PyList xs => Ok (PyList (<[n := VInt b]> xs))
      end
  end.

(** [o[start:stop]], a new object of the kind of [o] *)
Definition obj_slice (o : pyobj) (start stop : Z) : pyobj :=
  match o with
  | Bytearray bs => Bytearray (py_slice bs start stop)
  | PyList xs => PyList (py_slice xs start stop)
  end.

Definition setitem (r : ref) (i : Z) (b : Byte.byte) : M heap unit :=
  fun h =>
    match py_setitem (deref h r) i b with
    | Ok o => (Ok tt, <[r := o]> h)
    | Raise e => (Raise e, h)
    end.

Definition lift_result {S A : Type} (x : result A) : M S A :=
  fun s => (x, s).

Module LoadedMemorySection.
Record t : Type := mk {
  name : string;
  base : Z;
  size : Z;
  content : ref;
  flags : MemoryFlags;
  owner : string
}.

Definition read (self : t) (offset size_ : Z) : M heap pyobj :=
  if offset <? 0 then
    raise (MemoryAccessException ("Invalid offset " +:+ pretty offset)
             (base self + offset) size_ "read")
  else if offset + size_ >=? size self then
    raise (MemoryAccessException
             ("Outside section boundary of section " +:+ name self)
             (base self + offset) size_ "read")
  else
    fun h => (Ok (obj_slice (deref h (content self)) offset (offset + size_)), h).

Definition read_instruction (self : t) (offset : Z) : M heap pyval :=
  if negb (executable (flags self)) then
    raise (MemoryAccessException "Section not executable!"
             (base self + offset) 1 "read exec")
  else if offset <? 0 then
    raise (MemoryAccessException ("Invalid offset " +:+ pretty offset)
             (base self + offset) 1 "read exec")
  else if offset >=? size self then
    raise (MemoryAccessException
             ("Outside section boundary of section " +:+ name self)
             (base self + offset) 1 "read exec")
  else
    fun h =>
      match deref h (content self) with
      | Bytearray bs => (VInt <$$> py_getitem bs offset, h)
      | PyList xs => (py_getitem xs offset, h)
      end.

(** [data] is the bytes-like argument, held by value: it is not the
    section's own buffer. *)
Definition write (self : t) (offset size_ : Z) (data : list Byte.byte)
  : M heap unit :=
  if read_only (flags self) then
    raise (MemoryAccessException ("Section not writeable " +:+ name self)
             (base self + offset) size_ "write")
  else if offset <? 0 then
    raise (MemoryAccessException ("Invalid offset " +:+ pretty offset)
             (base self + offset) 1 "write")
  else if offset >=? size self then
    raise (MemoryAccessException
             ("Outside section boundary of section " +:+ name self)
             (base self + offset) size_ "write")
  else
    for_each (range size_)
      (fun i => b <- lift_result (py_getitem data i) ;;
                setitem (content self) (offset + i) b).

(** ElfLoadedMemorySection.end (priv/ElfLoader.py) *)
Definition end_ (self : t) : Z := size self + base self.
End LoadedMemorySection.

(** ** Executable.py: the executable image and the loader *)

(** a section of an image is a MemorySection or an InstructionMemorySection *)
Inductive section : Type :=
| Bytes (sec : MemorySection.t)
| Insns (sec : InstructionMemorySection.t).

Definition sec_name (sec : section) : string :=
  match sec with
  | Bytes s => MemorySection.name s
  | Insns s => InstructionMemorySection.name s
  end.

Definition sec_size (sec : section) : Z :=
  match sec with
  | Bytes s => MemorySection.size s
  | Insns s => InstructionMemorySection.size s
  end.

Definition sec_flags (sec : section) : MemoryFlags :=
  match sec with
  | Bytes s => MemorySection.flags s
  | Insns s => InstructionMemorySection.flags s
  end.

Definition sec_continuous_content (sec : section) (parent : string) : M heap ref :=
  match sec with
  | Bytes s => MemorySection.continuous_content s parent
  | Insns s => InstructionMemorySection.continuous_content s parent
  end.

Module Executable.
(** [sections] and [symbols] are dicts; they are kept as the list of
    their items in insertion order, which is the order [values()] and
    [items()] iterate in. *)
Record t : Type := mk {
  run_ptr : string * Z;
  sections : list (string * section);
  symbols : list (string * (string * Z));
  stack_pref : option Z;
  name : string
}.
End Executable.

(** Modelled from the spec: helpers.align_addr is not part of the sources;
    an address is rounded up to the next multiple of the alignment
    constant [to_bytes]. *)
Definition align_addr (to_bytes : Z) (addr : Z) : Z :=
  addr + (- addr) mod to_bytes.

(** Modelled from the spec: helpers.ASSERT_IN is not part of the sources;
    an unknown section name fails with a lookup error. *)
Definition ASSERT_IN {S V : Type} (key : string) (d : gmap string V) : M S unit :=
  match d !! key with
  | Some _ => ret tt
  | None => raise (KeyError key)
  end.

(** [d[key]] on a plain dict *)
Definition dict_getitem {S V : Type} (d : gmap string V) (key : string) : M S V :=
  match d !! key with
  | Some v => ret v
  | None => raise (KeyError key)
  end.

(** [bytearray(n)] *)
Definition bytearray_of_len {S : Type} (n : Z) : M S pyobj :=
  if n <? 0 then raise (ValueError "negative count")
  else ret (Bytearray (replicate (Z.to_nat n) Byte.x00)).

Module LoadedExecutable.
Record t : Type := mk {
  name : string;
  base_addr : Z;
  sections_by_name : gmap string LoadedMemorySection.t;
  sections : list LoadedMemorySection.t;
  symbols : gmap string Z;
  run_ptr : Z;
  stack_heap : Z * Z;
  size : Z
}.

(** the state of the section loop of [__init__]: [self.sections],
    [self.sections_by_name] and the address cursor [curr] *)
Record layout : Type := mk_layout {
  l_sections : list LoadedMemorySection.t;
  l_by_name : gmap string LoadedMemorySection.t;
  curr : Z
}.

Section loader.
Variable to_bytes : Z.

(** one iteration of [for sec in exe.sections.values()] *)
Definition load_section (self_name : string) (st : layout) (sec : section)
  : M heap layout :=
  c <- sec_continuous_content sec self_name ;;
  let loaded_sec :=
    LoadedMemorySection.mk (sec_name sec) (curr st) (sec_size sec) c
      (sec_flags sec) self_name in
  ret {| l_sections := l_sections st ++ [loaded_sec];
         l_by_name := <[LoadedMemorySection.name loaded_sec := loaded_sec]> (l_by_name st);
         curr := align_addr to_bytes (LoadedMemorySection.size loaded_sec + curr st) |}.

Fixpoint load_sections (self_name : string) (st : layout) (secs : list section)
  : M heap layout :=
  match secs with
  | [] => ret st
  | sec :: secs' =>
      st' <- load_section self_name st sec ;;
      load_sections self_name st' secs'
  end.

(** [for name, (sec_name, offset) in exe.symbols.items()] *)
Fixpoint load_symbols (by_name : gmap string LoadedMemorySection.t)
    (syms : gmap string Z) (items : list (string * (string * Z)))
  : M heap (gmap string Z) :=
  match items with
  | [] => ret syms
  | (name, (sec_name, offset)) :: items' =>
      ASSERT_IN sec_name by_name ;;;
      s <- dict_getitem by_name sec_name ;;
      load_symbols by_name (<[name := LoadedMemorySection.base s + offset]> syms) items'
  end.

(** [LoadedExecutable.__init__(self, exe, base_addr)] *)
Definition init (exe : Executable.t) (base_addr : Z) : M heap t :=
  let self_name := Executable.name exe in
  stack <-
    match Executable.stack_pref exe with
    | Some stack_pref =>
        o <- bytearray_of_len stack_pref ;;
        r <- alloc o ;;
        ret ([LoadedMemorySection.mk "stack" base_addr stack_pref r
                {| read_only := false; executable := false |} self_name],
             (base_addr, base_addr + stack_pref))
    | None => ret ([], (0, 0))
    end ;;
  st <- load_sections self_name
          {| l_sections := stack.1; l_by_name := ∅; curr := base_addr |}
          (snd <$> Executable.sections exe) ;;
  syms <- load_symbols (l_by_name st) ∅ (Executable.symbols exe) ;;
  let size_ := curr st - base_addr in
  let '(run_ptr_sec, run_ptr_off) := Executable.run_ptr exe in
  s <- dict_getitem (l_by_name st) run_ptr_sec ;;
  ret {| name := self_name;
         base_addr := base_addr;
         sections_by_name := l_by_name st;
         sections := l_sections st;
         symbols := syms;
         run_ptr := LoadedMemorySection.base s + run_ptr_off;
         stack_heap := stack.2;
         size := size_ |}.
End loader.

(** what the section loop appends for the image sections [secs] when
    the cursor stands at [c]: name and size of each image section, the
    base being the cursor, which then moves to the aligned end *)
Fixpoint placed (to_bytes : Z) (c : Z) (secs : list section)
    (ls : list LoadedMemorySection.t) : Prop :=
  match secs, ls with
  | [], [] => True
  | sec :: secs', l :: ls' =>
      LoadedMemorySection.name l = sec_name sec /\
      LoadedMemorySection.base l = c /\
      LoadedMemorySection.size l = sec_size sec /\
      placed to_bytes (align_addr to_bytes (sec_size sec + c)) secs' ls'
  | _, _ => False
  end.

(** where the cursor stands after the loop *)
Fixpoint final_cursor (to_bytes : Z) (c : Z) (secs : list section) : Z :=
  match secs with
  | [] => c
  | sec :: secs' =>
      final_cursor to_bytes (align_addr to_bytes (sec_size sec + c)) secs'
  end.

(** the address range [base, base + size) of a loaded section *)
Definition covers (sec : LoadedMemorySection.t) (addr : Z) : Prop :=
  LoadedMemorySection.base sec <= addr
  < LoadedMemorySection.base sec + LoadedMemorySection.size sec.

Definition overlap (a b : LoadedMemorySection.t) : Prop :=
  exists addr, covers a addr /\ covers b addr.

(** the names of the sections of an image, in layout order *)
Definition names (exe : Executable.t) : list string :=
  (fun item => sec_name item.2) <$> Executable.sections exe.

(** a section that can be made continuous in the store [h]: the chunks
    of a byte section are bytearrays of [h], and when [size] is not 0
    there is a first chunk, which is not stored again among the later
    ones (the loop appends the later chunks to the first) *)
Definition loadable (h : heap) (sec : section) : Prop :=
  match sec with
  | Bytes s =>
      Forall (MemorySection.is_bytearray h) (MemorySection.content s) /\
      (MemorySection.size s <> 0 ->
       exists c rest, MemorySection.content s = c :: rest /\ (c ∉ rest))
  | Insns _ => True
  end.

(** an image the loader has no reason to refuse: no negative stack
    size, sections that can be made continuous, and a section of the
    image behind every symbol and behind the run pointer *)
Definition well_formed (h : heap) (exe : Executable.t) : Prop :=
  (forall K, Executable.stack_pref exe = Some K -> 0 <= K) /\
  Forall (loadable h) (snd <$> Executable.sections exe) /\
  Forall (fun item => item.2.1 ∈ names exe) (Executable.symbols exe) /\
  (Executable.run_ptr exe).1 ∈ names exe.
End LoadedExecutable.

(** ** priv/ElfLoader.py: the layout check of [ElfExecutable.add_sec] *)

Module ElfExecutable.
(** the condition under which [add_sec] keeps going for a section [sec]
    already present; otherwise it raises "Cannot load elf with
    overlapping sections!" *)
Definition apart (sec new_sec : LoadedMemorySection.t) : bool :=
  let base := LoadedMemorySection.base in
  let end_ := LoadedMemorySection.end_ in
  ((base sec <? end_ sec) && (end_ sec <=? base new_sec))
  || ((end_ sec >? base sec) && (base sec >=? end_ new_sec)).

Definition add_sec (sections : list LoadedMemorySection.t)
    (new_sec : LoadedMemorySection.t) : result (list LoadedMemorySection.t) :=
  if forallb (fun sec => apart sec new_sec) sections
  then Ok (sections ++ [new_sec])
  else Raise (RuntimeError "Cannot load elf with overlapping sections!").
End ElfExecutable.


(** ** priv/CSR.py *)

(** what the program shows to the outside: lines printed, and calls of
    installed listeners, in order *)
Inductive event : Type :=
| Print (line : string)
| Called (listener : nat) (old_val new_val : Z).

(** a listener is a callable taking the old and the new value; the
    default one, [lambda x, y: ()], does nothing, and an installed one is
    named by a number and seen through the calls it receives *)
Inductive listener : Type :=
| default_listener
| Callback (id : nat).

(** an address argument is a string or an integer *)
Inductive addr : Type :=
| Name (s : string)
| Addr (a : Z).

Definition MSTATUS_OFFSETS : gmap string Z :=
  list_to_map
    [("uie", 0); ("sie", 1); ("mie", 3); ("upie", 4); ("spie", 5);
     ("mpie", 7); ("spp", 8); ("mpp", 11); ("fs", 13); ("xs", 15);
     ("mpriv", 17); ("sum", 18); ("mxr", 19); ("tvm", 20); ("tw", 21);
     ("tsr", 22); ("sd", 31)]%string.

Definition MSTATUS_LEN_2 : list string := ["mpp"; "fs"; "xs"]%string.

Module CSR.
Record t : Type := mk {
  regs : gmap Z Z;
  listeners : gmap Z listener
}.

(** the CSR bank together with the output stream *)
Abbreviation state := (t * list event)%type.

Definition name_to_addr : gmap string Z :=
  list_to_map
    [("mstatus", 0x300); ("misa", 0x301); ("mie", 0x304); ("mtvec", 0x305);
     ("mepc", 0x341); ("mcause", 0x342); ("mtval", 0x343); ("mip", 0x344);
     ("mvendorid", 0xF11); ("marchid", 0xF12); ("mimpid", 0xF13);
     ("mhartid", 0xF14); ("time", 0xc01); ("timeh", 0xc81);
     ("halt", 0x789)]%string.

(** [CSR()] *)
Definition init : t := {| regs := ∅; listeners := ∅ |}.

Definition print (line : string) : M state unit :=
  fun '(self, out) => (Ok tt, (self, out ++ [Print line])).

(** [self.regs[addr]]: [regs] is a defaultdict, so reading an absent
    key stores the default [0] under it *)
Definition regs_getitem (a : Z) : M state Z :=
  fun '(self, out) =>
    match regs self !! a with
    | Some v => (Ok v, (self, out))
    | None => (Ok 0, ({| regs := <[a := 0]> (regs self);
                         listeners := listeners self |}, out))
    end.

(** [self.regs[addr] = val] *)
Definition regs_setitem (a : Z) (val : Z) : M state unit :=
  fun '(self, out) =>
    (Ok tt, ({| regs := <[a := val]> (regs self);
                listeners := listeners self |}, out)).

(** [self.listeners[addr]], a defaultdict too *)
Definition listeners_getitem (a : Z) : M state listener :=
  fun '(self, out) =>
    match listeners self !! a with
    | Some l => (Ok l, (self, out))
    | None => (Ok default_listener,
               ({| regs := regs self;
                   listeners := <[a := default_listener]> (listeners self) |}, out))
    end.

Definition listeners_setitem (a : Z) (l : listener) : M state unit :=
  fun '(self, out) =>
    (Ok tt, ({| regs := regs self;
                listeners := <[a := l]> (listeners self) |}, out)).

(** [l(old, new)] *)
Definition call (l : listener) (old_val new_val : Z) : M state unit :=
  match l with
  | default_listener => ret tt
  | Callback id =>
      fun '(self, out) => (Ok tt, (self, out ++ [Called id old_val new_val]))
  end.

(** the opening lines shared by [set], [get] and [set_listener]:
<<
    if isinstance(addr, str):
        if not addr in self.name_to_addr:
            print("Unknown CSR register {}".format(addr))
        addr = self.name_to_addr[addr]
>> *)
Definition resolve (a : addr) : M state Z :=
  match a with
  | Name s =>
      (if negb (bool_decide (is_Some (name_to_addr !! s)))
       then print ("Unknown CSR register " +:+ s)
       else ret tt) ;;;
      dict_getitem name_to_addr s
  | Addr a => ret a
  end.

Definition set (a : addr) (val : Z) : M state unit :=
  a <- resolve a ;;
  l <- listeners_getitem a ;;
  old <- regs_getitem a ;;
  call l old val ;;;
  regs_setitem a val.

Definition get (a : addr) : M state Z :=
  a <- resolve a ;;
  regs_getitem a.

Definition set_listener (a : addr) (l : listener) : M state unit :=
  a <- resolve a ;;
  listeners_setitem a l.

(** [size = 2 if name in MSTATUS_LEN_2 else 1] *)
Definition field_size (name : string) : Z :=
  if bool_decide (name ∈ MSTATUS_LEN_2) then 2 else 1.

Definition field_mask (name : string) (off : Z) : Z :=
  Z.shiftl (2 ^ field_size name - 1) off.

Definition set_mstatus (name : string) (val : Z) : M state unit :=
  off <- dict_getitem MSTATUS_OFFSETS name ;;
  let mask := field_mask name off in
  old_val <- get (Name "mstatus") ;;
  let erased := Z.land old_val (Z.lnot mask) in
  let new_val := Z.lor erased (Z.shiftl val off) in
  set (Name "mstatus") new_val.

Definition get_mstatus (name : string) : M state Z :=
  off <- dict_getitem MSTATUS_OFFSETS name ;;
  let mask := field_mask name off in
  v <- get (Name "mstatus") ;;
  ret (Z.shiftr (Z.land v mask) off).

(** the class defines no [__getitem__]: the expression [csr[ind]] on a
    CSR object raises TypeError *)
Definition getitem {A : Type} (ind : Z) : M state A :=
  raise (TypeError "'CSR' object is not subscriptable").

(** the value stored for [mstatus], [0] when none was stored yet *)
Definition mstatus (self : t) : Z := default 0 (regs self !! 0x300).

(** [callback(addr)], applied to the function it decorates *)
Definition callback (a : addr) (func : listener) : M state listener :=
  set_listener a func ;;;
  ret func.

(** what [self.regs[a]] evaluates to: the value stored under [a], or
    the default 0 *)
Definition value (self : t) (a : Z) : Z := default 0 (regs self !! a).

(** what [self.listeners[a]] evaluates to: the listener stored under
    [a], or the default one *)
Definition listener_at (self : t) (a : Z) : listener :=
  default default_listener (listeners self !! a).

(** what a call of the listener [l] with [(old_val, new_val)] shows *)
Definition calls (l : listener) (old_val new_val : Z) : list event :=
  match l with
  | default_listener => []
  | Callback id => [Called id old_val new_val]
  end.
End CSR.

(** ** priv/PrivRV32I.py *)

(** Modelled from the spec: priv/privmodes.py is not part of the sources;
    the privilege modes are USER(0), SUPERVISOR(1) and MACHINE(3). *)
Inductive PrivModes : Type :=
| USER
| SUPER
| MACHINE.

Definition PrivModes_value (m : PrivModes) : Z :=
  match m with
  | USER => 0
  | SUPER => 1
  | MACHINE => 3
  end.

(** [PrivModes(v)]: an enum lookup by value *)
Definition PrivModes_of {S : Type} (v : Z) : M S PrivModes :=
  if v =? 0 then ret USER
  else if v =? 1 then ret SUPER
  else if v =? 3 then ret MACHINE
  else raise (ValueError "not a valid PrivModes").

#[global] Instance PrivModes_eq_dec : EqDecision PrivModes.
Proof. solve_decision. Defined.

(** an operand of a decoded instruction *)
Inductive operand : Type :=
| Reg (name : string)
| Imm (value : Z).

Module Instruction.
(** Modelled from the spec: the instruction handed to a handler, with
    its immediates resolved (symbol lookup and literal parsing are done by
    helpers that are not part of the sources). *)
Record t : Type := mk {
  name : string;
  args : list operand
}.
End Instruction.

Module PrivCPU.
(** the fields of the CPU the handlers read and write *)
Record t : Type := mk {
  pc : Z;
  mode : PrivModes;
  csr : CSR.t;
  regs : gmap string Z;
  out : list event
}.

Definition get_pc : M t Z := fun cpu => (Ok (pc cpu), cpu).

Definition set_pc (v : Z) : M t unit :=
  fun cpu => (Ok tt, {| pc := v; mode := mode cpu; csr := csr cpu;
                        regs := regs cpu; out := out cpu |}).

Definition get_mode : M t PrivModes := fun cpu => (Ok (mode cpu), cpu).

Definition set_mode (m : PrivModes) : M t unit :=
  fun cpu => (Ok tt, {| pc := pc cpu; mode := m; csr := csr cpu;
                        regs := regs cpu; out := out cpu |}).

Definition print (line : string) : M t unit :=
  fun cpu => (Ok tt, {| pc := pc cpu; mode := mode cpu; csr := csr cpu;
                        regs := regs cpu; out := out cpu ++ [Print line] |}).

(** a method of [self.cpu.csr], run on the CPU's CSR bank *)
Definition on_csr {A : Type} (m : M CSR.state A) : M t A :=
  fun cpu =>
    let '(r, (c, o)) := m (csr cpu, out cpu) in
    (r, {| pc := pc cpu; mode := mode cpu; csr := c;
           regs := regs cpu; out := o |}).

(** Modelled from the spec: Registers.py is not part of the sources; a
    register file by name, whose register [zero] is hard-wired to 0. *)
Definition regs_get (reg : string) : M t Z :=
  fun cpu =>
    (Ok (if bool_decide (reg = "zero"%string) then 0
         else default 0 (regs cpu !! reg)), cpu).

Definition regs_set (reg : string) (val : Z) : M t unit :=
  fun cpu =>
    if bool_decide (reg = "zero"%string) then (Ok tt, cpu)
    else (Ok tt, {| pc := pc cpu; mode := mode cpu; csr := csr cpu;
                    regs := <[reg := val]> (regs cpu); out := out cpu |}).
End PrivCPU.

(** the 32-bit views of a register's content *)
Definition to_signed (v : Z) : Z := (v + 2 ^ 31) mod 2 ^ 32 - 2 ^ 31.
Definition to_unsigned (v : Z) : Z := v mod 2 ^ 32.

Module PrivRV32I.
Import PrivCPU.

(** Modelled from the spec: helpers.ASSERT_LEN is not part of the sources;
    a wrong number of operands is a parse error. *)
Definition ASSERT_LEN {A : Type} (l : list A) (n : nat) : M PrivCPU.t unit :=
  if bool_decide (length l = n) then ret tt
  else raise (ParseException "ASSERTION_FAILED").

(** Modelled from the spec: [get_reg(n)] returns the n-th argument as a
    register name and [get_imm(n)] the n-th argument as an integer; a
    missing argument is a parse error. *)
Definition get_reg (ins : Instruction.t) (num : nat) : M PrivCPU.t string :=
  match Instruction.args ins !! num with
  | Some (Reg r) => ret r
  | _ => raise (ParseException "expected argument")
  end.

Definition get_imm (ins : Instruction.t) (num : nat) : M PrivCPU.t Z :=
  match Instruction.args ins !! num with
  | Some (Imm v) => ret v
  | _ => raise (ParseException "expected argument")
  end.

(** Modelled from the spec: the RV32I base class is not part of the
    sources; [get_reg_content] is the content of the named register. *)
Definition get_reg_content (ins : Instruction.t) (num : nat) : M PrivCPU.t Z :=
  r <- get_reg ins num ;;
  regs_get r.

(** Modelled from the spec: the RV32I base class is not part of the
    sources; the two register operands are read signed, or unsigned when
    [signed] is false, and the third operand is the immediate. *)
Definition parse_rs_rs_imm (ins : Instruction.t) (signed : bool)
  : M PrivCPU.t (Z * Z * Z) :=
  ASSERT_LEN (Instruction.args ins) 3 ;;;
  a <- get_reg_content ins 0 ;;
  b <- get_reg_content ins 1 ;;
  dst <- get_imm ins 2 ;;
  if signed then ret (to_signed a, to_signed b, dst)
  else ret (to_unsigned a, to_unsigned b, dst).

(** Modelled from the spec: the RV32I base class is not part of the
    sources; destination register name, content of the source register,
    immediate. *)
Definition parse_rd_rs_imm (ins : Instruction.t) : M PrivCPU.t (string * Z * Z) :=
  ASSERT_LEN (Instruction.args ins) 3 ;;;
  rd <- get_reg ins 0 ;;
  rs <- get_reg_content ins 1 ;;
  imm <- get_imm ins 2 ;;
  ret (rd, rs, imm).

Definition parse_crs_ins (ins : Instruction.t) : M PrivCPU.t (string * Z * Z) :=
  ASSERT_LEN (Instruction.args ins) 3 ;;;
  rd <- get_reg ins 0 ;;
  rs <- get_reg_content ins 1 ;;
  ind <- get_imm ins 2 ;;
  ret (rd, rs, ind).

Section handlers.
(** helpers.int_from_bytes is not part of the sources *)
Variable int_from_bytes : list Byte.byte -> Z.

Definition instruction_csrrw (ins : Instruction.t) : M PrivCPU.t unit :=
  let* (rd, rs, ind) := parse_crs_ins ins in
  (if negb (bool_decide (rd = "zero"%string)) then
     raw <- on_csr (CSR.getitem ind) ;;
     let old_val := int_from_bytes raw in
     regs_set rd old_val
   else ret tt) ;;;
  on_csr (CSR.set (Addr ind) rs).
End handlers.

Definition instruction_mret (ins : Instruction.t) : M PrivCPU.t unit :=
  m <- get_mode ;;
  if negb (bool_decide (m = MACHINE)) then
    print "MRET not inside machine level code!" ;;;
    raise IllegalInstructionTrap
  else
    mpie <- on_csr (CSR.get_mstatus "mpie") ;;
    on_csr (CSR.set_mstatus "mie" mpie) ;;;
    mpp <- on_csr (CSR.get_mstatus "mpp") ;;
    m' <- PrivModes_of mpp ;;
    set_mode m' ;;;
    mepc <- on_csr (CSR.get (Name "mepc")) ;;
    set_pc mepc.

Definition instruction_uret (ins : Instruction.t) : M PrivCPU.t unit :=
  raise IllegalInstructionTrap.

Definition instruction_sret (ins : Instruction.t) : M PrivCPU.t unit :=
  raise IllegalInstructionTrap.

Definition instruction_scall (ins : Instruction.t) : M PrivCPU.t unit :=
  m <- get_mode ;;
  if bool_decide (m = USER) then raise (CpuTrap 0 8)
  else if bool_decide (m = SUPER) then raise (CpuTrap 0 9)
  else if bool_decide (m = MACHINE) then raise (CpuTrap 0 11)
  else ret tt.

(** [self.pc += d] *)
Definition pc_iadd (d : Z) : M PrivCPU.t unit :=
  p <- get_pc ;;
  set_pc (p + d).

Definition instruction_beq (ins : Instruction.t) : M PrivCPU.t unit :=
  let* (rs1, rs2, dst) := parse_rs_rs_imm ins true in
  if rs1 =? rs2 then pc_iadd (dst - 4) else ret tt.

Definition instruction_bne (ins : Instruction.t) : M PrivCPU.t unit :=
  let* (rs1, rs2, dst) := parse_rs_rs_imm ins true in
  if negb (rs1 =? rs2) then pc_iadd (dst - 4) else ret tt.

Definition instruction_blt (ins : Instruction.t) : M PrivCPU.t unit :=
  let* (rs1, rs2, dst) := parse_rs_rs_imm ins true in
  if rs1 <? rs2 then pc_iadd dst else ret tt.

Definition instruction_bge (ins : Instruction.t) : M PrivCPU.t unit :=
  let* (rs1, rs2, dst) := parse_rs_rs_imm ins true in
  if rs1 >=? rs2 then pc_iadd (dst - 4) else ret tt.

Definition instruction_bltu (ins : Instruction.t) : M PrivCPU.t unit :=
  let* (rs1, rs2, dst) := parse_rs_rs_imm ins false in
  if rs1 <? rs2 then pc_iadd (dst - 4) else ret tt.

Definition instruction_bgeu (ins : Instruction.t) : M PrivCPU.t unit :=
  let* (rs1, rs2, dst) := parse_rs_rs_imm ins false in
  if rs1 >=? rs2 then pc_iadd (dst - 4) else ret tt.

Definition instruction_jal (ins : Instruction.t) : M PrivCPU.t unit :=
  ASSERT_LEN (Instruction.args ins) 2 ;;;
  reg <- get_reg ins 0 ;;
  addr <- get_imm ins 1 ;;
  p <- get_pc ;;
  regs_set reg p ;;;
  pc_iadd (addr - 4).

Definition instruction_jalr (ins : Instruction.t) : M PrivCPU.t unit :=
  ASSERT_LEN (Instruction.args ins) 3 ;;;
  let* (rd, rs, imm) := parse_rd_rs_imm ins in
  p <- get_pc ;;
  regs_set rd p ;;;
  set_pc (rs + imm - 4).

(** the handler the executor picks for a branch mnemonic: the method
    named [instruction_] followed by the mnemonic *)
Definition branch_handler (mnemonic : string)
  : option (Instruction.t -> M PrivCPU.t unit) :=
  if bool_decide (mnemonic = "beq"%string) then Some instruction_beq
  else if bool_decide (mnemonic = "bne"%string) then Some instruction_bne
  else if bool_decide (mnemonic = "blt"%string) then Some instruction_blt
  else if bool_decide (mnemonic = "bge"%string) then Some instruction_bge
  else if bool_decide (mnemonic = "bltu"%string) then Some instruction_bltu
  else if bool_decide (mnemonic = "bgeu"%string) then Some instruction_bgeu
  else None.

(** *** The branches as the specification words them *)

(** the content of a register: [zero] reads 0, a register never written
    reads 0 *)
Definition reg_value (cpu : PrivCPU.t) (reg : string) : Z :=
  if bool_decide (reg = "zero"%string) then 0
  else default 0 (PrivCPU.regs cpu !! reg).

(** the condition of a branch on the contents [a] and [b] of its two
    register operands: [bltu] and [bgeu] compare unsigned, the others
    signed *)
Definition spec_taken (mnemonic : string) (a b : Z) : bool :=
  if bool_decide (mnemonic = "beq"%string) then to_signed a =? to_signed b
  else if bool_decide (mnemonic = "bne"%string) then negb (to_signed a =? to_signed b)
  else if bool_decide (mnemonic = "blt"%string) then to_signed a <? to_signed b
  else if bool_decide (mnemonic = "bge"%string) then to_signed b <=? to_signed a
  else if bool_decide (mnemonic = "bltu"%string) then to_unsigned a <? to_unsigned b
  else if bool_decide (mnemonic = "bgeu"%string) then to_unsigned b <=? to_unsigned a
  else false.

(** the adjustment of the program counter by a taken branch: the
    immediate less 4, and for [blt] the immediate itself *)
Definition spec_adjust (mnemonic : string) (dst : Z) : Z :=
  if bool_decide (mnemonic = "blt"%string) then dst else dst - 4.
End PrivRV32I.


(** * Concrete inputs *)

Module Ex.
Import Byte.

Definition rw : MemoryFlags := {| read_only := false; executable := false |}.
Definition ro : MemoryFlags := {| read_only := true; executable := false |}.

(** two chunks, [01 02] and [03], appended to an empty section *)
Definition store_two : heap := [Bytearray [x01; x02]; Bytearray [x03]].
Definition data_two : MemorySection.t :=
  MemorySection.mk ".data" rw 3 [0%nat; 1%nat].

(** two chunks, [01 02] and the empty bytearray *)
Definition store_empty_tail : heap := [Bytearray [x01; x02]; Bytearray []].
Definition data_empty_tail : MemorySection.t :=
  MemorySection.mk ".data" rw 2 [0%nat; 1%nat].

(** three chunks, [01], [02] and the first bytearray once more *)
Definition store_aliased : heap := [Bytearray [x01]; Bytearray [x02]].
Definition data_aliased : MemorySection.t :=
  MemorySection.mk ".data" rw 3 [0%nat; 1%nat; 0%nat].

(** a loaded read-write section of four bytes at 0x1000, and the same
    section read-only *)
Definition store_four : heap := [Bytearray [x0a; x0b; x0c; x0d]].
Definition loaded_rw : LoadedMemorySection.t :=
  LoadedMemorySection.mk ".data" 0x1000 4 0%nat rw "prog".
Definition loaded_ro : LoadedMemorySection.t :=
  LoadedMemorySection.mk ".rodata" 0x1000 4 0%nat ro "prog".

(** an image with one [.text] section of three instructions and a stack
    of 256 bytes, to be loaded at 0x1000 *)
Definition text3 : InstructionMemorySection.t :=
  InstructionMemorySection.mk ".text" {| read_only := true; executable := true |} 3
    [RiscVInstructionToken.mk "addi" ["a0"; "zero"; "1"];
     RiscVInstructionToken.mk "addi" ["a1"; "zero"; "2"];
     RiscVInstructionToken.mk "add" ["a0"; "a0"; "a1"]]%string.
Definition image : Executable.t :=
  Executable.mk (".text"%string, 0) [(".text"%string, Insns text3)] []
    (Some 256) "prog".
Definition loaded_stack : LoadedMemorySection.t :=
  LoadedMemorySection.mk "stack" 0x1000 256 0%nat rw "prog".
Definition loaded_text : LoadedMemorySection.t :=
  LoadedMemorySection.mk ".text" 0x1000 3 1%nat
    {| read_only := true; executable := true |} "prog".

(** a CPU at 0x100 whose CSR [mepc] (0x341) holds 0x80, with
    [a0 = 7], [a1 = 5] and [a2 = -1] *)
Definition cpu_in (m : PrivModes) : PrivCPU.t :=
  {| PrivCPU.pc := 0x100;
     PrivCPU.mode := m;
     PrivCPU.csr := {| CSR.regs := {[ 0x341 := 0x80 ]}; CSR.listeners := ∅ |};
     PrivCPU.regs := {[ "a0"%string := 7; "a1"%string := 5; "a2"%string := -1 ]};
     PrivCPU.out := [] |}.

Definition csrrw_a0_a1_mepc : Instruction.t :=
  Instruction.mk "csrrw" [Reg "a0"; Reg "a1"; Imm 0x341].
Definition csrrw_a1_a1_mepc : Instruction.t :=
  Instruction.mk "csrrw" [Reg "a1"; Reg "a1"; Imm 0x341].
Definition csrrw_zero_a1_mepc : Instruction.t :=
  Instruction.mk "csrrw" [Reg "zero"; Reg "a1"; Imm 0x341].
Definition mret_ins : Instruction.t := Instruction.mk "mret" [].
Definition scall_ins : Instruction.t := Instruction.mk "scall" [].
Definition bltu_a0_a2 : Instruction.t :=
  Instruction.mk "bltu" [Reg "a0"; Reg "a2"; Imm 0x40].
End Ex.


(** ** Executable.py: the operand accessors of LoadedInstruction *)

(** [c in s] for a character [c] *)
Fixpoint str_contains (c : Ascii.ascii) (s : string) : bool :=
  match s with
  | EmptyString => false
  | String c' s' => Ascii.eqb c' c || str_contains c s'
  end.

(** [s[:-1]] *)
Fixpoint str_drop_last (s : string) : string :=
  match s with
  | EmptyString => EmptyString
  | String c s' =>
      match s' with
      | EmptyString => EmptyString
      | String _ _ => String c (str_drop_last s')
      end
  end.

(** [s.split(sep)] for a separator of one character *)
Fixpoint str_split (sep : Ascii.ascii) (s : string) : list string :=
  match s with
  | EmptyString => [EmptyString]
  | String c s' =>
      if Ascii.eqb c sep then EmptyString :: str_split sep s'
      else
        match str_split sep s' with
        | part :: parts => String c part :: parts
        | [] => [String c EmptyString]
        end
  end.

Module Accessors.
Section accessors.
(** helpers.parse_numeric_argument is not part of the sources *)
Variable parse_numeric_argument : string -> result Z.
(** the text [format] gives for the list [self.args] *)
Variable repr_args : list string -> string.

Definition expected_argument (self : LoadedInstruction.t) (num : Z) : exn :=
  ParseException
    ("Instruction " +:+ LoadedInstruction.name self
     +:+ " expected argument at " +:+ pretty num
     +:+ " (args: " +:+ repr_args (LoadedInstruction.args self) +:+ ")").

(** the lookup both immediates go through: a symbol of the owning
    executable first, a numeric literal otherwise *)
Definition symbol_or_number (symbols : gmap string Z) (arg : string) : result Z :=
  match symbols !! arg with
  | Some v => Ok v
  | None => parse_numeric_argument arg
  end.

(** [symbols] is [self.bin.symbols] at the time of the call *)
Definition get_imm (symbols : gmap string Z) (self : LoadedInstruction.t) (num : Z)
  : result Z :=
  if Z.of_nat (length (LoadedInstruction.args self)) <=? num
  then Raise (expected_argument self num)
  else
    match py_getitem (LoadedInstruction.args self) num with
    | Raise e => Raise e
    | Ok arg => symbol_or_number symbols arg
    end.

(** Modelled from the spec: helpers.ASSERT_IN is not part of the sources;
    an argument without the parenthesis is a parse error. *)
Definition ASSERT_IN_str (c : Ascii.ascii) (s : string) : result unit :=
  if str_contains c s then Ok tt else Raise (ParseException "ASSERTION_FAILED").

Definition get_imm_reg (symbols : gmap string Z) (self : LoadedInstruction.t) (num : Z)
  : result (Z * string) :=
  if Z.of_nat (length (LoadedInstruction.args self)) <=? num
  then Raise (expected_argument self num)
  else
    match py_getitem (LoadedInstruction.args self) num with
    | Raise e => Raise e
    | Ok arg =>
        match ASSERT_IN_str "("%char arg with
        | Raise e => Raise e
        | Ok _ =>
            match str_split "("%char (str_drop_last arg) with
            | [imm; reg] =>
                match symbol_or_number symbols imm with
                | Ok v => Ok (v, reg)
                | Raise e => Raise e
                end
            | [] | [_] =>
                Raise (ValueError "not enough values to unpack (expected 2, got 1)")
            | _ => Raise (ValueError "too many values to unpack (expected 2)")
            end
        end
    end.

Definition get_reg (self : LoadedInstruction.t) (num : Z) : result string :=
  if Z.of_nat (length (LoadedInstruction.args self)) <=? num
  then Raise (expected_argument self num)
  else py_getitem (LoadedInstruction.args self) num.
End accessors.
End Accessors.

(** ** priv/ElfLoader.py: the executable read from an ELF file *)

Module ElfLoader.
Record ElfExecutable : Type := mk {
  sections : list LoadedMemorySection.t;
  sections_by_name : gmap string LoadedMemorySection.t;
  symbols : gmap string Z;
  run_ptr : Z
}.

(** the fields of a section of the ELF file that the loader reads:
    [sec.name], [sec.header.sh_addr], [sec.data_size] and [sec.data()] *)
Record Section : Type := mk_section {
  name : string;
  sh_addr : Z;
  data_size : Z;
  data : list Byte.byte
}.

(** the state the loader works on: the object store and the output *)
Abbreviation state := (heap * list event)%type.

Definition print (line : string) : M state unit :=
  fun '(h, out) => (Ok tt, (h, out ++ [Print line])).

Section loader.
(** The two lines the loader prints are built with colour codes of
    helpers.py, which is not part of the sources, and with the sections'
    [__repr__]; they are taken as given. *)
Variable overlap_line : LoadedMemorySection.t -> LoadedMemorySection.t -> string.
Variable section_line : string -> Z -> string.

(** the loop of [add_sec] over [self.sections] *)
Fixpoint check_layout (secs : list LoadedMemorySection.t)
    (new_sec : LoadedMemorySection.t) : M state unit :=
  match secs with
  | [] => ret tt
  | sec :: secs' =>
      if ElfExecutable.apart sec new_sec then check_layout secs' new_sec
      else
        print (overlap_line sec new_sec) ;;;
        raise (RuntimeError "Cannot load elf with overlapping sections!")
  end.

Definition add_sec (self : ElfExecutable) (new_sec : LoadedMemorySection.t)
  : M state ElfExecutable :=
  check_layout (sections self) new_sec ;;;
  ret {| sections := sections self ++ [new_sec];
         sections_by_name :=
           <[LoadedMemorySection.name new_sec := new_sec]> (sections_by_name self);
         symbols := symbols self;
         run_ptr := run_ptr self |}.

(** [for new_sec in new_secs: self.add_sec(new_sec)] *)
Fixpoint add_secs (self : ElfExecutable) (new_secs : list LoadedMemorySection.t)
  : M state ElfExecutable :=
  match new_secs with
  | [] => ret self
  | new_sec :: new_secs' =>
      self' <- add_sec self new_sec ;;
      add_secs self' new_secs'
  end.

Definition _lms_from_elf_sec (sec : Section) (owner : string)
  : M state LoadedMemorySection.t :=
  let is_code := bool_decide (name sec = ".text"%string) in
  data <- (fun '(h, out) => (Ok (length h), (h ++ [Bytearray (data sec)], out))) ;;
  let flags := {| read_only := is_code; executable := is_code |} in
  print (section_line (name sec) (sh_addr sec)) ;;;
  ret (LoadedMemorySection.mk (name sec) (sh_addr sec) (data_size sec) data
         flags owner).
End loader.

(** an executable with nothing loaded yet, as [__init__] sets it up *)
Definition empty (run_ptr : Z) : ElfExecutable :=
  {| sections := []; sections_by_name := ∅; symbols := ∅; run_ptr := run_ptr |}.

(** every earlier section of the list passes the check of [add_sec]
    against every later one *)
Definition layout_ok (secs : list LoadedMemorySection.t) : Prop :=
  forall i j a b, (i < j)%nat -> secs !! i = Some a -> secs !! j = Some b ->
                  ElfExecutable.apart a b = true.
End ElfLoader.

Module Ex2.
(** an image of a [.text] section of three instructions and a [.data]
    section of two chunks, with two symbols, no stack, to be loaded into
    the store that holds the two chunks *)
Definition image : Executable.t :=
  Executable.mk (".text"%string, 0)
    [(".text"%string, Insns Ex.text3); (".data"%string, Bytes Ex.data_two)]
    [("main"%string, (".text"%string, 0)); ("buf"%string, (".data"%string, 1))]
    None "prog".

(** the same image with a symbol in a section it does not have *)
Definition image_dangling : Executable.t :=
  Executable.mk (".text"%string, 0)
    [(".text"%string, Insns Ex.text3)]
    [("buf"%string, (".data"%string, 1))]
    None "prog".

(** an ELF executable that holds one section of size 0 at 0x100, and a
    section of four bytes far from it *)
Definition empty_sec : LoadedMemorySection.t :=
  LoadedMemorySection.mk ".bss" 0x100 0 0%nat Ex.rw "kernel".
Definition far_sec : LoadedMemorySection.t :=
  LoadedMemorySection.mk ".sdata" 0x1000 4 1%nat Ex.rw "kernel".
Definition text_sec : LoadedMemorySection.t :=
  LoadedMemorySection.mk ".text" 0x200 8 2%nat Ex.ro "kernel".
Definition with_empty : ElfLoader.ElfExecutable :=
  {| ElfLoader.sections := [empty_sec];
     ElfLoader.sections_by_name := {[ ".bss"%string := empty_sec ]};
     ElfLoader.symbols := ∅;
     ElfLoader.run_ptr := 0 |}.
Definition line (a b : LoadedMemorySection.t) : string :=
  LoadedMemorySection.name a +:+ " " +:+ LoadedMemorySection.name b.

(** a CPU in machine mode at 0x100 whose mstatus holds [mpp = 2] and
    [mpie = 1] (0x1080), with [a0 = 7] and [a1 = 5] *)
Definition cpu_mpp2 : PrivCPU.t :=
  {| PrivCPU.pc := 0x100;
     PrivCPU.mode := MACHINE;
     PrivCPU.csr := {| CSR.regs := {[ 0x300 := 0x1080 ]}; CSR.listeners := ∅ |};
     PrivCPU.regs := {[ "a0"%string := 7; "a1"%string := 5 ]};
     PrivCPU.out := [] |}.
End Ex2.

(** * Properties *)

(** ** The monad *)

Lemma bind_ok {S A B : Type} (m : M S A) (k : A -> M S B) s a s' :
  m s = (Ok a, s') -> bind m k s = k a s'.
Proof. intros H. unfold bind. now rewrite H. Qed.

Lemma bind_raise {S A B : Type} (m : M S A) (k : A -> M S B) s e s' :
  m s = (Raise e, s') -> bind m k s = (Raise e, s').
Proof. intros H. unfold bind. now rewrite H. Qed.

(** ** The object store *)

Lemma deref_lookup (h : heap) (r : ref) (o : pyobj) :
  h !! r = Some o -> deref h r = o.
Proof. intros H. unfold deref. now apply list_lookup_total_correct. Qed.

Lemma iadd_bytearrays (h : heap) (c r : ref) bs b :
  c <> r ->
  h !! c = Some (Bytearray bs) -> h !! r = Some (Bytearray b) ->
  iadd c r h = (Ok tt, <[c := Bytearray (bs ++ b)]> h).
Proof.
  intros Hne Hc Hr. unfold iadd.
  rewrite (bool_decide_eq_false_2 _ Hne). cbn [andb].
  now rewrite (deref_lookup _ _ _ Hc), (deref_lookup _ _ _ Hr).
Qed.

Lemma chunks_frame (h : heap) (c : ref) (o : pyobj) (rest : list ref) bss :
  c ∉ rest ->
  Forall2 (fun r b => h !! r = Some (Bytearray b)) rest bss ->
  Forall2 (fun r b => <[c := o]> h !! r = Some (Bytearray b)) rest bss.
Proof.
  intros Hnin Hall. induction Hall as [|r b rest bss Hr _ IH].
  - constructor.
  - apply not_elem_of_cons in Hnin as [Hne Hnin]. constructor.
    + now rewrite list_lookup_insert_ne.
    + now apply IH.
Qed.

(** the loop of [continuous_content], when the first chunk is not among
    the chunks appended to it *)
Lemma for_each_iadd (c : ref) (rest : list ref) :
  forall (h : heap) bs bss,
    h !! c = Some (Bytearray bs) ->
    c ∉ rest ->
    Forall2 (fun r b => h !! r = Some (Bytearray b)) rest bss ->
    for_each rest (fun b => iadd c b) h
    = (Ok tt, <[c := Bytearray (bs ++ concat bss)]> h).
Proof.
  induction rest as [|r rest IH]; intros h bs bss Hc Hnin Hall.
  - inversion Hall; subst. simpl. rewrite app_nil_r.
    unfold ret. now rewrite list_insert_id.
  - inversion Hall as [|? b ? bss' Hr Hrest]; subst.
    apply not_elem_of_cons in Hnin as [Hne Hnin].
    simpl. rewrite (bind_ok _ _ _ _ _ (iadd_bytearrays _ _ _ _ _ Hne Hc Hr)).
    assert (Hlt : (c < length h)%nat) by (eapply lookup_lt_Some; eauto).
    rewrite (IH _ (bs ++ b) bss').
    + now rewrite list_insert_insert_eq, <- app_assoc.
    + now apply list_lookup_insert_eq.
    + assumption.
    + now apply chunks_frame.
Qed.

(** ** MemorySection *)

Lemma chunk_bytes_lookup (h : heap) (r : ref) bs :
  h !! r = Some (Bytearray bs) -> MemorySection.chunk_bytes h r = bs.
Proof.
  intros H. unfold MemorySection.chunk_bytes. now rewrite (deref_lookup _ _ _ H).
Qed.

Lemma bytearrays_Forall2 (h : heap) (rest : list ref) :
  Forall (MemorySection.is_bytearray h) rest ->
  Forall2 (fun r b => h !! r = Some (Bytearray b)) rest
    (MemorySection.chunk_bytes h <$> rest).
Proof.
  induction 1 as [|r rest [bs Hr] _ IH]; simpl; constructor; [|exact IH].
  now rewrite (chunk_bytes_lookup _ _ _ Hr).
Qed.

Lemma chunks_len_concat (h : heap) (rest : list ref) bss :
  Forall2 (fun r b => h !! r = Some (Bytearray b)) rest bss ->
  MemorySection.chunks_len h rest = Z.of_nat (length (concat bss)).
Proof.
  induction 1 as [|r b rest bss Hr _ IH]; simpl; [reflexivity|].
  rewrite IH, (deref_lookup _ _ _ Hr), length_app. simpl. lia.
Qed.

(** [add] keeps [size] equal to the sum of the chunk lengths *)
Lemma add_size_ok (h : heap) (self : MemorySection.t) (data : ref) :
  MemorySection.size_ok h self ->
  exists self',
    MemorySection.add self data h = (Ok self', h) /\
    MemorySection.content self' = MemorySection.content self ++ [data] /\
    MemorySection.size_ok h self'.
Proof.
  intros Hok. eexists. split; [reflexivity|]. split; [reflexivity|].
  unfold MemorySection.size_ok in *. simpl. rewrite Hok. clear Hok.
  induction (MemorySection.content self) as [|r rs IH]; simpl; lia.
Qed.

(** one call of [continuous_content] on a byte section whose first chunk
    is not stored a second time: the buffer returned is the first chunk,
    extended in place by the later chunks *)
Lemma continuous_content_run (parent : string) (h : heap)
    (self : MemorySection.t) c rest bs bss :
  MemorySection.content self = c :: rest ->
  MemorySection.size self <> 0 ->
  h !! c = Some (Bytearray bs) ->
  c ∉ rest ->
  Forall2 (fun r b => h !! r = Some (Bytearray b)) rest bss ->
  MemorySection.continuous_content self parent h
  = (Ok c, <[c := Bytearray (bs ++ concat bss)]> h).
Proof.
  intros Hcont Hsize Hc Hnin Hall. unfold MemorySection.continuous_content.
  destruct (Z.eqb_spec (MemorySection.size self) 0) as [?|_]; [contradiction|].
  rewrite Hcont.
  now rewrite (bind_ok _ _ _ _ _ (for_each_iadd c rest h bs bss Hc Hnin Hall)).
Qed.

(** C10, as amended: on a byte section kept by [add], with a first chunk
    that is not stored again among the later chunks and later chunks that
    are not all empty, [continuous_content] returns the first chunk itself,
    grown in place to the concatenation of all chunks; every other object
    is left as it was and [size] is not written, so the chunk lengths now
    add up to [size] plus the length of the later chunks, and a second
    call returns a longer buffer than the first call did. *)
Theorem continuous_content_extends_first_chunk (parent : string)
    (h : heap) (self : MemorySection.t) (c : ref) (rest : list ref) :
  MemorySection.content self = c :: rest ->
  Forall (MemorySection.is_bytearray h) (c :: rest) ->
  MemorySection.size_ok h self ->
  c ∉ rest ->
  0 < MemorySection.chunks_len h rest ->
  MemorySection.first_chunk_extended parent h self /\
  exists h1,
    MemorySection.continuous_content self parent h = (Ok c, h1) /\
    (forall r, r <> c -> h1 !! r = h !! r) /\
    MemorySection.chunks_len h1 (c :: rest)
    = MemorySection.size self + MemorySection.chunks_len h rest.
Proof.
  intros Hcont Hall Hok Hnin Hpos.
  apply Forall_cons in Hall as [[bs Hc] Hrest].
  pose proof (bytearrays_Forall2 _ _ Hrest) as Hall2.
  set (bss := MemorySection.chunk_bytes h <$> rest) in *.
  pose proof (chunks_len_concat _ _ _ Hall2) as Hlen.
  unfold MemorySection.size_ok in Hok. rewrite Hcont in Hok.
  assert (Hsz : MemorySection.size self
                = Z.of_nat (length bs) + MemorySection.chunks_len h rest).
  { rewrite Hok. simpl. now rewrite (deref_lookup _ _ _ Hc). }
  assert (Hnz : MemorySection.size self <> 0) by lia.
  assert (Hlt : (c < length h)%nat) by (eapply lookup_lt_Some; eauto).
  set (h1 := <[c := Bytearray (bs ++ concat bss)]> h).
  assert (Hrun1 : MemorySection.continuous_content self parent h = (Ok c, h1))
    by (eapply continuous_content_run; eauto).
  assert (Hc1 : h1 !! c = Some (Bytearray (bs ++ concat bss)))
    by (now apply list_lookup_insert_eq).
  assert (Hall1 : Forall2 (fun r b => h1 !! r = Some (Bytearray b)) rest bss)
    by (now apply chunks_frame).
  assert (Hrun2 : MemorySection.continuous_content self parent h1
                  = (Ok c, <[c := Bytearray ((bs ++ concat bss) ++ concat bss)]> h1))
    by (eapply continuous_content_run; eauto).
  assert (Hlen1 : MemorySection.chunks_len h1 (c :: rest)
                  = MemorySection.size self + MemorySection.chunks_len h rest).
  { simpl. rewrite (deref_lookup _ _ _ Hc1).
    rewrite (chunks_len_concat _ _ _ Hall1). simpl.
    rewrite length_app. lia. }
  split.
  - exists c, h1, (<[c := Bytearray ((bs ++ concat bss) ++ concat bss)]> h1).
    rewrite Hcont. repeat split; try assumption.
    + rewrite (chunk_bytes_lookup _ _ _ Hc1). simpl.
      now rewrite (chunk_bytes_lookup _ _ _ Hc).
    + lia.
    + rewrite (deref_lookup _ _ _ Hc1).
      erewrite deref_lookup.
      2:{ apply list_lookup_insert_eq. unfold h1. now rewrite length_insert. }
      simpl. rewrite !length_app. lia.
  - exists h1. repeat split; try assumption.
    intros r Hne. unfold h1. now rewrite list_lookup_insert_ne.
Qed.

Lemma continuous_content_extends_first_chunk_witness :
  MemorySection.first_chunk_extended "prog" Ex.store_two Ex.data_two /\
  exists h1,
    MemorySection.continuous_content Ex.data_two "prog" Ex.store_two
    = (Ok 0%nat, h1) /\
    (forall r, r <> 0%nat -> h1 !! r = Ex.store_two !! r) /\
    MemorySection.chunks_len h1 [0%nat; 1%nat] = 3 + 1.
Proof.
  apply (continuous_content_extends_first_chunk "prog"
           Ex.store_two Ex.data_two 0%nat [1%nat]).
  - reflexivity.
  - repeat constructor; eexists; reflexivity.
  - reflexivity.
  - intros Hin. apply list_elem_of_singleton in Hin. discriminate.
  - reflexivity.
Defined.

(** C10 as stated fails when every chunk after the first is empty: the
    section holds two chunks, yet after the call the chunk lengths still
    add up to [size] and a second call returns a buffer of the same
    length.  It also fails when the first bytearray was appended a second
    time: the loop then appends the grown first chunk to itself, which a
    bytearray that holds bytes refuses with BufferError, so the call does
    not return a buffer at all. *)
Lemma continuous_content_empty_tail :
  (length (MemorySection.content Ex.data_empty_tail) = 2%nat /\
   Forall (MemorySection.is_bytearray Ex.store_empty_tail)
     (MemorySection.content Ex.data_empty_tail) /\
   MemorySection.size_ok Ex.store_empty_tail Ex.data_empty_tail /\
   ~ MemorySection.first_chunk_extended "prog" Ex.store_empty_tail Ex.data_empty_tail)
  /\
  (length (MemorySection.content Ex.data_aliased) = 3%nat /\
   Forall (MemorySection.is_bytearray Ex.store_aliased)
     (MemorySection.content Ex.data_aliased) /\
   MemorySection.size_ok Ex.store_aliased Ex.data_aliased /\
   ~ MemorySection.first_chunk_extended "prog" Ex.store_aliased Ex.data_aliased).
Proof.
  split.
  - split; [reflexivity|]. split; [repeat constructor; eexists; reflexivity|].
    split; [reflexivity|].
    intros (c & h1 & h2 & Hhead & Hrun & _ & Hne & _).
    vm_compute in Hhead. injection Hhead as <-.
    vm_compute in Hrun. injection Hrun as <-.
    apply Hne. reflexivity.
  - split; [reflexivity|]. split; [repeat constructor; eexists; reflexivity|].
    split; [reflexivity|].
    intros (c & h1 & h2 & Hhead & Hrun & _).
    vm_compute in Hrun. discriminate Hrun.
Qed.

(** ** LoadedMemorySection.read *)

Lemma slice_bound_in_range (len i : Z) :
  0 <= i <= len -> slice_bound len i = i.
Proof.
  intros H. unfold slice_bound.
  destruct (Z.ltb_spec i 0); lia.
Qed.

(** a slice with bounds inside the sequence is the part between them *)
Lemma py_slice_in_range {A : Type} (l : list A) (start stop : Z) :
  0 <= start <= stop -> stop <= Z.of_nat (length l) ->
  py_slice l start stop
  = take (Z.to_nat (stop - start)) (drop (Z.to_nat start) l)
  /\ Z.of_nat (length (py_slice l start stop)) = stop - start.
Proof.
  intros H1 H2. unfold py_slice.
  rewrite !slice_bound_in_range by lia. split; [reflexivity|].
  rewrite length_take, length_drop. lia.
Qed.

Lemma read_accepts (self : LoadedMemorySection.t) (h : heap) (offset size_ : Z) :
  0 <= offset -> offset + size_ < LoadedMemorySection.size self ->
  LoadedMemorySection.read self offset size_ h
  = (Ok (obj_slice (deref h (LoadedMemorySection.content self))
           offset (offset + size_)), h).
Proof.
  intros H1 H2. unfold LoadedMemorySection.read.
  destruct (Z.ltb_spec offset 0); [lia|].
  destruct (Z.geb_spec (offset + size_) (LoadedMemorySection.size self));
    [lia|reflexivity].
Qed.

Lemma read_rejects (self : LoadedMemorySection.t) (h : heap) (offset size_ : Z) :
  ~ (0 <= offset /\ offset + size_ < LoadedMemorySection.size self) ->
  exists msg,
    LoadedMemorySection.read self offset size_ h
    = (Raise (MemoryAccessException msg
                (LoadedMemorySection.base self + offset) size_ "read"), h).
Proof.
  intros Hn. unfold LoadedMemorySection.read.
  destruct (Z.ltb_spec offset 0); [eexists; reflexivity|].
  destruct (Z.geb_spec (offset + size_) (LoadedMemorySection.size self));
    [eexists; reflexivity|lia].
Qed.

(** C5: [read(offset, size)] returns the slice
    [content[offset : offset+size]] exactly when [offset >= 0] and
    [offset + size < N], and raises a memory access fault otherwise, the
    store being left as it was in both cases; a read that reaches the
    final byte ([offset + size = N]) is rejected; and on a buffer of [N]
    bytes an accepted read of [size >= 0] returns exactly the [size]
    bytes that start at [offset]. *)
Theorem read_bounds (self : LoadedMemorySection.t) (h : heap) (offset size_ : Z) :
  let N := LoadedMemorySection.size self in
  let fault msg :=
    MemoryAccessException msg (LoadedMemorySection.base self + offset) size_ "read" in
  (0 <= offset /\ offset + size_ < N ->
   LoadedMemorySection.read self offset size_ h
   = (Ok (obj_slice (deref h (LoadedMemorySection.content self))
            offset (offset + size_)), h)) /\
  (~ (0 <= offset /\ offset + size_ < N) ->
   exists msg, LoadedMemorySection.read self offset size_ h = (Raise (fault msg), h)) /\
  (offset + size_ = N ->
   exists msg, LoadedMemorySection.read self offset size_ h = (Raise (fault msg), h)) /\
  (forall bs,
     h !! LoadedMemorySection.content self = Some (Bytearray bs) ->
     Z.of_nat (length bs) = N ->
     0 <= offset -> 0 <= size_ -> offset + size_ < N ->
     LoadedMemorySection.read self offset size_ h
     = (Ok (Bytearray (take (Z.to_nat size_) (drop (Z.to_nat offset) bs))), h)
     /\ length (take (Z.to_nat size_) (drop (Z.to_nat offset) bs)) = Z.to_nat size_).
Proof.
  intros N fault. split; [|split; [|split]].
  - intros [H1 H2]. now apply read_accepts.
  - apply read_rejects.
  - intros Heq. apply read_rejects. lia.
  - intros bs Hbs Hlen Ho Hs Hlt.
    rewrite read_accepts by assumption.
    rewrite (deref_lookup _ _ _ Hbs). simpl.
    destruct (py_slice_in_range bs offset (offset + size_)) as [-> _]; [lia|lia|].
    replace (offset + size_ - offset) with size_ by lia.
    split; [reflexivity|].
    rewrite length_take, length_drop. lia.
Qed.

Lemma read_bounds_witness :
  LoadedMemorySection.read Ex.loaded_rw 1 2 Ex.store_four
  = (Ok (Bytearray [Byte.x0b; Byte.x0c]), Ex.store_four) /\
  (exists msg,
     LoadedMemorySection.read Ex.loaded_rw 1 3 Ex.store_four
     = (Raise (MemoryAccessException msg (0x1000 + 1) 3 "read"), Ex.store_four)) /\
  (exists msg,
     LoadedMemorySection.read Ex.loaded_rw (-1) 2 Ex.store_four
     = (Raise (MemoryAccessException msg (0x1000 + -1) 2 "read"), Ex.store_four)).
Proof.
  split; [|split].
  - destruct (read_bounds Ex.loaded_rw Ex.store_four 1 2) as (_ & _ & _ & H).
    destruct (H [Byte.x0a; Byte.x0b; Byte.x0c; Byte.x0d]) as [Hr _];
      [reflexivity|reflexivity|lia|lia|simpl; lia|].
    exact Hr.
  - destruct (read_bounds Ex.loaded_rw Ex.store_four 1 3) as (_ & _ & H & _).
    apply H. reflexivity.
  - destruct (read_bounds Ex.loaded_rw Ex.store_four (-1) 2) as (_ & H & _).
    apply H. simpl. lia.
Defined.

(** ** LoadedMemorySection.write *)

Lemma py_getitem_nat {A : Type} (l : list A) (k : nat) (x : A) :
  l !! k = Some x -> py_getitem l (Z.of_nat k) = Ok x.
Proof.
  intros Hx. pose proof (lookup_lt_Some _ _ _ Hx) as Hlt.
  unfold py_getitem, py_index.
  destruct (Z.leb_spec 0 (Z.of_nat k)); [|lia].
  destruct (Z.ltb_spec (Z.of_nat k) (Z.of_nat (length l))); [|lia].
  simpl. now rewrite Nat2Z.id, Hx.
Qed.

Lemma setitem_bytearray (h : heap) (r : ref) (bs : list Byte.byte) (n : nat) b :
  h !! r = Some (Bytearray bs) -> (n < length bs)%nat ->
  setitem r (Z.of_nat n) b h = (Ok tt, <[r := Bytearray (<[n := b]> bs)]> h).
Proof.
  intros Hr Hlt. unfold setitem, py_setitem, py_index.
  rewrite (deref_lookup _ _ _ Hr). simpl.
  destruct (Z.leb_spec 0 (Z.of_nat n)); [|lia].
  destruct (Z.ltb_spec (Z.of_nat n) (Z.of_nat (length bs))); [|lia].
  simpl. now rewrite Nat2Z.id.
Qed.

(** the copying loop of [write], from its [k]-th iteration on, [m]
    iterations being left *)
Lemma write_loop (r : ref) (data : list Byte.byte) (offset : Z) (o : nat) :
  offset = Z.of_nat o ->
  forall (m k : nat) (h : heap) (bs : list Byte.byte),
    h !! r = Some (Bytearray bs) ->
    (k + m <= length data)%nat ->
    (o + k + m <= length bs)%nat ->
    for_each (Z.of_nat <$> seq k m)
      (fun i => b <- lift_result (py_getitem data i) ;;
                setitem r (offset + i) b) h
    = (Ok tt,
       <[r := Bytearray (take (o + k) bs ++ take m (drop k data)
                         ++ drop (o + k + m) bs)]> h).
Proof.
  intros ->. induction m as [|m IH]; intros k h bs Hr Hdata Hbs.
  - simpl. rewrite Nat.add_0_r, take_drop. unfold ret.
    now rewrite list_insert_id.
  - destruct (lookup_lt_is_Some_2 data k) as [d Hd]; [lia|].
    assert (Hlt : (r < length h)%nat) by (eapply lookup_lt_Some; eauto).
    simpl.
    unfold bind at 1. unfold bind at 1. unfold lift_result.
    rewrite (py_getitem_nat _ _ _ Hd).
    replace (Z.of_nat o + Z.of_nat k) with (Z.of_nat (o + k)) by lia.
    rewrite (setitem_bytearray h r bs (o + k) d Hr) by lia.
    rewrite (IH (S k) _ (<[(o + k)%nat := d]> bs)).
    + rewrite list_insert_insert_eq. f_equal. f_equal. f_equal.
      replace (o + S k)%nat with (S (o + k)) by lia.
      rewrite (take_S_r _ _ d) by (apply list_lookup_insert_eq; lia).
      rewrite take_insert_ge by lia.
      rewrite drop_insert_lt by lia.
      rewrite (drop_S _ _ _ Hd). simpl.
      rewrite <- app_assoc. simpl.
      now replace (S (o + k + m)) with (o + k + S m)%nat by lia.
    + now apply list_lookup_insert_eq.
    + lia.
    + rewrite length_insert. lia.
Qed.

Lemma for_each_app {S A : Type} (xs ys : list A) (body : A -> M S unit) (s : S) :
  for_each (xs ++ ys) body s = (for_each xs body ;;; for_each ys body) s.
Proof.
  revert s. induction xs as [|x xs IH]; intros s; [reflexivity|].
  simpl. unfold bind. destruct (body x s) as [[u|e] s']; [|reflexivity].
  rewrite IH. reflexivity.
Qed.

Lemma py_setitem_at_end (bs : list Byte.byte) (b : Byte.byte) :
  py_setitem (Bytearray bs) (Z.of_nat (length bs)) b = Raise IndexError.
Proof.
  unfold py_setitem, py_index. simpl py_len.
  destruct (Z.leb_spec 0 (Z.of_nat (length bs))); [|lia].
  destruct (Z.ltb_spec (Z.of_nat (length bs)) (Z.of_nat (length bs))); [lia|].
  destruct (Z.ltb_spec (Z.of_nat (length bs)) 0); [lia|]. reflexivity.
Qed.

(** the copying loop of [write] on a buffer that ends before the range
    does: the bytes that fit are stored, and the first store past the end
    of the buffer raises IndexError *)
Lemma write_loop_past_end (r : ref) (data bs : list Byte.byte) (h : heap)
    (offset : Z) (o n : nat) :
  offset = Z.of_nat o ->
  h !! r = Some (Bytearray bs) ->
  (o <= length bs)%nat -> (length bs < o + n)%nat -> (n <= length data)%nat ->
  for_each (Z.of_nat <$> seq 0 n)
    (fun i => b <- lift_result (py_getitem data i) ;;
              setitem r (offset + i) b) h
  = (Raise IndexError,
     <[r := Bytearray (take o bs ++ take (length bs - o) data)]> h).
Proof.
  intros Hoff Hr Ho Hn Hdata.
  set (m := (length bs - o)%nat).
  assert (Hsplit : seq 0 n = seq 0 m ++ m :: seq (S m) (n - S m)).
  { replace n with (m + S (n - S m))%nat at 1 by lia.
    rewrite seq_app. reflexivity. }
  rewrite Hsplit, fmap_app, for_each_app.
  rewrite (bind_ok _ _ _ _ _
             (write_loop r data offset o Hoff m 0 h bs Hr ltac:(lia) ltac:(lia))).
  rewrite !Nat.add_0_r, drop_0, (drop_ge bs (o + m)) by lia. rewrite app_nil_r.
  assert (Hlt : (r < length h)%nat) by (eapply lookup_lt_Some; eauto).
  destruct (lookup_lt_is_Some_2 data m) as [d Hd]; [lia|].
  rewrite fmap_cons. cbn [for_each]. unfold bind, lift_result.
  rewrite (py_getitem_nat _ _ _ Hd). unfold setitem.
  erewrite deref_lookup by (now apply list_lookup_insert_eq).
  replace (offset + Z.of_nat m)
    with (Z.of_nat (length (take o bs ++ take m data))).
  - now rewrite py_setitem_at_end.
  - rewrite length_app, !length_take. lia.
Qed.

(** what [write] does check: a write to a read-only section raises the
    read-only fault whatever the offset; a write to a writable section
    raises an out-of-bounds fault when [offset < 0] or [offset >= N],
    where [N] is the section's size; no fault changes the store; and a
    write that passes the checks, on a buffer that has room for [size]
    bytes at [offset] and with [data] holding [size] bytes or more,
    copies exactly [size] bytes of [data] into the buffer at [offset]. *)
Lemma write_checks (self : LoadedMemorySection.t) (h : heap)
    (offset size_ : Z) (data : list Byte.byte) :
  let N := LoadedMemorySection.size self in
  let ro := read_only (LoadedMemorySection.flags self) in
  let addr := LoadedMemorySection.base self + offset in
  (ro = true ->
   LoadedMemorySection.write self offset size_ data h
   = (Raise (MemoryAccessException
               ("Section not writeable " +:+ LoadedMemorySection.name self)
               addr size_ "write"), h)) /\
  (ro = false -> offset < 0 \/ N <= offset ->
   exists msg s,
     LoadedMemorySection.write self offset size_ data h
     = (Raise (MemoryAccessException msg addr s "write"), h)) /\
  (forall bs,
     ro = false -> 0 <= offset < N ->
     h !! LoadedMemorySection.content self = Some (Bytearray bs) ->
     (Z.to_nat offset + Z.to_nat size_ <= length bs)%nat ->
     (Z.to_nat size_ <= length data)%nat ->
     LoadedMemorySection.write self offset size_ data h
     = (Ok tt,
        <[LoadedMemorySection.content self :=
            Bytearray (take (Z.to_nat offset) bs
                       ++ take (Z.to_nat size_) data
                       ++ drop (Z.to_nat offset + Z.to_nat size_) bs)]> h)).
Proof.
  intros N ro addr. unfold LoadedMemorySection.write. fold ro N addr.
  split; [|split].
  - intros ->. reflexivity.
  - intros -> [Hneg|Hge].
    + destruct (Z.ltb_spec offset 0); [|lia]. eexists _, _. reflexivity.
    + destruct (Z.ltb_spec offset 0); [eexists _, _; reflexivity|].
      destruct (Z.geb_spec offset N); [|lia]. eexists _, _. reflexivity.
  - intros bs -> [Ho HN] Hbs Hroom Hdata.
    destruct (Z.ltb_spec offset 0); [lia|].
    destruct (Z.geb_spec offset N); [lia|].
    unfold range.
    rewrite (write_loop _ data offset (Z.to_nat offset) ltac:(lia)
               (Z.to_nat size_) 0 h bs Hbs) by lia.
    now rewrite !Nat.add_0_r, drop_0.
Qed.

(** C4 fails on the code: [write] does not bound its range by the rule
    of [read].  [read] refuses a range when [offset + size >= N]; the
    guard of [write] is [offset >= N], without the [size].  So on a
    writable section whose buffer holds the [N] bytes of the section, a
    write that starts inside the section and whose [offset + size]
    reaches or passes [N], a range that [read] refuses with the access
    fault and no effect, is not answered with an access fault: when it
    ends exactly at [N] the bytes are copied and the call returns; when it
    runs past [N] the bytes that fit are stored, up to the end of the
    buffer, and the loop then stops with IndexError, the section being
    left changed. *)
Theorem write_bound_check_ignores_size (self : LoadedMemorySection.t)
    (h : heap) (offset size_ : Z) (data bs : list Byte.byte) :
  read_only (LoadedMemorySection.flags self) = false ->
  h !! LoadedMemorySection.content self = Some (Bytearray bs) ->
  Z.of_nat (length bs) = LoadedMemorySection.size self ->
  0 <= offset < LoadedMemorySection.size self ->
  LoadedMemorySection.size self <= offset + size_ ->
  size_ <= Z.of_nat (length data) ->
  let N := LoadedMemorySection.size self in
  let stored :=
    <[LoadedMemorySection.content self :=
        Bytearray (take (Z.to_nat offset) bs
                   ++ take (Z.to_nat (N - offset)) data)]> h in
  (exists msg,
     LoadedMemorySection.read self offset size_ h
     = (Raise (MemoryAccessException msg
                 (LoadedMemorySection.base self + offset) size_ "read"), h)) /\
  (offset + size_ = N ->
   LoadedMemorySection.write self offset size_ data h = (Ok tt, stored)) /\
  (N < offset + size_ ->
   LoadedMemorySection.write self offset size_ data h
   = (Raise IndexError, stored)).
Proof.
  intros Hro Hbs Hlen Ho Hpast Hdata N stored. subst N.
  split; [apply read_rejects; lia|]. split.
  - intros Heq. subst stored.
    destruct (write_checks self h offset size_ data) as (_ & _ & Hw).
    rewrite (Hw bs Hro Ho Hbs) by lia.
    rewrite (drop_ge bs) by lia. rewrite app_nil_r.
    now replace (LoadedMemorySection.size self - offset) with size_ by lia.
  - intros Hgt. subst stored. unfold LoadedMemorySection.write. rewrite Hro.
    destruct (Z.ltb_spec offset 0); [lia|].
    destruct (Z.geb_spec offset (LoadedMemorySection.size self)); [lia|].
    unfold range.
    rewrite (write_loop_past_end _ data bs h offset (Z.to_nat offset)
               (Z.to_nat size_)) by (assumption || lia).
    now replace (Z.to_nat (LoadedMemorySection.size self - offset))
      with (length bs - Z.to_nat offset)%nat by lia.
Qed.

Lemma write_bound_check_ignores_size_witness :
  (exists msg,
     LoadedMemorySection.read Ex.loaded_rw 3 2 Ex.store_four
     = (Raise (MemoryAccessException msg (0x1000 + 3) 2 "read"), Ex.store_four)) /\
  LoadedMemorySection.write Ex.loaded_rw 3 2 [Byte.xff; Byte.xee] Ex.store_four
  = (Raise IndexError, [Bytearray [Byte.x0a; Byte.x0b; Byte.x0c; Byte.xff]]).
Proof.
  destruct (write_bound_check_ignores_size Ex.loaded_rw Ex.store_four 3 2
              [Byte.xff; Byte.xee] [Byte.x0a; Byte.x0b; Byte.x0c; Byte.x0d])
    as (Hread & _ & Hwrite);
    [reflexivity|reflexivity|reflexivity|simpl; lia|simpl; lia|simpl; lia|].
  split; [exact Hread|]. apply Hwrite. simpl. lia.
Defined.


(** ** The loader *)

(** C1 fails on the code: the stack is placed at [base_addr], and the
    address cursor of the section loop starts at [base_addr] too, not behind
    the stack.  Loading the image of one [.text] section of three
    instructions with a stack of 256 bytes at 0x1000 gives
    [stack_heap = (0x1000, 0x1100)] and a [.text] section at 0x1000,
    inside the stack: both sections hold the address 0x1000, the pair
    is one that [ElfExecutable.add_sec] refuses as overlapping, and the
    size of the loaded executable is the cursor's advance, which does not
    span the stack. *)
Theorem load_stack_overlaps_first_section (to_bytes : Z) :
  exists le h',
    LoadedExecutable.init to_bytes Ex.image 0x1000 [] = (Ok le, h') /\
    LoadedExecutable.stack_heap le = (0x1000, 0x1100) /\
    LoadedExecutable.sections le = [Ex.loaded_stack; Ex.loaded_text] /\
    LoadedExecutable.overlap Ex.loaded_stack Ex.loaded_text /\
    ElfExecutable.apart Ex.loaded_stack Ex.loaded_text = false /\
    LoadedExecutable.size le = align_addr to_bytes (3 + 0x1000) - 0x1000.
Proof.
  eexists _, _. split; [reflexivity|]. simpl.
  split; [reflexivity|]. split; [reflexivity|]. split; [|split; reflexivity].
  exists 0x1000. unfold LoadedExecutable.covers. simpl. lia.
Qed.


(** *** What the loader does get right

    The sections of the image follow one another from [base_addr] on,
    each at the aligned end of the one before, and so do not overlap one
    another. *)

Lemma bind_inv {S A B : Type} (m : M S A) (k : A -> M S B) s b s' :
  bind m k s = (Ok b, s') ->
  exists a s1, m s = (Ok a, s1) /\ k a s1 = (Ok b, s').
Proof.
  unfold bind. destruct (m s) as [[a|e] s1]; [eauto|discriminate].
Qed.

Lemma align_addr_ge (to_bytes addr : Z) :
  0 < to_bytes -> addr <= align_addr to_bytes addr.
Proof.
  intros H. unfold align_addr.
  pose proof (Z.mod_pos_bound (- addr) to_bytes H). lia.
Qed.

Lemma align_addr_aligned (to_bytes addr : Z) :
  0 < to_bytes -> align_addr to_bytes addr mod to_bytes = 0.
Proof.
  intros H. unfold align_addr.
  rewrite Zplus_mod_idemp_r. replace (addr + - addr) with 0 by lia.
  apply Zmod_0_l.
Qed.

Lemma align_addr_lt (to_bytes addr : Z) :
  0 < to_bytes -> align_addr to_bytes addr < addr + to_bytes.
Proof.
  intros H. unfold align_addr.
  pose proof (Z.mod_pos_bound (- addr) to_bytes H). lia.
Qed.

Lemma load_section_ok (to_bytes : Z) (self_name : string)
    (st st' : LoadedExecutable.layout) (sec : section) (h h' : heap) :
  LoadedExecutable.load_section to_bytes self_name st sec h = (Ok st', h') ->
  exists l,
    LoadedExecutable.l_sections st' = LoadedExecutable.l_sections st ++ [l] /\
    LoadedMemorySection.name l = sec_name sec /\
    LoadedMemorySection.base l = LoadedExecutable.curr st /\
    LoadedMemorySection.size l = sec_size sec /\
    LoadedExecutable.curr st'
    = align_addr to_bytes (sec_size sec + LoadedExecutable.curr st).
Proof.
  unfold LoadedExecutable.load_section. intros H.
  apply bind_inv in H as (c & h1 & _ & H). injection H as <- _.
  eexists. simpl. repeat split; reflexivity.
Qed.

Lemma load_sections_placed (to_bytes : Z) (self_name : string) (secs : list section) :
  forall (st st' : LoadedExecutable.layout) (h h' : heap),
    LoadedExecutable.load_sections to_bytes self_name st secs h = (Ok st', h') ->
    exists ls,
      LoadedExecutable.l_sections st' = LoadedExecutable.l_sections st ++ ls /\
      LoadedExecutable.placed to_bytes (LoadedExecutable.curr st) secs ls /\
      LoadedExecutable.curr st'
      = LoadedExecutable.final_cursor to_bytes (LoadedExecutable.curr st) secs.
Proof.
  induction secs as [|sec secs IH]; intros st st' h h' H; simpl in H.
  - injection H as <- _. exists []. now rewrite app_nil_r.
  - apply bind_inv in H as (st1 & h1 & H1 & H).
    apply load_section_ok in H1 as (l & Hl & Hn & Hb & Hs & Hc).
    apply IH in H as (ls & Hls & Hp & Hf).
    exists (l :: ls). simpl. rewrite Hls, Hl, <- app_assoc. simpl.
    rewrite Hc in Hp, Hf. repeat split; assumption.
Qed.

(** sections placed from a cursor on lie at or above it, in order, each
    ending before the next begins *)
Lemma placed_above (to_bytes : Z) (secs : list section) :
  0 < to_bytes -> Forall (fun sec => 0 <= sec_size sec) secs ->
  forall c ls,
    LoadedExecutable.placed to_bytes c secs ls ->
    Forall (fun l => c <= LoadedMemorySection.base l) ls.
Proof.
  intros Ht Hsz. induction Hsz as [|sec secs Hs _ IH]; intros c ls Hp;
    destruct ls as [|l ls]; simpl in Hp; try contradiction; constructor.
  - lia.
  - destruct Hp as (_ & _ & _ & Hp). apply IH in Hp.
    eapply Forall_impl; [exact Hp|]. intros l' Hl'. simpl in Hl'.
    pose proof (align_addr_ge to_bytes (sec_size sec + c) Ht). lia.
Qed.

Lemma placed_apart (to_bytes : Z) (secs : list section) :
  0 < to_bytes -> Forall (fun sec => 0 <= sec_size sec) secs ->
  forall c ls i j a b,
    LoadedExecutable.placed to_bytes c secs ls ->
    (i < j)%nat -> ls !! i = Some a -> ls !! j = Some b ->
    LoadedMemorySection.base a + LoadedMemorySection.size a
    <= LoadedMemorySection.base b
    /\ LoadedMemorySection.base b mod to_bytes = 0
    /\ ~ LoadedExecutable.overlap a b.
Proof.
  intros Ht Hsz. induction Hsz as [|sec secs Hs Hsz IH]; intros c ls i j a b Hp Hij Ha Hb;
    destruct ls as [|l ls]; simpl in Hp; try contradiction.
  - discriminate Ha.
  - destruct Hp as (_ & Hbase & Hsize & Hp).
    destruct j as [|j]; [lia|]. simpl in Hb.
    destruct i as [|i]; simpl in Ha.
    + injection Ha as ->.
      pose proof (placed_above _ _ Ht Hsz _ _ Hp) as Hab.
      rewrite Forall_lookup in Hab. specialize (Hab _ _ Hb). simpl in Hab.
      pose proof (align_addr_ge to_bytes (sec_size sec + c) Ht).
      assert (Hend : LoadedMemorySection.base a + LoadedMemorySection.size a
                     <= LoadedMemorySection.base b) by lia.
      split; [exact Hend|]. split.
      * destruct j as [|j].
        -- destruct secs as [|sec' secs], ls as [|l' ls];
             simpl in Hp; try contradiction; try discriminate.
           simpl in Hb. injection Hb as ->.
           destruct Hp as (_ & -> & _). now apply align_addr_aligned.
        -- destruct secs as [|sec' secs]; [destruct ls; [discriminate|contradiction]|].
           destruct ls as [|l' ls]; [discriminate|].
           apply Forall_cons in Hsz as [Hs' Hsz'].
           refine (proj1 (proj2 (IH _ (l' :: ls) 0%nat (S j) l' b Hp
                                   ltac:(lia) eq_refl Hb))).
      * intros (x & Hx1 & Hx2). unfold LoadedExecutable.covers in *. lia.
    + apply (IH _ _ i j a b Hp); [lia|assumption|assumption].
Qed.

(** what a successful load returns: [stack_heap], the stack section in
    front when there is a stack preference, the image sections placed from
    [base_addr] on, and the size *)
Lemma init_layout (to_bytes : Z) (exe : Executable.t) (base_addr : Z)
    (h h' : heap) (le : LoadedExecutable.t) :
  LoadedExecutable.init to_bytes exe base_addr h = (Ok le, h') ->
  let secs := snd <$> Executable.sections exe in
  let stack :=
    match Executable.stack_pref exe with
    | Some K =>
        [LoadedMemorySection.mk "stack" base_addr K (length h)
           {| read_only := false; executable := false |} (Executable.name exe)]
    | None => []
    end in
  LoadedExecutable.stack_heap le
  = match Executable.stack_pref exe with
    | Some K => (base_addr, base_addr + K)
    | None => (0, 0)
    end /\
  (exists ls,
     LoadedExecutable.sections le = stack ++ ls /\
     LoadedExecutable.placed to_bytes base_addr secs ls) /\
  LoadedExecutable.size le
  = LoadedExecutable.final_cursor to_bytes base_addr secs - base_addr.
Proof.
  unfold LoadedExecutable.init. intros H.
  apply bind_inv in H as (stack & h1 & Hstack & H).
  apply bind_inv in H as (st & h2 & Hload & H).
  apply bind_inv in H as (syms & h3 & _ & H).
  destruct (Executable.run_ptr exe) as [run_ptr_sec run_ptr_off].
  apply bind_inv in H as (s & h4 & _ & H). injection H as <- _.
  apply load_sections_placed in Hload as (ls & Hls & Hp & Hf). simpl in *.
  assert (Hst : stack
                = (match Executable.stack_pref exe with
                   | Some K =>
                       [LoadedMemorySection.mk "stack" base_addr K (length h)
                          {| read_only := false; executable := false |}
                          (Executable.name exe)]
                   | None => []
                   end,
                   match Executable.stack_pref exe with
                   | Some K => (base_addr, base_addr + K)
                   | None => (0, 0)
                   end)).
  { destruct (Executable.stack_pref exe) as [K|].
    - apply bind_inv in Hstack as (o & h5 & Ho & Hstack).
      unfold bytearray_of_len in Ho.
      destruct (K <? 0); [discriminate|]. injection Ho as <- <-.
      apply bind_inv in Hstack as (r & h6 & Hr & Hstack).
      injection Hr as <- <-. now injection Hstack as <- _.
    - now injection Hstack as <- _. }
  subst stack. simpl in *. split; [reflexivity|]. split; [eauto|].
  now rewrite Hf.
Qed.

(** whenever an image with a non-empty stack and a non-empty first
    section loads, the stack and that section overlap *)
Lemma init_stack_overlap (to_bytes : Z) (exe : Executable.t) (base_addr : Z)
    (h h' : heap) (le : LoadedExecutable.t) (K : Z) key sec rest :
  LoadedExecutable.init to_bytes exe base_addr h = (Ok le, h') ->
  Executable.stack_pref exe = Some K -> 0 < K ->
  Executable.sections exe = (key, sec) :: rest -> 0 < sec_size sec ->
  exists a b,
    LoadedExecutable.sections le !! 0%nat = Some a /\
    LoadedExecutable.sections le !! 1%nat = Some b /\
    LoadedMemorySection.name a = "stack"%string /\
    LoadedMemorySection.name b = sec_name sec /\
    LoadedExecutable.overlap a b.
Proof.
  intros H HK HKpos Hsecs Hpos.
  apply init_layout in H as (_ & (ls & Hls & Hp) & _).
  rewrite HK in Hls. rewrite Hsecs in Hp. simpl in Hp.
  destruct ls as [|l ls]; [contradiction|].
  destruct Hp as (Hn & Hb & Hs & _).
  eexists _, l. rewrite Hls. simpl. repeat split; try reflexivity; [assumption|].
  exists base_addr. unfold LoadedExecutable.covers. simpl. lia.
Qed.

(** ** CSR: names that are not in [name_to_addr] *)

Lemma resolve_unknown (s : string) (c : CSR.t) (out : list event) :
  CSR.name_to_addr !! s = None ->
  CSR.resolve (Name s) (c, out)
  = (Raise (KeyError s), (c, out ++ [Print ("Unknown CSR register " +:+ s)])).
Proof.
  intros H. unfold CSR.resolve, dict_getitem. rewrite H.
  rewrite bool_decide_eq_false_2 by (intros [x Hx]; discriminate Hx).
  reflexivity.
Qed.

(** C2, as amended: for a name that is not in the table of known
    mnemonics, [get], [set] and [set_listener] print the diagnostic and
    then fail with the KeyError of the table lookup; no register is read,
    created or written and no listener is installed. *)
Theorem unknown_name_raises (s : string) (c : CSR.t) (out : list event)
    (val : Z) (l : listener) :
  CSR.name_to_addr !! s = None ->
  let failed := (c, out ++ [Print ("Unknown CSR register " +:+ s)]) in
  CSR.get (Name s) (c, out) = (Raise (KeyError s), failed) /\
  CSR.set (Name s) val (c, out) = (Raise (KeyError s), failed) /\
  CSR.set_listener (Name s) l (c, out) = (Raise (KeyError s), failed).
Proof.
  intros H failed. unfold CSR.get, CSR.set, CSR.set_listener.
  repeat split; apply bind_raise; now apply resolve_unknown.
Qed.

Lemma unknown_name_raises_witness :
  let failed := (CSR.init, [Print "Unknown CSR register mscratch"]) in
  CSR.get (Name "mscratch") (CSR.init, []) = (Raise (KeyError "mscratch"), failed) /\
  CSR.set (Name "mscratch") 5 (CSR.init, []) = (Raise (KeyError "mscratch"), failed) /\
  CSR.set_listener (Name "mscratch") (Callback 1) (CSR.init, [])
  = (Raise (KeyError "mscratch"), failed).
Proof.
  apply (unknown_name_raises "mscratch" CSR.init [] 5 (Callback 1)).
  reflexivity.
Defined.

(** C2 as stated fails: with the unknown name [mscratch] none of the
    three calls completes, and after them address 0 holds no value and
    no listener. *)
Lemma unknown_name_does_not_complete :
  CSR.name_to_addr !! "mscratch"%string = None /\
  ~ (exists v st, CSR.get (Name "mscratch") (CSR.init, []) = (Ok v, st)) /\
  ~ (exists st, CSR.set (Name "mscratch") 5 (CSR.init, []) = (Ok tt, st)) /\
  ~ (exists st,
       CSR.set_listener (Name "mscratch") (Callback 1) (CSR.init, []) = (Ok tt, st)) /\
  (forall st e, CSR.set (Name "mscratch") 5 (CSR.init, []) = (Raise e, st) ->
                CSR.regs st.1 !! 0 = None) /\
  (forall st e,
     CSR.set_listener (Name "mscratch") (Callback 1) (CSR.init, []) = (Raise e, st) ->
     CSR.listeners st.1 !! 0 = None).
Proof.
  split; [reflexivity|].
  split; [intros (v & st & H); vm_compute in H; discriminate H|].
  split; [intros (st & H); vm_compute in H; discriminate H|].
  split; [intros (st & H); vm_compute in H; discriminate H|].
  split; intros st e H; vm_compute in H; injection H as _ <-; reflexivity.
Qed.

(** ** CSR: the fields of mstatus *)

Lemma offsets_bounds (name : string) (off : Z) :
  MSTATUS_OFFSETS !! name = Some off -> 0 <= off <= 31.
Proof.
  intros H. apply elem_of_list_to_map_2 in H.
  repeat (apply elem_of_cons in H as [H|H]; [injection H as _ ->; lia|]).
  inversion H.
Qed.

Lemma field_size_cases (name : string) :
  CSR.field_size name = 1 \/ CSR.field_size name = 2.
Proof. unfold CSR.field_size. case_bool_decide; auto. Qed.

Lemma testbit_field_mask (name : string) (off n : Z) :
  0 <= off ->
  Z.testbit (CSR.field_mask name off) n
  = (off <=? n) && (n <? off + CSR.field_size name).
Proof.
  intros Hoff. unfold CSR.field_mask.
  assert (Hw : 0 < CSR.field_size name)
    by (destruct (field_size_cases name); lia).
  replace (2 ^ CSR.field_size name - 1) with (Z.ones (CSR.field_size name))
    by (rewrite Z.ones_equiv; lia).
  destruct (Z.leb_spec off n) as [Hle|Hlt]; simpl.
  - rewrite Z.shiftl_spec by lia.
    rewrite Z.testbit_ones_nonneg by lia.
    destruct (Z.ltb_spec (n - off) (CSR.field_size name)),
             (Z.ltb_spec n (off + CSR.field_size name)); lia || reflexivity.
  - destruct (Z.neg_nonneg_cases n) as [Hn|Hn].
    + now apply Z.testbit_neg_r.
    + rewrite Z.shiftl_spec by lia. apply Z.testbit_neg_r. lia.
Qed.

Lemma testbit_small (v w n : Z) :
  0 <= v < 2 ^ w -> w <= n -> Z.testbit v n = false.
Proof.
  intros Hv Hn.
  destruct (Z.neg_nonneg_cases w) as [Hw|Hw].
  - rewrite Z.pow_neg_r in Hv by lia. lia.
  - rewrite <- (Z.mod_small v (2 ^ w)) by lia.
    apply Z.mod_pow2_bits_high. lia.
Qed.

(** the value [set_mstatus] stores *)
Lemma testbit_new_val (name : string) (off old_val val n : Z) :
  0 <= off ->
  Z.testbit (Z.lor (Z.land old_val (Z.lnot (CSR.field_mask name off)))
               (Z.shiftl val off)) n
  = if (off <=? n) && (n <? off + CSR.field_size name)
    then Z.testbit val (n - off)
    else Z.testbit old_val n || Z.testbit (Z.shiftl val off) n.
Proof.
  intros Hoff.
  destruct (Z.neg_nonneg_cases n) as [Hn|Hn].
  - rewrite !Z.testbit_neg_r by lia.
    destruct (Z.leb_spec off n); [lia|reflexivity].
  - rewrite Z.lor_spec, Z.land_spec, Z.lnot_spec by lia.
    rewrite testbit_field_mask by lia.
    destruct ((off <=? n) && (n <? off + CSR.field_size name)) eqn:E; simpl.
    + rewrite andb_false_r. simpl.
      apply andb_prop in E as [E _]. apply Z.leb_le in E.
      now rewrite Z.shiftl_spec by lia.
    + now rewrite andb_true_r.
Qed.

(** the value [get_mstatus] extracts from what [set_mstatus] stored *)
Lemma field_round_trip (name : string) (off old_val val : Z) :
  0 <= off ->
  Z.shiftr (Z.land (Z.lor (Z.land old_val (Z.lnot (CSR.field_mask name off)))
                      (Z.shiftl val off))
              (CSR.field_mask name off)) off
  = val mod 2 ^ CSR.field_size name.
Proof.
  intros Hoff. apply Z.bits_inj'. intros n Hn.
  rewrite Z.shiftr_spec, Z.land_spec by lia.
  rewrite testbit_new_val, testbit_field_mask by lia.
  assert (Hw : 0 < CSR.field_size name)
    by (destruct (field_size_cases name); lia).
  destruct (Z.leb_spec off (n + off)); [|lia]. simpl.
  destruct (Z.ltb_spec (n + off) (off + CSR.field_size name)).
  - rewrite andb_true_r. replace (n + off - off) with n by lia.
    symmetry. apply Z.mod_pow2_bits_low. lia.
  - rewrite andb_false_r. symmetry. apply Z.mod_pow2_bits_high. lia.
Qed.

Lemma get_mstatus_reg (c : CSR.t) (out : list event) :
  exists c1,
    CSR.get (Name "mstatus") (c, out) = (Ok (CSR.mstatus c), (c1, out)) /\
    CSR.regs c1 !! 0x300 = Some (CSR.mstatus c) /\
    CSR.listeners c1 = CSR.listeners c.
Proof.
  unfold CSR.get, CSR.mstatus.
  assert (Hres : CSR.resolve (Name "mstatus") (c, out) = (Ok 0x300, (c, out)))
    by reflexivity.
  rewrite (bind_ok _ _ _ _ _ Hres). unfold CSR.regs_getitem.
  destruct (CSR.regs c !! 0x300) as [v|] eqn:E; simpl.
  - exists c. auto.
  - eexists. split; [reflexivity|]. simpl. split; [|reflexivity].
    apply lookup_insert_eq.
Qed.

Lemma get_mstatus_present (c : CSR.t) (out : list event) (v : Z) :
  CSR.regs c !! 0x300 = Some v ->
  CSR.get (Name "mstatus") (c, out) = (Ok v, (c, out)).
Proof.
  intros H. unfold CSR.get.
  assert (Hres : CSR.resolve (Name "mstatus") (c, out) = (Ok 0x300, (c, out)))
    by reflexivity.
  rewrite (bind_ok _ _ _ _ _ Hres). unfold CSR.regs_getitem. now rewrite H.
Qed.

Lemma set_mstatus_reg (c : CSR.t) (out : list event) (v : Z) :
  exists c1 out1,
    CSR.set (Name "mstatus") v (c, out) = (Ok tt, (c1, out1)) /\
    CSR.regs c1 !! 0x300 = Some v.
Proof.
  unfold CSR.set.
  assert (Hres : CSR.resolve (Name "mstatus") (c, out) = (Ok 0x300, (c, out)))
    by reflexivity.
  rewrite (bind_ok _ _ _ _ _ Hres).
  unfold bind, CSR.listeners_getitem, CSR.regs_getitem, CSR.call, CSR.regs_setitem.
  destruct (CSR.listeners c !! 0x300) as [[|id]|]; simpl;
    destruct (CSR.regs c !! 0x300); simpl;
    eexists _, _; (split; [reflexivity|]); simpl; apply lookup_insert_eq.
Qed.

(** what one call of [set_mstatus] leaves in the register *)
Lemma set_mstatus_stores (name : string) (off val : Z) (c : CSR.t) (out : list event) :
  MSTATUS_OFFSETS !! name = Some off ->
  exists c1 out1,
    CSR.set_mstatus name val (c, out) = (Ok tt, (c1, out1)) /\
    CSR.regs c1 !! 0x300
    = Some (Z.lor (Z.land (CSR.mstatus c) (Z.lnot (CSR.field_mask name off)))
              (Z.shiftl val off)).
Proof.
  intros Hoff. unfold CSR.set_mstatus.
  assert (Hd : @dict_getitem CSR.state Z MSTATUS_OFFSETS name (c, out)
               = (Ok off, (c, out)))
    by (unfold dict_getitem; now rewrite Hoff).
  rewrite (bind_ok _ _ _ _ _ Hd).
  destruct (get_mstatus_reg c out) as (c0 & Hget & _ & _).
  rewrite (bind_ok _ _ _ _ _ Hget).
  apply set_mstatus_reg.
Qed.

(** C3, as amended: for a defined field [f] of width [w] at offset
    [off] and every integer [v], [set_mstatus(f, v)] completes and
    [get_mstatus(f)] then returns [v mod 2^w]; every bit of mstatus below
    the field is as before; and when [v] has the width of the field,
    [0 <= v < 2^w], every bit outside the field is as before. *)
Theorem mstatus_round_trip (f : string) (off v : Z) (c : CSR.t) (out : list event) :
  MSTATUS_OFFSETS !! f = Some off ->
  let w := CSR.field_size f in
  exists c' out',
    CSR.set_mstatus f v (c, out) = (Ok tt, (c', out')) /\
    CSR.get_mstatus f (c', out') = (Ok (v mod 2 ^ w), (c', out')) /\
    (forall n, n < off ->
       Z.testbit (CSR.mstatus c') n = Z.testbit (CSR.mstatus c) n) /\
    (0 <= v < 2 ^ w ->
     forall n, ~ (off <= n < off + w) ->
       Z.testbit (CSR.mstatus c') n = Z.testbit (CSR.mstatus c) n).
Proof.
  intros Hoff w. pose proof (offsets_bounds _ _ Hoff) as Hb.
  destruct (set_mstatus_stores f off v c out Hoff) as (c' & out' & Hset & Hreg).
  exists c', out'. split; [exact Hset|].
  assert (Hm : CSR.mstatus c'
               = Z.lor (Z.land (CSR.mstatus c) (Z.lnot (CSR.field_mask f off)))
                   (Z.shiftl v off))
    by (unfold CSR.mstatus at 1; now rewrite Hreg).
  split; [|split].
  - unfold CSR.get_mstatus.
    assert (Hd : @dict_getitem CSR.state Z MSTATUS_OFFSETS f (c', out')
                 = (Ok off, (c', out')))
      by (unfold dict_getitem; now rewrite Hoff).
    rewrite (bind_ok _ _ _ _ _ Hd).
    rewrite (bind_ok _ _ _ _ _ (get_mstatus_present c' out' _ Hreg)).
    unfold ret. now rewrite field_round_trip by lia.
  - intros n Hn. rewrite Hm, testbit_new_val by lia.
    destruct (Z.leb_spec off n); [lia|]. simpl.
    destruct (Z.neg_nonneg_cases n).
    + now rewrite !Z.testbit_neg_r by lia.
    + rewrite Z.shiftl_spec by lia.
      rewrite (Z.testbit_neg_r v) by lia. apply orb_false_r.
  - intros Hv n Hn. rewrite Hm, testbit_new_val by lia. fold w.
    destruct (Z.leb_spec off n); simpl.
    + destruct (Z.ltb_spec n (off + w)); [lia|].
      rewrite Z.shiftl_spec by lia.
      rewrite (testbit_small v w) by lia. apply orb_false_r.
    + destruct (Z.neg_nonneg_cases n).
      * now rewrite !Z.testbit_neg_r by lia.
      * rewrite Z.shiftl_spec by lia.
        rewrite (Z.testbit_neg_r v) by lia. apply orb_false_r.
Qed.

Lemma mstatus_round_trip_witness :
  let w := CSR.field_size "mpp" in
  exists c' out',
    CSR.set_mstatus "mpp" 7 (CSR.init, []) = (Ok tt, (c', out')) /\
    CSR.get_mstatus "mpp" (c', out') = (Ok (7 mod 2 ^ w), (c', out')) /\
    (forall n, n < 11 ->
       Z.testbit (CSR.mstatus c') n = Z.testbit (CSR.mstatus CSR.init) n) /\
    (0 <= 7 < 2 ^ w ->
     forall n, ~ (11 <= n < 11 + w) ->
       Z.testbit (CSR.mstatus c') n = Z.testbit (CSR.mstatus CSR.init) n).
Proof.
  apply (mstatus_round_trip "mpp" 11 7 CSR.init []). reflexivity.
Defined.

(** C3 as stated fails for a value wider than the field: writing 2 to
    the one-bit field [uie] (bit 0) of an all-zero mstatus sets bit 1,
    which is the field [sie]. *)
Lemma set_mstatus_wide_value_spills :
  let after := CSR.set_mstatus "uie" 2 (CSR.init, []) in
  MSTATUS_OFFSETS !! "uie"%string = Some 0 /\
  CSR.field_size "uie" = 1 /\
  after.1 = Ok tt /\
  ~ (0 <= 1 < 0 + 1) /\
  Z.testbit (CSR.mstatus CSR.init) 1 = false /\
  Z.testbit (CSR.mstatus after.2.1) 1 = true /\
  (CSR.get_mstatus "sie" (CSR.init, [])).1 = Ok 0 /\
  (CSR.get_mstatus "sie" after.2).1 = Ok 1.
Proof.
  repeat split; try (vm_compute; reflexivity). lia.
Qed.


(** ** PrivRV32I: csrrw *)

(** C6 fails on the code: with a destination other than [zero] the
    handler evaluates [self.cpu.csr[ind]], and the CSR class has no
    [__getitem__], so the instruction stops with TypeError before
    anything is written: [rd] does not receive the old CSR value and the
    CSR is not overwritten.  This is so whatever [int_from_bytes] does,
    and also when [rd] and [rs] are the same register. *)
Theorem csrrw_fails_with_type_error (int_from_bytes : list Byte.byte -> Z) :
  PrivRV32I.instruction_csrrw int_from_bytes Ex.csrrw_a0_a1_mepc (Ex.cpu_in MACHINE)
  = (Raise (TypeError "'CSR' object is not subscriptable"), Ex.cpu_in MACHINE) /\
  PrivRV32I.instruction_csrrw int_from_bytes Ex.csrrw_a1_a1_mepc (Ex.cpu_in MACHINE)
  = (Raise (TypeError "'CSR' object is not subscriptable"), Ex.cpu_in MACHINE) /\
  PrivRV32I.reg_value (Ex.cpu_in MACHINE) "a0" = 7 /\
  CSR.regs (PrivCPU.csr (Ex.cpu_in MACHINE)) !! 0x341 = Some 0x80.
Proof. repeat split. Qed.

(** the same for every well-formed [csrrw] whose destination is not [zero] *)
Lemma csrrw_fails_for_every_rd (int_from_bytes : list Byte.byte -> Z)
    (rd rs : string) (ind : Z) (cpu : PrivCPU.t) :
  rd <> "zero"%string ->
  PrivRV32I.instruction_csrrw int_from_bytes
    (Instruction.mk "csrrw" [Reg rd; Reg rs; Imm ind]) cpu
  = (Raise (TypeError "'CSR' object is not subscriptable"), cpu).
Proof.
  intros Hrd. destruct cpu as [pc mode csr regs out].
  unfold PrivRV32I.instruction_csrrw, PrivRV32I.parse_crs_ins, bind. simpl.
  now rewrite (bool_decide_eq_false_2 _ Hrd).
Qed.

(** with destination [zero] the handler does overwrite the CSR with the
    content of [rs] *)
Lemma csrrw_zero_writes (int_from_bytes : list Byte.byte -> Z) :
  exists cpu',
    PrivRV32I.instruction_csrrw int_from_bytes Ex.csrrw_zero_a1_mepc (Ex.cpu_in MACHINE)
    = (Ok tt, cpu') /\
    CSR.regs (PrivCPU.csr cpu') !! 0x341 = Some 5 /\
    PrivCPU.regs cpu' = PrivCPU.regs (Ex.cpu_in MACHINE).
Proof. eexists. repeat split. Qed.


(** ** PrivRV32I: mret *)

(** C7: [mret] in USER or SUPERVISOR mode raises the illegal-instruction
    trap, and the CPU is left with the program counter, the privilege
    mode, the whole CSR bank (so the [mie] bit of mstatus too) and the
    registers it had; the one effect is the line printed. *)
Theorem mret_outside_machine_mode (ins : Instruction.t) (cpu : PrivCPU.t) :
  PrivCPU.mode cpu = USER \/ PrivCPU.mode cpu = SUPER ->
  exists cpu',
    PrivRV32I.instruction_mret ins cpu = (Raise IllegalInstructionTrap, cpu') /\
    PrivCPU.pc cpu' = PrivCPU.pc cpu /\
    PrivCPU.mode cpu' = PrivCPU.mode cpu /\
    PrivCPU.csr cpu' = PrivCPU.csr cpu /\
    Z.testbit (CSR.mstatus (PrivCPU.csr cpu')) 3
    = Z.testbit (CSR.mstatus (PrivCPU.csr cpu)) 3 /\
    PrivCPU.regs cpu' = PrivCPU.regs cpu /\
    PrivCPU.out cpu' = PrivCPU.out cpu ++ [Print "MRET not inside machine level code!"].
Proof.
  intros Hmode. destruct cpu as [pc mode csr regs out]. simpl in Hmode.
  exists (PrivCPU.mk pc mode csr regs
            (out ++ [Print "MRET not inside machine level code!"])).
  split; [|repeat split].
  unfold PrivRV32I.instruction_mret, bind, PrivCPU.get_mode.
  destruct Hmode as [-> | ->]; reflexivity.
Qed.

Lemma mret_outside_machine_mode_witness :
  exists cpu',
    PrivRV32I.instruction_mret Ex.mret_ins (Ex.cpu_in USER)
    = (Raise IllegalInstructionTrap, cpu') /\
    PrivCPU.pc cpu' = 0x100 /\
    PrivCPU.mode cpu' = USER /\
    PrivCPU.csr cpu' = PrivCPU.csr (Ex.cpu_in USER).
Proof.
  destruct (mret_outside_machine_mode Ex.mret_ins (Ex.cpu_in USER))
    as (cpu' & H1 & H2 & H3 & H4 & _).
  - left. reflexivity.
  - exists cpu'. split; [exact H1|]. split; [exact H2|]. split; [exact H3|exact H4].
Defined.

(** in MACHINE mode [mret] goes through: the program counter is restored
    from [mepc] and the mode from the [mpp] field *)
Lemma mret_in_machine_mode :
  exists cpu',
    PrivRV32I.instruction_mret Ex.mret_ins (Ex.cpu_in MACHINE) = (Ok tt, cpu') /\
    PrivCPU.pc cpu' = 0x80 /\
    PrivCPU.mode cpu' = USER.
Proof.
  eexists. split; [vm_compute; reflexivity|]. split; reflexivity.
Qed.

(** ** PrivRV32I: ecall *)

(** C9: [scall] raises CpuTrap with the first argument 0 and the code 8
    in USER mode, 9 in SUPERVISOR mode and 11 in MACHINE mode; nothing
    else happens to the CPU. *)
Theorem scall_cause_codes (ins : Instruction.t) (cpu : PrivCPU.t) :
  PrivRV32I.instruction_scall ins cpu
  = (Raise (CpuTrap 0 (match PrivCPU.mode cpu with
                       | USER => 8
                       | SUPER => 9
                       | MACHINE => 11
                       end)), cpu).
Proof.
  unfold PrivRV32I.instruction_scall, bind, PrivCPU.get_mode.
  destruct (PrivCPU.mode cpu); reflexivity.
Qed.

(** ** PrivRV32I: conditional branches *)

Lemma parse_rs_rs_imm_ok (mnemonic r1 r2 : string) (dst : Z) (signed : bool)
    (cpu : PrivCPU.t) :
  let a := PrivRV32I.reg_value cpu r1 in
  let b := PrivRV32I.reg_value cpu r2 in
  PrivRV32I.parse_rs_rs_imm (Instruction.mk mnemonic [Reg r1; Reg r2; Imm dst])
    signed cpu
  = (Ok (if signed then (to_signed a, to_signed b, dst)
         else (to_unsigned a, to_unsigned b, dst)), cpu).
Proof. destruct cpu, signed; reflexivity. Qed.

(** the CPU after a branch: only the program counter can differ *)
Lemma pc_iadd_ok (d : Z) (cpu : PrivCPU.t) :
  PrivRV32I.pc_iadd d cpu
  = (Ok tt, PrivCPU.mk (PrivCPU.pc cpu + d) (PrivCPU.mode cpu) (PrivCPU.csr cpu)
              (PrivCPU.regs cpu) (PrivCPU.out cpu)).
Proof. reflexivity. Qed.

Lemma ret_ok (cpu : PrivCPU.t) :
  @ret PrivCPU.t unit tt cpu
  = (Ok tt, PrivCPU.mk (PrivCPU.pc cpu) (PrivCPU.mode cpu) (PrivCPU.csr cpu)
              (PrivCPU.regs cpu) (PrivCPU.out cpu)).
Proof. now destruct cpu. Qed.

Ltac branch_case :=
  match goal with
  | |- context [PrivRV32I.parse_rs_rs_imm ?i ?s] =>
      rewrite (bind_ok _ _ _ _ _ (parse_rs_rs_imm_ok _ _ _ _ s _))
  end;
  cbv beta iota; rewrite ?Z.geb_leb;
  match goal with
  | |- context [if ?c then _ else _] => destruct c
  end;
  cbv beta iota; rewrite ?pc_iadd_ok, ?ret_ok; reflexivity.

(** C8: a branch on the registers [r1] and [r2] with immediate [dst]
    completes and changes nothing but the program counter; when its
    condition holds ([bltu] and [bgeu] comparing unsigned, the others
    signed) the program counter moves by [dst - 4], and for [blt] by
    [dst]; when it does not hold the program counter stays. *)
Theorem branch_pc (mnemonic : string) (handler : Instruction.t -> M PrivCPU.t unit)
    (r1 r2 : string) (dst : Z) (cpu : PrivCPU.t) :
  PrivRV32I.branch_handler mnemonic = Some handler ->
  let a := PrivRV32I.reg_value cpu r1 in
  let b := PrivRV32I.reg_value cpu r2 in
  handler (Instruction.mk mnemonic [Reg r1; Reg r2; Imm dst]) cpu
  = (Ok tt,
     PrivCPU.mk
       (if PrivRV32I.spec_taken mnemonic a b
        then PrivCPU.pc cpu + PrivRV32I.spec_adjust mnemonic dst
        else PrivCPU.pc cpu)
       (PrivCPU.mode cpu) (PrivCPU.csr cpu) (PrivCPU.regs cpu) (PrivCPU.out cpu)).
Proof.
  intros Hh a b. unfold PrivRV32I.branch_handler in Hh.
  repeat case_bool_decide; try discriminate Hh; injection Hh as <-; subst mnemonic.
  - change (PrivRV32I.spec_taken "beq" a b) with (to_signed a =? to_signed b).
    change (PrivRV32I.spec_adjust "beq" dst) with (dst - 4).
    subst a b. unfold PrivRV32I.instruction_beq. branch_case.
  - change (PrivRV32I.spec_taken "bne" a b) with (negb (to_signed a =? to_signed b)).
    change (PrivRV32I.spec_adjust "bne" dst) with (dst - 4).
    subst a b. unfold PrivRV32I.instruction_bne. branch_case.
  - change (PrivRV32I.spec_taken "blt" a b) with (to_signed a <? to_signed b).
    change (PrivRV32I.spec_adjust "blt" dst) with dst.
    subst a b. unfold PrivRV32I.instruction_blt. branch_case.
  - change (PrivRV32I.spec_taken "bge" a b) with (to_signed b <=? to_signed a).
    change (PrivRV32I.spec_adjust "bge" dst) with (dst - 4).
    subst a b. unfold PrivRV32I.instruction_bge. branch_case.
  - change (PrivRV32I.spec_taken "bltu" a b) with (to_unsigned a <? to_unsigned b).
    change (PrivRV32I.spec_adjust "bltu" dst) with (dst - 4).
    subst a b. unfold PrivRV32I.instruction_bltu. branch_case.
  - change (PrivRV32I.spec_taken "bgeu" a b) with (to_unsigned b <=? to_unsigned a).
    change (PrivRV32I.spec_adjust "bgeu" dst) with (dst - 4).
    subst a b. unfold PrivRV32I.instruction_bgeu. branch_case.
Qed.

Lemma branch_pc_witness :
  PrivRV32I.spec_taken "bltu" 7 (-1) = true /\
  PrivRV32I.spec_taken "blt" 7 (-1) = false /\
  PrivRV32I.instruction_bltu Ex.bltu_a0_a2 (Ex.cpu_in MACHINE)
  = (Ok tt,
     PrivCPU.mk 0x13c MACHINE (PrivCPU.csr (Ex.cpu_in MACHINE))
       (PrivCPU.regs (Ex.cpu_in MACHINE)) []).
Proof.
  split; [reflexivity|]. split; [reflexivity|].
  exact (branch_pc "bltu" PrivRV32I.instruction_bltu "a0" "a2" 0x40
           (Ex.cpu_in MACHINE) eq_refl).
Defined.

(** the two adjustments side by side: with the same immediate a taken
    [blt] lands four bytes behind a taken [bge] *)
Lemma blt_lands_four_bytes_further (dst : Z) :
  PrivRV32I.spec_adjust "blt" dst = PrivRV32I.spec_adjust "bge" dst + 4.
Proof. unfold PrivRV32I.spec_adjust. simpl. lia. Qed.


(** * Further properties *)

(** ** CSR: registers by address *)

Lemma get_addr_run (a : Z) (c : CSR.t) (out : list event) :
  CSR.get (Addr a) (c, out)
  = (Ok (CSR.value c a),
     ({| CSR.regs := <[a := CSR.value c a]> (CSR.regs c);
         CSR.listeners := CSR.listeners c |}, out)).
Proof.
  unfold CSR.get, CSR.resolve, bind, ret, CSR.regs_getitem, CSR.value.
  destruct c as [regs listeners]. simpl.
  destruct (regs !! a) as [v|] eqn:E; simpl; [|reflexivity].
  now rewrite insert_id.
Qed.

Lemma set_addr_run (a v : Z) (c : CSR.t) (out : list event) :
  CSR.set (Addr a) v (c, out)
  = (Ok tt,
     ({| CSR.regs := <[a := v]> (CSR.regs c);
         CSR.listeners := <[a := CSR.listener_at c a]> (CSR.listeners c) |},
      out ++ CSR.calls (CSR.listener_at c a) (CSR.value c a) v)).
Proof.
  unfold CSR.set, CSR.resolve, bind, ret, CSR.listeners_getitem, CSR.regs_getitem,
    CSR.call, CSR.regs_setitem, CSR.value, CSR.listener_at, CSR.calls.
  destruct c as [regs listeners]. simpl.
  destruct (listeners !! a) as [[|id]|] eqn:El; simpl;
    destruct (regs !! a) as [x|] eqn:Er; simpl;
    rewrite ?app_nil_r, ?insert_insert_eq;
    try (rewrite (insert_id listeners) by exact El); reflexivity.
Qed.

Lemma value_insert (a b v : Z) (regs : gmap Z Z) (ls : gmap Z listener) :
  CSR.value {| CSR.regs := <[a := v]> regs; CSR.listeners := ls |} b
  = if decide (a = b) then v else CSR.value {| CSR.regs := regs; CSR.listeners := ls |} b.
Proof.
  unfold CSR.value. simpl. rewrite lookup_insert. now case_decide.
Qed.

(** X1: a [set] at an integer address always completes; the value then
    read at that address is the value written, and the value read at any
    other address, and the listener of every address, are as before. *)
Theorem set_then_get (a b v : Z) (c : CSR.t) (out : list event) :
  exists c' out',
    CSR.set (Addr a) v (c, out) = (Ok tt, (c', out')) /\
    CSR.get (Addr a) (c', out') = (Ok v, (c', out')) /\
    (b <> a -> (CSR.get (Addr b) (c', out')).1 = (CSR.get (Addr b) (c, out)).1) /\
    (forall x, CSR.listener_at c' x = CSR.listener_at c x).
Proof.
  eexists _, _. split; [apply set_addr_run|]. split; [|split].
  - rewrite get_addr_run. unfold CSR.value. simpl.
    rewrite lookup_insert_eq. simpl. now rewrite insert_insert_eq.
  - intros Hne. rewrite !get_addr_run. simpl. f_equal.
    destruct c as [regs ls]. rewrite value_insert.
    case_decide; [congruence|reflexivity].
  - intros x. unfold CSR.listener_at at 1. simpl.
    destruct (decide (a = x)) as [->|Hne].
    + now rewrite lookup_insert_eq.
    + now rewrite lookup_insert_ne.
Qed.

(** X2: reading a register returns the stored value, or 0 when nothing
    was stored; it prints nothing and calls no listener; it leaves every
    value as it was, but it records the address read as a key of [regs]. *)
Theorem get_records_the_key (a : Z) (c : CSR.t) (out : list event) :
  exists c',
    CSR.get (Addr a) (c, out)
    = (Ok (default 0 (CSR.regs c !! a)), (c', out)) /\
    a ∈ dom (CSR.regs c') /\
    (forall b, CSR.value c' b = CSR.value c b) /\
    (forall b, b <> a -> CSR.regs c' !! b = CSR.regs c !! b) /\
    CSR.listeners c' = CSR.listeners c.
Proof.
  eexists. split; [apply get_addr_run|]. simpl. split; [|split; [|split]].
  - apply elem_of_dom. rewrite lookup_insert_eq. eauto.
  - intros b. destruct c as [regs ls]. rewrite value_insert.
    case_decide; [subst|]; reflexivity.
  - intros b Hne. now rewrite lookup_insert_ne.
  - reflexivity.
Qed.

(** X3: once a listener is installed at an address, by [set_listener]
    or by the decorator [callback], replacing whatever was there, a [set]
    at that address calls it exactly once, with the value held before the
    write and the value written, and the register then holds the value
    written; installing the listener changes no value. *)
Theorem listener_sees_old_and_new (a v : Z) (id : nat) (c : CSR.t) (out : list event) :
  exists c1 c2,
    CSR.set_listener (Addr a) (Callback id) (c, out) = (Ok tt, (c1, out)) /\
    CSR.callback (Addr a) (Callback id) (c, out) = (Ok (Callback id), (c1, out)) /\
    CSR.listener_at c1 a = Callback id /\
    (forall b, CSR.value c1 b = CSR.value c b) /\
    CSR.set (Addr a) v (c1, out)
    = (Ok tt, (c2, out ++ [Called id (CSR.value c a) v])) /\
    CSR.value c2 a = v.
Proof.
  eexists _, _. split; [reflexivity|]. split; [reflexivity|].
  split; [|split; [|split]].
  - unfold CSR.listener_at. simpl. now rewrite lookup_insert_eq.
  - reflexivity.
  - rewrite set_addr_run. unfold CSR.listener_at at 2. simpl.
    rewrite lookup_insert_eq. reflexivity.
  - unfold CSR.value at 1. simpl. now rewrite lookup_insert_eq.
Qed.

(** distinct known names have distinct addresses *)
Lemma name_to_addr_inj (s s' : string) (a : Z) :
  CSR.name_to_addr !! s = Some a -> CSR.name_to_addr !! s' = Some a -> s = s'.
Proof.
  intros H H'.
  apply elem_of_list_to_map_2 in H. apply elem_of_list_to_map_2 in H'.
  repeat (apply elem_of_cons in H as [H|H];
          [inversion H; subst; clear H;
           repeat (apply elem_of_cons in H' as [H'|H'];
                   [inversion H'; reflexivity|]);
           inversion H'|]).
  inversion H.
Qed.

Lemma resolve_known (s : string) (a : Z) (st : CSR.state) :
  CSR.name_to_addr !! s = Some a -> CSR.resolve (Name s) st = (Ok a, st).
Proof.
  intros H. unfold CSR.resolve, dict_getitem. rewrite H.
  rewrite bool_decide_eq_true_2 by eauto. reflexivity.
Qed.

(** X4: a known name is an alias of its address: [get], [set] and
    [set_listener] by the name do what they do by the address and print
    no diagnostic; and no two known names share an address, so a write
    through one name never changes what is read through another. *)
Theorem known_name_is_its_address (s : string) (a : Z) :
  CSR.name_to_addr !! s = Some a ->
  (forall st, CSR.get (Name s) st = CSR.get (Addr a) st) /\
  (forall v st, CSR.set (Name s) v st = CSR.set (Addr a) v st) /\
  (forall l st, CSR.set_listener (Name s) l st = CSR.set_listener (Addr a) l st) /\
  (forall s' v c out,
     is_Some (CSR.name_to_addr !! s') -> s' <> s ->
     exists c' out',
       CSR.set (Name s') v (c, out) = (Ok tt, (c', out')) /\
       (CSR.get (Name s) (c', out')).1 = (CSR.get (Name s) (c, out)).1).
Proof.
  intros H.
  assert (Hget : forall st, CSR.get (Name s) st = CSR.get (Addr a) st).
  { intros st. unfold CSR.get.
    now rewrite (bind_ok _ _ _ _ _ (resolve_known s a st H)). }
  split; [exact Hget|]. split; [|split].
  - intros v st. unfold CSR.set.
    now rewrite (bind_ok _ _ _ _ _ (resolve_known s a st H)).
  - intros l st. unfold CSR.set_listener.
    now rewrite (bind_ok _ _ _ _ _ (resolve_known s a st H)).
  - intros s' v c out [a' H'] Hne.
    assert (Ha : a <> a') by (intros ->; apply Hne; eapply name_to_addr_inj; eauto).
    eexists _, _. split.
    + unfold CSR.set at 1.
      rewrite (bind_ok _ _ _ _ _ (resolve_known s' a' _ H')).
      apply (set_addr_run a' v c out).
    + rewrite !Hget, !get_addr_run. simpl. f_equal.
      destruct c as [regs ls]. rewrite value_insert.
    case_decide; [congruence|reflexivity].
Qed.

Lemma known_name_is_its_address_witness :
  (forall st, CSR.get (Name "mepc") st = CSR.get (Addr 0x341) st) /\
  (forall v st, CSR.set (Name "mepc") v st = CSR.set (Addr 0x341) v st) /\
  (forall l st,
     CSR.set_listener (Name "mepc") l st = CSR.set_listener (Addr 0x341) l st) /\
  (forall s' v c out,
     is_Some (CSR.name_to_addr !! s') -> s' <> "mepc"%string ->
     exists c' out',
       CSR.set (Name s') v (c, out) = (Ok tt, (c', out')) /\
       (CSR.get (Name "mepc") (c', out')).1 = (CSR.get (Name "mepc") (c, out)).1).
Proof.
  apply (known_name_is_its_address "mepc" 0x341). reflexivity.
Defined.

(** ** CSR: the fields of mstatus, continued *)

Lemma get_mstatus_run (f : string) (off : Z) (c : CSR.t) (out : list event) :
  MSTATUS_OFFSETS !! f = Some off ->
  CSR.get_mstatus f (c, out)
  = (Ok (Z.shiftr (Z.land (CSR.mstatus c) (CSR.field_mask f off)) off),
     ({| CSR.regs := <[0x300 := CSR.mstatus c]> (CSR.regs c);
         CSR.listeners := CSR.listeners c |}, out)).
Proof.
  intros Hoff. unfold CSR.get_mstatus.
  assert (Hd : @dict_getitem CSR.state Z MSTATUS_OFFSETS f (c, out)
               = (Ok off, (c, out)))
    by (unfold dict_getitem; now rewrite Hoff).
  rewrite (bind_ok _ _ _ _ _ Hd).
  assert (Hg : CSR.get (Name "mstatus") (c, out) = CSR.get (Addr 0x300) (c, out)).
  { unfold CSR.get.
    now rewrite (bind_ok _ _ _ _ _ (resolve_known "mstatus" 0x300 _ eq_refl)). }
  rewrite (bind_ok _ _ _ _ _ (eq_trans Hg (get_addr_run 0x300 c out))).
  reflexivity.
Qed.

Lemma set_mstatus_run (f : string) (off v : Z) (c : CSR.t) (out : list event) :
  MSTATUS_OFFSETS !! f = Some off ->
  let new_val :=
    Z.lor (Z.land (CSR.mstatus c) (Z.lnot (CSR.field_mask f off))) (Z.shiftl v off) in
  CSR.set_mstatus f v (c, out)
  = (Ok tt,
     ({| CSR.regs := <[0x300 := new_val]> (CSR.regs c);
         CSR.listeners := <[0x300 := CSR.listener_at c 0x300]> (CSR.listeners c) |},
      out ++ CSR.calls (CSR.listener_at c 0x300) (CSR.mstatus c) new_val)).
Proof.
  intros Hoff new_val. unfold CSR.set_mstatus.
  assert (Hd : @dict_getitem CSR.state Z MSTATUS_OFFSETS f (c, out)
               = (Ok off, (c, out)))
    by (unfold dict_getitem; now rewrite Hoff).
  rewrite (bind_ok _ _ _ _ _ Hd).
  assert (Hg : CSR.get (Name "mstatus") (c, out) = CSR.get (Addr 0x300) (c, out)).
  { unfold CSR.get.
    now rewrite (bind_ok _ _ _ _ _ (resolve_known "mstatus" 0x300 _ eq_refl)). }
  rewrite (bind_ok _ _ _ _ _ (eq_trans Hg (get_addr_run 0x300 c out))).
  cbv zeta. fold new_val.
  assert (Hs : forall st, CSR.set (Name "mstatus") new_val st
                          = CSR.set (Addr 0x300) new_val st).
  { intros st. unfold CSR.set.
    now rewrite (bind_ok _ _ _ _ _ (resolve_known "mstatus" 0x300 _ eq_refl)). }
  rewrite Hs, set_addr_run. unfold CSR.listener_at, CSR.value, CSR.mstatus. simpl.
  now rewrite lookup_insert_eq, insert_insert_eq.
Qed.

(** the field extracted by mask and shift, as a quotient and a remainder *)
Lemma field_extract_div_mod (f : string) (off x : Z) :
  0 <= off ->
  Z.shiftr (Z.land x (CSR.field_mask f off)) off
  = (x / 2 ^ off) mod 2 ^ CSR.field_size f.
Proof.
  intros Hoff.
  assert (Hw : 0 < CSR.field_size f) by (destruct (field_size_cases f); lia).
  rewrite <- Z.shiftr_div_pow2 by lia.
  apply Z.bits_inj'. intros n Hn.
  rewrite Z.shiftr_spec, Z.land_spec, testbit_field_mask by lia.
  destruct (Z.leb_spec off (n + off)); [|lia]. simpl.
  destruct (Z.ltb_spec (n + off) (off + CSR.field_size f)).
  - rewrite andb_true_r, Z.mod_pow2_bits_low by lia.
    now rewrite Z.shiftr_spec by lia.
  - rewrite andb_false_r, Z.mod_pow2_bits_high by lia. reflexivity.
Qed.

(** X5: for a defined field at offset [off] of width [w], [get_mstatus]
    returns [(mstatus / 2^off) mod 2^w], a value from 0 to [2^w - 1],
    whatever the register holds, a negative value included, and leaves
    the value of mstatus as it was. *)
Theorem get_mstatus_is_div_mod (f : string) (off : Z) (c : CSR.t) (out : list event) :
  MSTATUS_OFFSETS !! f = Some off ->
  let w := CSR.field_size f in
  exists c',
    CSR.get_mstatus f (c, out)
    = (Ok ((CSR.mstatus c / 2 ^ off) mod 2 ^ w), (c', out)) /\
    0 <= (CSR.mstatus c / 2 ^ off) mod 2 ^ w < 2 ^ w /\
    CSR.mstatus c' = CSR.mstatus c.
Proof.
  intros Hoff w. pose proof (offsets_bounds _ _ Hoff) as Hb.
  eexists. split; [|split].
  - rewrite (get_mstatus_run f off c out Hoff).
    now rewrite field_extract_div_mod by lia.
  - apply Z.mod_pos_bound. apply Z.pow_pos_nonneg; [lia|].
    destruct (field_size_cases f); unfold w; lia.
  - unfold CSR.mstatus at 1. simpl. now rewrite lookup_insert_eq.
Qed.

Lemma get_mstatus_is_div_mod_witness :
  exists c',
    CSR.get_mstatus "mpp" ({| CSR.regs := {[ 0x300 := -1 ]}; CSR.listeners := ∅ |}, [])
    = (Ok ((-1 / 2 ^ 11) mod 2 ^ 2), (c', [])) /\
    0 <= (-1 / 2 ^ 11) mod 2 ^ 2 < 2 ^ 2 /\
    CSR.mstatus c' = -1.
Proof.
  exact (get_mstatus_is_div_mod "mpp" 11
           {| CSR.regs := {[ 0x300 := -1 ]}; CSR.listeners := ∅ |} [] eq_refl).
Defined.

(** the bit ranges of two different fields do not meet *)
Lemma fields_disjoint (f g : string) (off_f off_g : Z) :
  MSTATUS_OFFSETS !! f = Some off_f -> MSTATUS_OFFSETS !! g = Some off_g ->
  f <> g ->
  off_f + CSR.field_size f <= off_g \/ off_g + CSR.field_size g <= off_f.
Proof.
  intros Hf Hg Hne.
  apply elem_of_list_to_map_2 in Hf. apply elem_of_list_to_map_2 in Hg.
  repeat (apply elem_of_cons in Hf as [Hf|Hf];
          [inversion Hf; subst; clear Hf;
           repeat (apply elem_of_cons in Hg as [Hg|Hg];
                   [inversion Hg; subst; clear Hg;
                    first [congruence | vm_compute; intuition discriminate]|]);
           inversion Hg|]).
  inversion Hf.
Qed.

(** the bits of another field in the value [set_mstatus] stores *)
Lemma other_field_kept (f g : string) (off_f off_g v m : Z) :
  MSTATUS_OFFSETS !! f = Some off_f -> MSTATUS_OFFSETS !! g = Some off_g ->
  f <> g -> 0 <= v < 2 ^ CSR.field_size f ->
  Z.land (Z.lor (Z.land m (Z.lnot (CSR.field_mask f off_f))) (Z.shiftl v off_f))
    (CSR.field_mask g off_g)
  = Z.land m (CSR.field_mask g off_g).
Proof.
  intros Hf Hg Hne Hv.
  pose proof (offsets_bounds _ _ Hf) as Hbf. pose proof (offsets_bounds _ _ Hg) as Hbg.
  pose proof (fields_disjoint f g off_f off_g Hf Hg Hne) as Hdis.
  apply Z.bits_inj'. intros n Hn.
  rewrite !Z.land_spec, testbit_new_val, !testbit_field_mask by lia.
  destruct (Z.leb_spec off_g n); simpl; [|now rewrite !andb_false_r].
  destruct (Z.ltb_spec n (off_g + CSR.field_size g)); simpl;
    [|now rewrite !andb_false_r].
  rewrite !andb_true_r.
  destruct (Z.leb_spec off_f n); simpl.
  - destruct (Z.ltb_spec n (off_f + CSR.field_size f)); [lia|].
    rewrite Z.shiftl_spec by lia.
    rewrite (testbit_small v (CSR.field_size f)) by lia. apply orb_false_r.
  - rewrite Z.shiftl_spec by lia.
    rewrite (Z.testbit_neg_r v) by lia. apply orb_false_r.
Qed.

(** X6: writing a value that has the field's width to one field of
    mstatus leaves what [get_mstatus] returns for every other defined
    field as it was. *)
Theorem set_mstatus_keeps_other_fields (f g : string) (off_f off_g v : Z)
    (c : CSR.t) (out : list event) :
  MSTATUS_OFFSETS !! f = Some off_f -> MSTATUS_OFFSETS !! g = Some off_g ->
  f <> g -> 0 <= v < 2 ^ CSR.field_size f ->
  exists c' out',
    CSR.set_mstatus f v (c, out) = (Ok tt, (c', out')) /\
    (CSR.get_mstatus g (c', out')).1 = (CSR.get_mstatus g (c, out)).1.
Proof.
  intros Hf Hg Hne Hv.
  eexists _, _. split; [apply (set_mstatus_run f off_f v c out Hf)|].
  rewrite !(get_mstatus_run g off_g _ _ Hg). simpl. f_equal. f_equal.
  unfold CSR.mstatus at 1. simpl. rewrite lookup_insert_eq. simpl.
  now apply other_field_kept.
Qed.

Lemma set_mstatus_keeps_other_fields_witness :
  exists c' out',
    CSR.set_mstatus "mpp" 3 (CSR.init, []) = (Ok tt, (c', out')) /\
    (CSR.get_mstatus "fs" (c', out')).1 = (CSR.get_mstatus "fs" (CSR.init, [])).1.
Proof.
  apply (set_mstatus_keeps_other_fields "mpp" "fs" 11 13 3 CSR.init []);
    [reflexivity|reflexivity|discriminate|vm_compute; split; [discriminate|reflexivity]].
Defined.

(** X7: [set_mstatus] on a defined field calls the listener of mstatus
    exactly once, with the value of the register before and after the
    write, also when the two are equal; with no listener installed it
    shows nothing. *)
Theorem set_mstatus_notifies (f : string) (off v : Z) (c : CSR.t) (out : list event) :
  MSTATUS_OFFSETS !! f = Some off ->
  exists c',
    CSR.set_mstatus f v (c, out)
    = (Ok tt,
       (c', out ++ CSR.calls (CSR.listener_at c 0x300) (CSR.mstatus c) (CSR.mstatus c')))
    /\ CSR.listener_at c' 0x300 = CSR.listener_at c 0x300.
Proof.
  intros Hoff. rewrite (set_mstatus_run f off v c out Hoff). cbv zeta.
  set (new_val := Z.lor (Z.land (CSR.mstatus c) (Z.lnot (CSR.field_mask f off)))
                    (Z.shiftl v off)).
  set (c' := {| CSR.regs := <[0x300 := new_val]> (CSR.regs c);
                CSR.listeners :=
                  <[0x300 := CSR.listener_at c 0x300]> (CSR.listeners c) |}).
  assert (Hm : CSR.mstatus c' = new_val)
    by (unfold CSR.mstatus; simpl; now rewrite lookup_insert_eq).
  exists c'. rewrite Hm. split; [reflexivity|].
  unfold CSR.listener_at at 1. simpl. now rewrite lookup_insert_eq.
Qed.

Lemma set_mstatus_notifies_witness :
  let c := {| CSR.regs := {[ 0x300 := 8 ]}; CSR.listeners := {[ 0x300 := Callback 4 ]} |} in
  exists c',
    CSR.set_mstatus "mie" 1 (c, [])
    = (Ok tt, (c', [] ++ CSR.calls (CSR.listener_at c 0x300) (CSR.mstatus c) (CSR.mstatus c')))
    /\ CSR.listener_at c' 0x300 = CSR.listener_at c 0x300.
Proof.
  exact (set_mstatus_notifies "mie" 3 1
           {| CSR.regs := {[ 0x300 := 8 ]}; CSR.listeners := {[ 0x300 := Callback 4 ]} |}
           [] eq_refl).
Defined.

(** X8: a field name that is not defined stops [set_mstatus] and
    [get_mstatus] with KeyError at the table lookup, before mstatus is
    read: no register is recorded, no listener is called, nothing is
    printed. *)
Theorem undefined_field_raises (f : string) (v : Z) (st : CSR.state) :
  MSTATUS_OFFSETS !! f = None ->
  CSR.set_mstatus f v st = (Raise (KeyError f), st) /\
  CSR.get_mstatus f st = (Raise (KeyError f), st).
Proof.
  intros H. unfold CSR.set_mstatus, CSR.get_mstatus.
  split; apply bind_raise; unfold dict_getitem; now rewrite H.
Qed.

Lemma undefined_field_raises_witness :
  CSR.set_mstatus "mbe" 1 (CSR.init, []) = (Raise (KeyError "mbe"), (CSR.init, [])) /\
  CSR.get_mstatus "mbe" (CSR.init, []) = (Raise (KeyError "mbe"), (CSR.init, [])).
Proof.
  apply (undefined_field_raises "mbe" 1 (CSR.init, [])). reflexivity.
Defined.


(** ** Sections: size under [add] and [add_insn] *)

Lemma chunks_len_app (h : heap) (xs ys : list ref) :
  MemorySection.chunks_len h (xs ++ ys)
  = MemorySection.chunks_len h xs + MemorySection.chunks_len h ys.
Proof. induction xs as [|x xs IH]; simpl; lia. Qed.

(** X9: any sequence of [add] calls completes without touching the
    store, appends the chunks in order, keeps name and flags, and raises
    [size] by the sum of the lengths of the chunks added (a bytearray
    added twice counts twice); so on a section that starts empty [size] is
    the sum of the chunk lengths. *)
Theorem add_all_size (h : heap) (datas : list ref) (self : MemorySection.t) :
  exists self',
    MemorySection.add_all self datas h = (Ok self', h) /\
    MemorySection.content self' = MemorySection.content self ++ datas /\
    MemorySection.size self'
    = MemorySection.size self + MemorySection.chunks_len h datas /\
    MemorySection.name self' = MemorySection.name self /\
    MemorySection.flags self' = MemorySection.flags self /\
    (MemorySection.size_ok h self -> MemorySection.size_ok h self').
Proof.
  revert self. induction datas as [|d ds IH]; intros self.
  - exists self. simpl. rewrite app_nil_r. repeat split; try lia. auto.
  - simpl. unfold bind. simpl.
    destruct (IH {| MemorySection.name := MemorySection.name self;
                    MemorySection.flags := MemorySection.flags self;
                    MemorySection.size :=
                      MemorySection.size self + py_len (deref h d);
                    MemorySection.content := MemorySection.content self ++ [d] |})
      as (self' & Hrun & Hc & Hs & Hn & Hf & _).
    exists self'. simpl in Hc, Hs, Hn, Hf.
    split; [exact Hrun|]. split; [now rewrite Hc, <- app_assoc|].
    split; [rewrite Hs; lia|]. split; [exact Hn|]. split; [exact Hf|].
    unfold MemorySection.size_ok. intros Hok.
    rewrite Hs, Hc, Hok, !chunks_len_app. simpl. lia.
Qed.

(** X10: any sequence of [add_insn] calls appends the tokens in order
    and raises [size] by their number: in an instruction section [size]
    counts instructions, not bytes. *)
Theorem add_insn_size (toks : list RiscVInstructionToken.t)
    (self : InstructionMemorySection.t) :
  let self' := foldl InstructionMemorySection.add_insn self toks in
  InstructionMemorySection.content self'
  = InstructionMemorySection.content self ++ toks /\
  InstructionMemorySection.size self'
  = InstructionMemorySection.size self + Z.of_nat (length toks) /\
  InstructionMemorySection.name self' = InstructionMemorySection.name self /\
  InstructionMemorySection.flags self' = InstructionMemorySection.flags self.
Proof.
  revert self. induction toks as [|t ts IH]; intros self; simpl.
  - rewrite app_nil_r. repeat split; lia.
  - destruct (IH (InstructionMemorySection.add_insn self t)) as (Hc & Hs & Hn & Hf).
    simpl in *. rewrite Hc, Hs, Hn, Hf, <- app_assoc. simpl. repeat split; lia.
Qed.

(** ** Sections: [continuous_content] without growth *)

(** X11: on a section with no bytes ([size = 0], whether it holds no
    chunk or only empty ones) [continuous_content] returns a new empty
    buffer that is none of the chunks and leaves every object as it was;
    on a section of exactly one non-empty chunk it returns that chunk
    itself and changes nothing, so calling it again gives the same
    buffer with the same bytes. *)
Theorem continuous_content_without_growth (parent : string) (h : heap)
    (self : MemorySection.t) :
  (MemorySection.size self = 0 ->
   Forall (fun r => (r < length h)%nat) (MemorySection.content self) ->
   exists r h',
     MemorySection.continuous_content self parent h = (Ok r, h') /\
     h' !! r = Some (Bytearray []) /\
     (r ∉ MemorySection.content self) /\
     (forall r', (r' < length h)%nat -> h' !! r' = h !! r')) /\
  (forall c,
     MemorySection.size self <> 0 -> MemorySection.content self = [c] ->
     MemorySection.continuous_content self parent h = (Ok c, h)).
Proof.
  split.
  - intros Hz Hlive. unfold MemorySection.continuous_content. rewrite Hz. simpl.
    exists (length h), (h ++ [Bytearray []]). split; [reflexivity|].
    split; [|split].
    + rewrite lookup_app_r by lia. now rewrite Nat.sub_diag.
    + intros Hin. rewrite Forall_forall in Hlive. specialize (Hlive _ Hin). lia.
    + intros r' Hr'. now rewrite lookup_app_l.
  - intros c Hnz Hc. unfold MemorySection.continuous_content.
    destruct (Z.eqb_spec (MemorySection.size self) 0); [contradiction|].
    now rewrite Hc.
Qed.

Lemma continuous_content_without_growth_witness :
  (exists r h',
     MemorySection.continuous_content
       (MemorySection.mk ".bss" Ex.rw 0 [1%nat]) "prog" Ex.store_empty_tail
     = (Ok r, h') /\
     h' !! r = Some (Bytearray []) /\
     (r ∉ [1%nat]) /\
     (forall r', (r' < 2)%nat -> h' !! r' = Ex.store_empty_tail !! r')) /\
  MemorySection.continuous_content
    (MemorySection.mk ".data" Ex.rw 2 [0%nat]) "prog" Ex.store_empty_tail
  = (Ok 0%nat, Ex.store_empty_tail).
Proof.
  split.
  - destruct (continuous_content_without_growth "prog" Ex.store_empty_tail
                (MemorySection.mk ".bss" Ex.rw 0 [1%nat])) as [H _].
    apply H; [reflexivity|]. repeat constructor.
  - destruct (continuous_content_without_growth "prog" Ex.store_empty_tail
                (MemorySection.mk ".data" Ex.rw 2 [0%nat])) as [_ H].
    apply H; [discriminate|reflexivity].
Defined.

(** ** Loaded sections: instruction fetch *)

Lemma py_getitem_in_range {A : Type} (l : list A) (i : Z) :
  0 <= i < Z.of_nat (length l) ->
  exists x, l !! Z.to_nat i = Some x /\ py_getitem l i = Ok x.
Proof.
  intros Hi. destruct (lookup_lt_is_Some_2 l (Z.to_nat i)) as [x Hx]; [lia|].
  exists x. split; [exact Hx|].
  rewrite <- (py_getitem_nat l (Z.to_nat i) x Hx). f_equal. lia.
Qed.

(** X12: [read_instruction] on a section that is not executable raises
    the access fault whatever the offset; on an executable section it
    raises the access fault when [offset < 0] or [offset >= N] and
    otherwise, the content being a list of [N] entries, returns the entry
    at [offset]; unlike [read], the last slot [N - 1] is served.  The
    store is never changed. *)
Theorem read_instruction_bounds (self : LoadedMemorySection.t) (h : heap) (offset : Z) :
  let N := LoadedMemorySection.size self in
  let x := executable (LoadedMemorySection.flags self) in
  let fault msg :=
    MemoryAccessException msg (LoadedMemorySection.base self + offset) 1 "read exec" in
  (x = false ->
   LoadedMemorySection.read_instruction self offset h
   = (Raise (fault "Section not executable!"), h)) /\
  (x = true -> ~ (0 <= offset < N) ->
   exists msg,
     LoadedMemorySection.read_instruction self offset h = (Raise (fault msg), h)) /\
  (forall xs,
     x = true -> 0 <= offset < N ->
     h !! LoadedMemorySection.content self = Some (PyList xs) ->
     Z.of_nat (length xs) = N ->
     exists v,
       xs !! Z.to_nat offset = Some v /\
       LoadedMemorySection.read_instruction self offset h = (Ok v, h)).
Proof.
  intros N x fault. unfold LoadedMemorySection.read_instruction. fold x N.
  split; [|split].
  - intros ->. reflexivity.
  - intros -> Hn. simpl.
    destruct (Z.ltb_spec offset 0); [eexists; reflexivity|].
    destruct (Z.geb_spec offset N); [eexists; reflexivity|lia].
  - intros xs -> Hin Hxs Hlen. simpl.
    destruct (Z.ltb_spec offset 0); [lia|].
    destruct (Z.geb_spec offset N); [lia|].
    rewrite (deref_lookup _ _ _ Hxs).
    destruct (py_getitem_in_range xs offset) as (v & Hv & Hget); [lia|].
    exists v. now rewrite Hget.
Qed.


(** X13: tokens added one by one to an empty executable instruction
    section, made continuous and wrapped as a loaded section of the
    section's size, are fetched back by index: [read_instruction(i)]
    returns the instruction and arguments of the [i]-th token, bound to
    the executable it was loaded for, for every [i] below the number of
    tokens, and raises the access fault at the number of tokens itself. *)
Theorem fetch_after_load (toks : list RiscVInstructionToken.t)
    (name parent : string) (read_only : bool) (base : Z) (h : heap) :
  let flags := {| read_only := read_only; executable := true |} in
  let sec := foldl InstructionMemorySection.add_insn
               (InstructionMemorySection.mk name flags 0 []) toks in
  exists r h',
    InstructionMemorySection.continuous_content sec parent h = (Ok r, h') /\
    let loaded :=
      LoadedMemorySection.mk name base (InstructionMemorySection.size sec) r
        flags parent in
    (forall (i : nat) tok,
       toks !! i = Some tok ->
       LoadedMemorySection.read_instruction loaded (Z.of_nat i) h'
       = (Ok (VInsn (LoadedInstruction.mk
                       (RiscVInstructionToken.instruction tok)
                       (RiscVInstructionToken.args tok) parent)), h')) /\
    (exists msg,
       LoadedMemorySection.read_instruction loaded (Z.of_nat (length toks)) h'
       = (Raise (MemoryAccessException msg (base + Z.of_nat (length toks)) 1
                   "read exec"), h')).
Proof.
  intros flags sec.
  destruct (add_insn_size toks (InstructionMemorySection.mk name flags 0 []))
    as (Hc & Hs & _ & _). fold sec in Hc, Hs. simpl in Hc, Hs.
  rewrite Z.add_0_l in Hs.
  unfold InstructionMemorySection.continuous_content. rewrite Hc.
  eexists _, _. split; [reflexivity|]. cbv zeta. rewrite Hs. split.
  - intros i tok Hi. pose proof (lookup_lt_Some _ _ _ Hi) as Hlt.
    unfold LoadedMemorySection.read_instruction. simpl.
    destruct (Z.ltb_spec (Z.of_nat i) 0); [lia|].
    destruct (Z.geb_spec (Z.of_nat i) (Z.of_nat (length toks))); [lia|].
    cbv beta. erewrite deref_lookup
      by (rewrite lookup_app_r by lia; now rewrite Nat.sub_diag).
    cbv iota. erewrite py_getitem_nat; [reflexivity|].
    rewrite list_lookup_fmap, Hi. reflexivity.
  - unfold LoadedMemorySection.read_instruction. simpl.
    destruct (Z.ltb_spec (Z.of_nat (length toks)) 0); [lia|].
    destruct (Z.geb_spec (Z.of_nat (length toks)) (Z.of_nat (length toks))); [|lia].
    eexists. reflexivity.
Qed.

(** ** Loaded sections: what is written is what is read *)

Lemma write_run (self : LoadedMemorySection.t) (h : heap) (offset size_ : Z)
    (data bs : list Byte.byte) :
  read_only (LoadedMemorySection.flags self) = false ->
  0 <= offset < LoadedMemorySection.size self ->
  h !! LoadedMemorySection.content self = Some (Bytearray bs) ->
  (Z.to_nat offset + Z.to_nat size_ <= length bs)%nat ->
  (Z.to_nat size_ <= length data)%nat ->
  LoadedMemorySection.write self offset size_ data h
  = (Ok tt,
     <[LoadedMemorySection.content self :=
         Bytearray (take (Z.to_nat offset) bs
                    ++ take (Z.to_nat size_) data
                    ++ drop (Z.to_nat offset + Z.to_nat size_) bs)]> h).
Proof.
  intros Hro [Ho HN] Hbs Hroom Hdata. unfold LoadedMemorySection.write.
  rewrite Hro.
  destruct (Z.ltb_spec offset 0); [lia|].
  destruct (Z.geb_spec offset (LoadedMemorySection.size self)); [lia|].
  unfold range.
  rewrite (write_loop _ data offset (Z.to_nat offset) ltac:(lia)
             (Z.to_nat size_) 0 h bs Hbs) by lia.
  now rewrite !Nat.add_0_r, drop_0.
Qed.

(** a buffer with [n] bytes replaced at [o] is the old buffer elsewhere *)
Lemma patched_lookup (bs data : list Byte.byte) (o n i : nat) :
  (o + n <= length bs)%nat -> (n <= length data)%nat ->
  (i < o \/ o + n <= i)%nat ->
  (take o bs ++ take n data ++ drop (o + n) bs) !! i = bs !! i.
Proof.
  intros Hbs Hdata [Hi|Hi].
  - rewrite lookup_app_l by (rewrite length_take; lia).
    now apply lookup_take_lt.
  - rewrite lookup_app_r by (rewrite length_take; lia).
    rewrite lookup_app_r by (rewrite !length_take; lia).
    rewrite lookup_drop, !length_take. f_equal. lia.
Qed.

Lemma patched_length (bs data : list Byte.byte) (o n : nat) :
  (o + n <= length bs)%nat -> (n <= length data)%nat ->
  length (take o bs ++ take n data ++ drop (o + n) bs) = length bs.
Proof.
  intros Hbs Hdata. rewrite !length_app, !length_take, length_drop. lia.
Qed.

(** X14: on a writable section whose buffer has the section's size, a
    write of [size] bytes that [read] can reach ([offset >= 0],
    [offset + size < N]) completes, and reading the same range back
    returns the first [size] bytes of [data]; a read of any range that
    does not meet the written one returns what it returned before; no
    other object of the store is changed. *)
Theorem write_then_read (self : LoadedMemorySection.t) (h : heap)
    (offset size_ : Z) (data bs : list Byte.byte) :
  read_only (LoadedMemorySection.flags self) = false ->
  h !! LoadedMemorySection.content self = Some (Bytearray bs) ->
  Z.of_nat (length bs) = LoadedMemorySection.size self ->
  0 <= offset -> 0 <= size_ ->
  offset + size_ < LoadedMemorySection.size self ->
  size_ <= Z.of_nat (length data) ->
  exists h',
    LoadedMemorySection.write self offset size_ data h = (Ok tt, h') /\
    LoadedMemorySection.read self offset size_ h'
    = (Ok (Bytearray (take (Z.to_nat size_) data)), h') /\
    (forall o s,
       0 <= o -> 0 <= s -> o + s < LoadedMemorySection.size self ->
       o + s <= offset \/ offset + size_ <= o ->
       LoadedMemorySection.read self o s h'
       = ((LoadedMemorySection.read self o s h).1, h')) /\
    (forall r, r <> LoadedMemorySection.content self -> h' !! r = h !! r).
Proof.
  intros Hro Hbs Hlen Ho Hs Hlt Hdata.
  set (o := Z.to_nat offset). set (n := Z.to_nat size_).
  set (bs' := take o bs ++ take n data ++ drop (o + n) bs).
  assert (Hroom : (o + n <= length bs)%nat) by lia.
  assert (Hn : (n <= length data)%nat) by lia.
  assert (Hlive : (LoadedMemorySection.content self < length h)%nat)
    by (eapply lookup_lt_Some; eauto).
  exists (<[LoadedMemorySection.content self := Bytearray bs']> h).
  assert (Hbs' : <[LoadedMemorySection.content self := Bytearray bs']> h
                 !! LoadedMemorySection.content self = Some (Bytearray bs'))
    by (now apply list_lookup_insert_eq).
  assert (Hlen' : length bs' = length bs) by (now apply patched_length).
  split; [apply write_run; auto; lia|]. split; [|split].
  - rewrite read_accepts by lia. rewrite (deref_lookup _ _ _ Hbs'). simpl.
    destruct (py_slice_in_range bs' offset (offset + size_)) as [-> _]; [lia|lia|].
    replace (offset + size_ - offset) with size_ by lia. fold o n.
    unfold bs'. rewrite drop_app_length' by (rewrite length_take; lia).
    rewrite take_app_length' by (rewrite length_take; lia). reflexivity.
  - intros o' s' Ho' Hs' Hlt' Hapart.
    rewrite !read_accepts by lia.
    rewrite (deref_lookup _ _ _ Hbs'), (deref_lookup _ _ _ Hbs). simpl.
    destruct (py_slice_in_range bs' o' (o' + s')) as [-> _]; [lia|lia|].
    destruct (py_slice_in_range bs o' (o' + s')) as [-> _]; [lia|lia|].
    f_equal. f_equal. f_equal. apply list_eq. intros i.
    rewrite !lookup_take, !lookup_drop.
    case_decide; [|reflexivity].
    unfold bs'. apply patched_lookup; lia.
  - intros r Hne. now rewrite list_lookup_insert_ne.
Qed.

Lemma write_then_read_witness :
  exists h',
    LoadedMemorySection.write Ex.loaded_rw 1 2 [Byte.xff; Byte.xee; Byte.xdd]
      Ex.store_four = (Ok tt, h') /\
    LoadedMemorySection.read Ex.loaded_rw 1 2 h'
    = (Ok (Bytearray [Byte.xff; Byte.xee]), h') /\
    (forall o s,
       0 <= o -> 0 <= s -> o + s < 4 -> o + s <= 1 \/ 1 + 2 <= o ->
       LoadedMemorySection.read Ex.loaded_rw o s h'
       = ((LoadedMemorySection.read Ex.loaded_rw o s Ex.store_four).1, h')) /\
    (forall r, r <> 0%nat -> h' !! r = Ex.store_four !! r).
Proof.
  apply (write_then_read Ex.loaded_rw Ex.store_four 1 2
           [Byte.xff; Byte.xee; Byte.xdd]
           [Byte.x0a; Byte.x0b; Byte.x0c; Byte.x0d]);
    solve [reflexivity | simpl; lia | lia].
Defined.

(** ** The loader: symbols and the run pointer *)

(** the keys of [sections_by_name] after the section loop *)
Lemma load_sections_keys (to_bytes : Z) (self_name : string) (secs : list section) :
  forall (st st' : LoadedExecutable.layout) (h h' : heap),
    LoadedExecutable.load_sections to_bytes self_name st secs h = (Ok st', h') ->
    forall k,
      is_Some (LoadedExecutable.l_by_name st' !! k)
      <-> is_Some (LoadedExecutable.l_by_name st !! k) \/ k ∈ sec_name <$> secs.
Proof.
  induction secs as [|sec secs IH]; intros st st' h h' H k; simpl in H.
  - injection H as <- _. simpl. rewrite elem_of_nil. tauto.
  - apply bind_inv in H as (st1 & h1 & H1 & H).
    rewrite (IH _ _ _ _ H k). clear IH H.
    unfold LoadedExecutable.load_section in H1.
    apply bind_inv in H1 as (c & h2 & _ & H1). injection H1 as <- _. simpl.
    rewrite ?fmap_cons, elem_of_cons, lookup_insert.
    case_decide as Hk.
    + subst k. split; [intros _; right; now left|intros _; left; eauto].
    + split; [tauto|]. intros [Hs|[Heq|Hin]]; [tauto|congruence|tauto].
Qed.

(** every entry of [sections_by_name] is a loaded section, under its name *)
Lemma load_sections_entries (to_bytes : Z) (self_name : string) (secs : list section) :
  forall (st st' : LoadedExecutable.layout) (h h' : heap),
    LoadedExecutable.load_sections to_bytes self_name st secs h = (Ok st', h') ->
    (forall k l, LoadedExecutable.l_by_name st !! k = Some l ->
                 LoadedMemorySection.name l = k /\ l ∈ LoadedExecutable.l_sections st) ->
    forall k l, LoadedExecutable.l_by_name st' !! k = Some l ->
                LoadedMemorySection.name l = k /\ l ∈ LoadedExecutable.l_sections st'.
Proof.
  induction secs as [|sec secs IH]; intros st st' h h' H Hinv; simpl in H.
  - now injection H as <- _.
  - apply bind_inv in H as (st1 & h1 & H1 & H).
    apply (IH _ _ _ _ H). clear IH H.
    unfold LoadedExecutable.load_section in H1.
    apply bind_inv in H1 as (c & h2 & _ & H1). injection H1 as <- _. simpl.
    intros k l. rewrite lookup_insert. case_decide as Hk.
    + intros [= <-]. subst k. split; [reflexivity|].
      apply elem_of_app. right. now apply list_elem_of_singleton.
    + intros Hl. destruct (Hinv _ _ Hl) as [Hn Hin]. split; [exact Hn|].
      apply elem_of_app. now left.
Qed.

Lemma load_symbols_spec (by_name : gmap string LoadedMemorySection.t)
    (items : list (string * (string * Z))) :
  forall (syms syms' : gmap string Z) (h h' : heap),
    LoadedExecutable.load_symbols by_name syms items h = (Ok syms', h') ->
    Forall (fun item => is_Some (by_name !! item.2.1)) items /\
    (NoDup items.*1 ->
     forall n s off, (n, (s, off)) ∈ items ->
       exists l, by_name !! s = Some l /\
                 syms' !! n = Some (LoadedMemorySection.base l + off)) /\
    (forall n, n ∉ items.*1 -> syms' !! n = syms !! n).
Proof.
  induction items as [|[n [s off]] items IH]; intros syms syms' h h' H; simpl in H.
  - injection H as <- _. split; [constructor|]. split; [|reflexivity].
    intros _ n s off Hin. inversion Hin.
  - apply bind_inv in H as ([] & h1 & H1 & H).
    apply bind_inv in H as (l & h2 & H2 & H).
    unfold dict_getitem in H2. destruct (by_name !! s) as [l'|] eqn:El;
      [|discriminate]. injection H2 as <- <-.
    destruct (IH _ _ _ _ H) as (Hall & Hres & Hout). clear IH.
    split; [constructor; [simpl; eauto|exact Hall]|]. split.
    + intros Hnd n' s' off' Hin. simpl in Hnd. apply NoDup_cons in Hnd as [Hnin Hnd].
      apply elem_of_cons in Hin as [[= -> -> ->]|Hin].
      * exists l'. split; [exact El|]. rewrite (Hout _ Hnin).
        apply lookup_insert_eq.
      * now apply Hres.
    + intros n' Hnin. simpl in Hnin. apply not_elem_of_cons in Hnin as [Hne Hnin].
      rewrite (Hout _ Hnin). now apply lookup_insert_ne.
Qed.

(** the steps of a load that returned *)
Lemma init_inv (to_bytes : Z) (exe : Executable.t) (base_addr : Z)
    (h h' : heap) (le : LoadedExecutable.t) :
  LoadedExecutable.init to_bytes exe base_addr h = (Ok le, h') ->
  exists stack st h1 h2 l,
    LoadedExecutable.load_sections to_bytes (Executable.name exe)
      {| LoadedExecutable.l_sections := stack;
         LoadedExecutable.l_by_name := ∅;
         LoadedExecutable.curr := base_addr |}
      (snd <$> Executable.sections exe) h1 = (Ok st, h2) /\
    LoadedExecutable.load_symbols (LoadedExecutable.l_by_name st) ∅
      (Executable.symbols exe) h2 = (Ok (LoadedExecutable.symbols le), h') /\
    LoadedExecutable.sections_by_name le = LoadedExecutable.l_by_name st /\
    LoadedExecutable.sections le = LoadedExecutable.l_sections st /\
    LoadedExecutable.l_by_name st !! (Executable.run_ptr exe).1 = Some l /\
    LoadedExecutable.run_ptr le
    = LoadedMemorySection.base l + (Executable.run_ptr exe).2 /\
    LoadedExecutable.name le = Executable.name exe /\
    LoadedExecutable.base_addr le = base_addr.
Proof.
  unfold LoadedExecutable.init. intros H.
  apply bind_inv in H as (stack & h1 & _ & H).
  apply bind_inv in H as (st & h2 & Hload & H).
  apply bind_inv in H as (syms & h3 & Hsyms & H).
  destruct (Executable.run_ptr exe) as [run_ptr_sec run_ptr_off].
  apply bind_inv in H as (l & h4 & Hl & H). injection H as <- <-.
  unfold dict_getitem in Hl.
  destruct (LoadedExecutable.l_by_name st !! run_ptr_sec) as [l'|] eqn:El;
    [|discriminate]. injection Hl as <- <-.
  exists stack.1, st, h1, h2, l'. simpl. repeat split; assumption.
Qed.

Lemma names_fmap (exe : Executable.t) :
  sec_name <$> (snd <$> Executable.sections exe) = LoadedExecutable.names exe.
Proof. unfold LoadedExecutable.names. now rewrite <- list_fmap_compose. Qed.

(** X15: when a load returns, every symbol [name -> (sec, off)] of the
    image (a dict: no name twice) is resolved to the base of the loaded
    section that [sections_by_name] holds under [sec], plus [off], and so
    is the run pointer; that section carries the name [sec], is one of
    the loaded sections, and [sec] names a section of the image; names
    that are no symbol of the image are no symbol of the loaded
    executable. *)
Theorem symbols_resolved (to_bytes : Z) (exe : Executable.t) (base_addr : Z)
    (h h' : heap) (le : LoadedExecutable.t) :
  LoadedExecutable.init to_bytes exe base_addr h = (Ok le, h') ->
  NoDup (Executable.symbols exe).*1 ->
  (forall n s off,
     (n, (s, off)) ∈ Executable.symbols exe ->
     exists l,
       LoadedExecutable.sections_by_name le !! s = Some l /\
       LoadedMemorySection.name l = s /\
       l ∈ LoadedExecutable.sections le /\
       s ∈ LoadedExecutable.names exe /\
       LoadedExecutable.symbols le !! n = Some (LoadedMemorySection.base l + off)) /\
  (forall n, n ∉ (Executable.symbols exe).*1 ->
             LoadedExecutable.symbols le !! n = None) /\
  (exists l,
     LoadedExecutable.sections_by_name le !! (Executable.run_ptr exe).1 = Some l /\
     LoadedMemorySection.name l = (Executable.run_ptr exe).1 /\
     l ∈ LoadedExecutable.sections le /\
     LoadedExecutable.run_ptr le
     = LoadedMemorySection.base l + (Executable.run_ptr exe).2).
Proof.
  intros H Hnd.
  apply init_inv in H
    as (stack & st & h1 & h2 & lr & Hload & Hsyms & -> & -> & Hrun & Hptr & _).
  pose proof (load_sections_entries _ _ _ _ _ _ _ Hload) as Hent. simpl in Hent.
  specialize (Hent ltac:(intros k l Hk; rewrite lookup_empty in Hk; discriminate)).
  pose proof (load_sections_keys _ _ _ _ _ _ _ Hload) as Hkeys. simpl in Hkeys.
  destruct (load_symbols_spec _ _ _ _ _ _ Hsyms) as (_ & Hres & Hout).
  split; [|split].
  - intros n s off Hin. destruct (Hres Hnd _ _ _ Hin) as (l & Hl & Hn).
    exists l. destruct (Hent _ _ Hl) as [Hname Hmem].
    repeat split; try assumption.
    rewrite <- names_fmap. destruct (proj1 (Hkeys s) ltac:(eauto)) as [Hk|Hk];
      [|exact Hk].
    rewrite lookup_empty in Hk. destruct Hk as [? Hk]. discriminate Hk.
  - intros n Hn. rewrite (Hout _ Hn). apply lookup_empty.
  - exists lr. destruct (Hent _ _ Hrun) as [Hname Hmem]. auto.
Qed.

Lemma symbols_resolved_witness :
  exists le h',
    LoadedExecutable.init 8 Ex2.image 0x1000 Ex.store_two = (Ok le, h') /\
    (forall n s off,
       (n, (s, off)) ∈ Executable.symbols Ex2.image ->
       exists l,
         LoadedExecutable.sections_by_name le !! s = Some l /\
         LoadedMemorySection.name l = s /\
         l ∈ LoadedExecutable.sections le /\
         s ∈ LoadedExecutable.names Ex2.image /\
         LoadedExecutable.symbols le !! n = Some (LoadedMemorySection.base l + off)) /\
    (forall n, n ∉ (Executable.symbols Ex2.image).*1 ->
               LoadedExecutable.symbols le !! n = None) /\
    (exists l,
       LoadedExecutable.sections_by_name le !! (Executable.run_ptr Ex2.image).1
       = Some l /\
       LoadedMemorySection.name l = (Executable.run_ptr Ex2.image).1 /\
       l ∈ LoadedExecutable.sections le /\
       LoadedExecutable.run_ptr le
       = LoadedMemorySection.base l + (Executable.run_ptr Ex2.image).2).
Proof.
  eexists _, _. split; [vm_compute; reflexivity|].
  eapply (symbols_resolved 8 Ex2.image 0x1000 Ex.store_two).
  - vm_compute. reflexivity.
  - simpl. apply NoDup_cons. split; [|apply NoDup_singleton].
    intros Hin. apply list_elem_of_singleton in Hin. discriminate Hin.
Defined.

(** X16: an image with a symbol, or a run pointer, in a section whose
    name is not the name of a section of the image is never loaded: the
    constructor raises. *)
Theorem unknown_section_is_fatal (to_bytes : Z) (exe : Executable.t)
    (base_addr : Z) (h : heap) :
  (exists n s off,
     (n, (s, off)) ∈ Executable.symbols exe /\ s ∉ LoadedExecutable.names exe)
  \/ (Executable.run_ptr exe).1 ∉ LoadedExecutable.names exe ->
  exists e h', LoadedExecutable.init to_bytes exe base_addr h = (Raise e, h').
Proof.
  intros Hbad.
  destruct (LoadedExecutable.init to_bytes exe base_addr h) as [[le|e] h'] eqn:E;
    [exfalso|eauto].
  apply init_inv in E
    as (stack & st & h1 & h2 & lr & Hload & Hsyms & _ & _ & Hrun & _).
  pose proof (load_sections_keys _ _ _ _ _ _ _ Hload) as Hkeys. simpl in Hkeys.
  assert (Hin : forall k, is_Some (LoadedExecutable.l_by_name st !! k) ->
                          k ∈ LoadedExecutable.names exe).
  { intros k Hk. rewrite <- names_fmap.
    destruct (proj1 (Hkeys k) Hk) as [[? Hk']|Hk']; [|exact Hk'].
    rewrite lookup_empty in Hk'. discriminate Hk'. }
  destruct Hbad as [(n & s & off & Hmem & Hnot)|Hnot].
  - destruct (load_symbols_spec _ _ _ _ _ _ Hsyms) as (Hall & _ & _).
    rewrite Forall_forall in Hall. apply Hnot, Hin. exact (Hall _ Hmem).
  - apply Hnot, Hin. eauto.
Qed.

Lemma unknown_section_is_fatal_witness :
  exists e h',
    LoadedExecutable.init 8 Ex2.image_dangling 0x1000 [] = (Raise e, h').
Proof.
  apply (unknown_section_is_fatal 8 Ex2.image_dangling 0x1000 []).
  left. exists "buf"%string, ".data"%string, 1. split.
  - apply list_elem_of_singleton. reflexivity.
  - simpl. intros Hin. apply list_elem_of_singleton in Hin. discriminate Hin.
Defined.

(** ** The loader: images that load *)

Lemma insert_keeps_bytearrays (h : heap) (c : ref) (bs : list Byte.byte) (r : ref) :
  MemorySection.is_bytearray h r ->
  MemorySection.is_bytearray (<[c := Bytearray bs]> h) r.
Proof.
  intros [b Hr]. destruct (decide (c = r)) as [->|Hne].
  - exists bs. apply list_lookup_insert_eq. eapply lookup_lt_Some; eauto.
  - exists b. now rewrite list_lookup_insert_ne.
Qed.

Lemma app_keeps_bytearrays (h : heap) (o : pyobj) (r : ref) :
  MemorySection.is_bytearray h r -> MemorySection.is_bytearray (h ++ [o]) r.
Proof.
  intros [b Hr]. exists b. rewrite lookup_app_l; [exact Hr|].
  eapply lookup_lt_Some; eauto.
Qed.

Lemma for_each_iadd_ok (c : ref) (rest : list ref) :
  c ∉ rest ->
  forall h : heap,
    MemorySection.is_bytearray h c ->
    Forall (MemorySection.is_bytearray h) rest ->
    exists h',
      for_each rest (fun b => iadd c b) h = (Ok tt, h') /\
      (forall r, MemorySection.is_bytearray h r -> MemorySection.is_bytearray h' r).
Proof.
  induction rest as [|r rest IH]; intros Hnin h Hc Hrest.
  - exists h. split; [reflexivity|auto].
  - apply Forall_cons in Hrest as [Hr Hrest].
    apply not_elem_of_cons in Hnin as [Hne Hnin]. specialize (IH Hnin).
    destruct Hc as [bs Hc]. destruct Hr as [b Hr]. simpl.
    rewrite (bind_ok _ _ _ _ _ (iadd_bytearrays _ _ _ _ _ Hne Hc Hr)).
    assert (Hc' : MemorySection.is_bytearray (<[c := Bytearray (bs ++ b)]> h) c)
      by (apply insert_keeps_bytearrays; eexists; eauto).
    assert (Hrest' : Forall (MemorySection.is_bytearray
                               (<[c := Bytearray (bs ++ b)]> h)) rest)
      by (eapply Forall_impl; [exact Hrest|];
          intros; now apply insert_keeps_bytearrays).
    destruct (IH _ Hc' Hrest') as (h' & Hrun & Hkeep).
    exists h'. split; [exact Hrun|]. intros r' Hr'.
    now apply Hkeep, insert_keeps_bytearrays.
Qed.

Lemma sec_continuous_content_ok (sec : section) (parent : string) (h : heap) :
  LoadedExecutable.loadable h sec ->
  exists r h',
    sec_continuous_content sec parent h = (Ok r, h') /\
    (forall r', MemorySection.is_bytearray h r' -> MemorySection.is_bytearray h' r').
Proof.
  destruct sec as [s|s]; simpl.
  - intros [Hall Hne]. unfold MemorySection.continuous_content.
    destruct (Z.eqb_spec (MemorySection.size s) 0) as [_|Hnz].
    + eexists _, _. split; [reflexivity|]. intros. now apply app_keeps_bytearrays.
    + destruct (Hne Hnz) as (c & rest & Hcont & Hnin). rewrite Hcont in *.
      apply Forall_cons in Hall as [Hc Hrest].
      destruct (for_each_iadd_ok c rest Hnin h Hc Hrest) as (h' & Hrun & Hkeep).
      exists c, h'. now rewrite (bind_ok _ _ _ _ _ Hrun).
  - intros _. eexists _, _. split; [reflexivity|].
    intros. now apply app_keeps_bytearrays.
Qed.

Lemma loadable_keeps (h h' : heap) (sec : section) :
  (forall r, MemorySection.is_bytearray h r -> MemorySection.is_bytearray h' r) ->
  LoadedExecutable.loadable h sec -> LoadedExecutable.loadable h' sec.
Proof.
  intros Hkeep. destruct sec as [s|s]; simpl; [|auto].
  intros [Hall Hne]. split; [|exact Hne].
  eapply Forall_impl; [exact Hall|]. auto.
Qed.

Lemma load_sections_ok (to_bytes : Z) (self_name : string) (secs : list section) :
  forall (st : LoadedExecutable.layout) (h : heap),
    Forall (LoadedExecutable.loadable h) secs ->
    exists st' h',
      LoadedExecutable.load_sections to_bytes self_name st secs h = (Ok st', h').
Proof.
  induction secs as [|sec secs IH]; intros st h Hall; simpl.
  - eexists _, _. reflexivity.
  - apply Forall_cons in Hall as [Hsec Hall].
    destruct (sec_continuous_content_ok sec self_name h Hsec) as (r & h1 & Hcc & Hkeep).
    unfold LoadedExecutable.load_section.
    rewrite (bind_ok _ _ _ _ _ (bind_ok _ _ _ _ _ Hcc)).
    apply IH. eapply Forall_impl; [exact Hall|].
    intros sec'. now apply loadable_keeps.
Qed.

Lemma load_symbols_ok (by_name : gmap string LoadedMemorySection.t)
    (items : list (string * (string * Z))) :
  forall (syms : gmap string Z) (h : heap),
    Forall (fun item => is_Some (by_name !! item.2.1)) items ->
    exists syms', LoadedExecutable.load_symbols by_name syms items h = (Ok syms', h).
Proof.
  induction items as [|[n [s off]] items IH]; intros syms h Hall; simpl.
  - eexists. reflexivity.
  - apply Forall_cons in Hall as [[l Hl] Hall]. simpl in Hl.
    unfold ASSERT_IN, dict_getitem, bind. rewrite Hl. simpl. now apply IH.
Qed.

(** X17: a well-formed image always loads: with no negative stack
    size, byte sections whose chunks are bytearrays of the store and
    which, when [size] is not 0, have a first chunk that is not stored
    again among the later ones, and a section of the image behind every
    symbol and behind the run pointer, the constructor returns a loaded
    executable, for any base address and any positive alignment,
    carrying the image's name and that base address. *)
Theorem well_formed_image_loads (to_bytes : Z) (exe : Executable.t)
    (base_addr : Z) (h : heap) :
  0 < to_bytes ->
  LoadedExecutable.well_formed h exe ->
  exists le h',
    LoadedExecutable.init to_bytes exe base_addr h = (Ok le, h') /\
    LoadedExecutable.name le = Executable.name exe /\
    LoadedExecutable.base_addr le = base_addr.
Proof.
  intros _ (HK & Hsecs & Hsyms & Hrun). unfold LoadedExecutable.init.
  assert (Hstack :
    exists stack h1,
      (match Executable.stack_pref exe with
       | Some stack_pref =>
           o <- bytearray_of_len stack_pref ;;
           r <- alloc o ;;
           ret ([LoadedMemorySection.mk "stack" base_addr stack_pref r
                   {| read_only := false; executable := false |}
                   (Executable.name exe)],
                (base_addr, base_addr + stack_pref))
       | None => ret ([], (0, 0))
       end) h = (Ok stack, h1) /\
      (forall r, MemorySection.is_bytearray h r -> MemorySection.is_bytearray h1 r)).
  { destruct (Executable.stack_pref exe) as [K|] eqn:EK.
    - specialize (HK K eq_refl). unfold bytearray_of_len, bind.
      destruct (Z.ltb_spec K 0); [lia|]. simpl.
      eexists _, _. split; [reflexivity|]. intros. now apply app_keeps_bytearrays.
    - eexists _, _. split; [reflexivity|]. auto. }
  destruct Hstack as (stack & h1 & Hstack & Hkeep).
  rewrite (bind_ok _ _ _ _ _ Hstack).
  assert (Hsecs1 : Forall (LoadedExecutable.loadable h1)
                      (snd <$> Executable.sections exe))
    by (eapply Forall_impl; [exact Hsecs|]; intros sec; now apply loadable_keeps).
  destruct (load_sections_ok to_bytes (Executable.name exe)
              (snd <$> Executable.sections exe)
              {| LoadedExecutable.l_sections := stack.1;
                 LoadedExecutable.l_by_name := ∅;
                 LoadedExecutable.curr := base_addr |} h1 Hsecs1)
    as (st & h2 & Hload).
  rewrite (bind_ok _ _ _ _ _ Hload).
  pose proof (load_sections_keys _ _ _ _ _ _ _ Hload) as Hkeys. simpl in Hkeys.
  rewrite names_fmap in Hkeys.
  assert (Hsyms2 : Forall (fun item =>
                             is_Some (LoadedExecutable.l_by_name st !! item.2.1))
                      (Executable.symbols exe))
    by (eapply Forall_impl; [exact Hsyms|]; intros item Hitem;
        apply Hkeys; now right).
  destruct (load_symbols_ok (LoadedExecutable.l_by_name st)
              (Executable.symbols exe) ∅ h2 Hsyms2) as (syms & Hs).
  rewrite (bind_ok _ _ _ _ _ Hs).
  destruct (Executable.run_ptr exe) as [run_ptr_sec run_ptr_off]. simpl in Hrun.
  destruct (proj2 (Hkeys run_ptr_sec) (or_intror Hrun)) as [l Hl].
  unfold dict_getitem, bind. rewrite Hl. simpl.
  eexists _, _. repeat split.
Qed.

Lemma well_formed_image_loads_witness :
  exists le h',
    LoadedExecutable.init 8 Ex2.image 0x1000 Ex.store_two = (Ok le, h') /\
    LoadedExecutable.name le = "prog"%string /\
    LoadedExecutable.base_addr le = 0x1000.
Proof.
  apply (well_formed_image_loads 8 Ex2.image 0x1000 Ex.store_two); [lia|].
  split; [intros K HK; discriminate HK|]. split; [|split].
  - apply Forall_cons. split; [exact I|].
    apply Forall_cons. split; [|apply Forall_nil; exact I].
    split; [repeat constructor; eexists; reflexivity|].
    intros _. exists 0%nat, [1%nat]. split; [reflexivity|].
    intros Hin. apply list_elem_of_singleton in Hin. discriminate Hin.
  - repeat constructor.
  - simpl. repeat constructor.
Defined.

(** ** The loader: where the sections of the image go *)

Lemma placed_lookup (to_bytes : Z) (secs : list section) :
  forall c ls,
    LoadedExecutable.placed to_bytes c secs ls ->
    length ls = length secs /\
    forall i l, ls !! i = Some l ->
      exists sec, secs !! i = Some sec /\
                  LoadedMemorySection.name l = sec_name sec /\
                  LoadedMemorySection.size l = sec_size sec.
Proof.
  induction secs as [|sec secs IH]; intros c ls Hp; destruct ls as [|l ls];
    simpl in Hp; try contradiction.
  - split; [reflexivity|]. intros i l Hl. discriminate Hl.
  - destruct Hp as (Hn & _ & Hs & Hp). destruct (IH _ _ Hp) as [Hlen Hall].
    split; [simpl; now rewrite Hlen|].
    intros [|i] l' Hl'; simpl in Hl'.
    + injection Hl' as <-. exists sec. auto.
    + now apply Hall.
Qed.

Lemma placed_next (to_bytes : Z) (secs : list section) :
  forall c ls i a b,
    LoadedExecutable.placed to_bytes c secs ls ->
    ls !! i = Some a -> ls !! S i = Some b ->
    LoadedMemorySection.base b
    = align_addr to_bytes (LoadedMemorySection.size a + LoadedMemorySection.base a).
Proof.
  induction secs as [|sec secs IH]; intros c ls i a b Hp Ha Hb;
    destruct ls as [|l ls]; simpl in Hp; try contradiction; try discriminate.
  destruct Hp as (_ & Hbase & Hsize & Hp).
  destruct i as [|i]; simpl in Ha, Hb.
  - injection Ha as ->. destruct secs as [|sec' secs], ls as [|l' ls];
      simpl in Hp; try contradiction; try discriminate.
    injection Hb as ->. destruct Hp as (_ & -> & _). now rewrite Hbase, Hsize.
  - exact (IH _ _ _ _ _ Hp Ha Hb).
Qed.

Lemma placed_first (to_bytes : Z) (secs : list section) (c : Z)
    (ls : list LoadedMemorySection.t) (l : LoadedMemorySection.t) :
  LoadedExecutable.placed to_bytes c secs ls -> ls !! 0%nat = Some l ->
  LoadedMemorySection.base l = c.
Proof.
  destruct secs, ls; simpl; try contradiction; try discriminate.
  intros (_ & Hb & _) [= ->]. exact Hb.
Qed.

(** X18: in a loaded executable the sections of the image follow the
    stack section (when there is one) in the image's order, one loaded
    section for each, with its name and size; the first is at
    [base_addr], each next one at the aligned end of the one before; and
    with a positive alignment and no negative size, a later section
    begins at or after the end of every earlier one, on an aligned
    address, so no two of them overlap. *)
Theorem image_sections_in_order (to_bytes : Z) (exe : Executable.t)
    (base_addr : Z) (h h' : heap) (le : LoadedExecutable.t) :
  LoadedExecutable.init to_bytes exe base_addr h = (Ok le, h') ->
  exists ls,
    LoadedExecutable.sections le
    = match Executable.stack_pref exe with
      | Some K =>
          [LoadedMemorySection.mk "stack" base_addr K (length h)
             {| read_only := false; executable := false |} (Executable.name exe)]
      | None => []
      end ++ ls /\
    length ls = length (Executable.sections exe) /\
    (forall i l, ls !! i = Some l ->
       exists item,
         Executable.sections exe !! i = Some item /\
         LoadedMemorySection.name l = sec_name item.2 /\
         LoadedMemorySection.size l = sec_size item.2) /\
    (forall l, ls !! 0%nat = Some l -> LoadedMemorySection.base l = base_addr) /\
    (forall i a b, ls !! i = Some a -> ls !! S i = Some b ->
       LoadedMemorySection.base b
       = align_addr to_bytes
           (LoadedMemorySection.size a + LoadedMemorySection.base a)) /\
    (0 < to_bytes ->
     Forall (fun item => 0 <= sec_size item.2) (Executable.sections exe) ->
     forall i j a b, (i < j)%nat -> ls !! i = Some a -> ls !! j = Some b ->
       LoadedMemorySection.base a + LoadedMemorySection.size a
       <= LoadedMemorySection.base b
       /\ LoadedMemorySection.base b mod to_bytes = 0
       /\ ~ LoadedExecutable.overlap a b).
Proof.
  intros H. apply init_layout in H as (_ & (ls & Hls & Hp) & _).
  exists ls. split; [exact Hls|].
  destruct (placed_lookup _ _ _ _ Hp) as [Hlen Hall].
  split; [now rewrite Hlen, length_fmap|]. split; [|split; [|split]].
  - intros i l Hl. destruct (Hall _ _ Hl) as (sec & Hsec & Hn & Hs).
    rewrite list_lookup_fmap in Hsec.
    destruct (Executable.sections exe !! i) as [item|]; [|discriminate].
    injection Hsec as <-. eauto.
  - intros l. exact (placed_first _ _ _ _ l Hp).
  - intros i a b. exact (placed_next _ _ _ _ i a b Hp).
  - intros Ht Hsz i j a b.
    assert (Hsz' : Forall (fun sec => 0 <= sec_size sec)
                     (snd <$> Executable.sections exe))
      by (now rewrite Forall_fmap).
    exact (placed_apart to_bytes _ Ht Hsz' _ _ i j a b Hp).
Qed.

Lemma image_sections_in_order_witness :
  exists le h' ls,
    LoadedExecutable.init 8 Ex2.image 0x1000 Ex.store_two = (Ok le, h') /\
    LoadedExecutable.sections le = [] ++ ls /\
    length ls = 2%nat /\
    (forall l, ls !! 0%nat = Some l -> LoadedMemorySection.base l = 0x1000) /\
    (forall a b, ls !! 0%nat = Some a -> ls !! 1%nat = Some b ->
       LoadedMemorySection.base b = 0x1008 /\ ~ LoadedExecutable.overlap a b).
Proof.
  destruct (LoadedExecutable.init 8 Ex2.image 0x1000 Ex.store_two)
    as [[le|e] h'] eqn:E; [|vm_compute in E; discriminate E].
  destruct (image_sections_in_order 8 Ex2.image 0x1000 Ex.store_two h' le E)
    as (ls & Hls & Hlen & Hall & Hfirst & Hnext & Hapart).
  exists le, h', ls. split; [reflexivity|]. split; [exact Hls|].
  split; [exact Hlen|]. split; [exact Hfirst|].
  intros a b Ha Hb. split.
  - rewrite (Hnext _ _ _ Ha Hb).
    destruct (Hall _ _ Ha) as (item & Hitem & _ & ->).
    rewrite (Hfirst _ Ha). injection Hitem as <-. reflexivity.
  - apply (Hapart ltac:(lia) ltac:(repeat constructor; simpl; lia)
             0%nat 1%nat a b ltac:(lia) Ha Hb).
Defined.

Lemma placed_within (to_bytes : Z) (secs : list section) :
  0 < to_bytes -> Forall (fun sec => 0 <= sec_size sec) secs ->
  forall c ls,
    LoadedExecutable.placed to_bytes c secs ls ->
    c <= LoadedExecutable.final_cursor to_bytes c secs /\
    forall l, l ∈ ls ->
      c <= LoadedMemorySection.base l /\
      LoadedMemorySection.base l + LoadedMemorySection.size l
      <= LoadedExecutable.final_cursor to_bytes c secs.
Proof.
  intros Ht Hsz. induction Hsz as [|sec secs Hs _ IH]; intros c ls Hp;
    destruct ls as [|l ls]; simpl in Hp; try contradiction; simpl.
  - split; [lia|]. intros l Hl. inversion Hl.
  - destruct Hp as (_ & Hbase & Hsize & Hp).
    destruct (IH _ _ Hp) as [Hc Hall].
    pose proof (align_addr_ge to_bytes (sec_size sec + c) Ht) as Hge.
    split; [lia|]. intros l' Hl'. apply elem_of_cons in Hl' as [->|Hl'].
    + lia.
    + destruct (Hall _ Hl'). lia.
Qed.

Lemma final_cursor_bounds (to_bytes : Z) (secs : list section) :
  0 < to_bytes ->
  forall c,
    foldr (fun sec acc => sec_size sec + acc) 0 secs
    <= LoadedExecutable.final_cursor to_bytes c secs - c
    <= foldr (fun sec acc => sec_size sec + acc) 0 secs
       + Z.of_nat (length secs) * (to_bytes - 1).
Proof.
  intros Ht. induction secs as [|sec secs IH]; intros c; simpl.
  - lia.
  - specialize (IH (align_addr to_bytes (sec_size sec + c))).
    pose proof (align_addr_ge to_bytes (sec_size sec + c) Ht).
    pose proof (align_addr_lt to_bytes (sec_size sec + c) Ht). lia.
Qed.

(** X19: with a positive alignment and no negative size, every loaded
    section of the image lies within [base_addr, base_addr + size) of
    the loaded executable, and [size] is the sum of the section sizes
    plus a padding of less than the alignment for each section. *)
Theorem image_sections_within_size (to_bytes : Z) (exe : Executable.t)
    (base_addr : Z) (h h' : heap) (le : LoadedExecutable.t) :
  LoadedExecutable.init to_bytes exe base_addr h = (Ok le, h') ->
  0 < to_bytes ->
  Forall (fun item => 0 <= sec_size item.2) (Executable.sections exe) ->
  let total := foldr (fun item acc => sec_size item.2 + acc) 0 (Executable.sections exe) in
  total <= LoadedExecutable.size le
  <= total + Z.of_nat (length (Executable.sections exe)) * (to_bytes - 1) /\
  forall l,
    l ∈ drop (match Executable.stack_pref exe with
              | Some _ => 1%nat
              | None => 0%nat
              end) (LoadedExecutable.sections le) ->
    base_addr <= LoadedMemorySection.base l /\
    LoadedMemorySection.base l + LoadedMemorySection.size l
    <= base_addr + LoadedExecutable.size le.
Proof.
  intros H Ht Hsz total.
  apply init_layout in H as (_ & (ls & Hls & Hp) & Hsize).
  assert (Hsz' : Forall (fun sec => 0 <= sec_size sec)
                   (snd <$> Executable.sections exe))
    by (now rewrite Forall_fmap).
  destruct (placed_within to_bytes _ Ht Hsz' _ _ Hp) as [_ Hall].
  pose proof (final_cursor_bounds to_bytes (snd <$> Executable.sections exe)
                Ht base_addr) as Hb.
  rewrite length_fmap in Hb.
  assert (Htot : foldr (fun sec acc => sec_size sec + acc) 0
                   (snd <$> Executable.sections exe) = total).
  { unfold total. clear. induction (Executable.sections exe) as [|x xs IH];
      [reflexivity|]. rewrite fmap_cons. simpl. f_equal. exact IH. }
  rewrite Htot in Hb. rewrite Hsize. split; [lia|].
  intros l Hl.
  assert (Hin : l ∈ ls).
  { rewrite Hls in Hl. destruct (Executable.stack_pref exe); exact Hl. }
  destruct (Hall _ Hin). lia.
Qed.

Lemma image_sections_within_size_witness :
  exists le h',
    LoadedExecutable.init 8 Ex2.image 0x1000 Ex.store_two = (Ok le, h') /\
    3 + 3 <= LoadedExecutable.size le <= 3 + 3 + 2 * (8 - 1) /\
    forall l,
      l ∈ LoadedExecutable.sections le ->
      0x1000 <= LoadedMemorySection.base l /\
      LoadedMemorySection.base l + LoadedMemorySection.size l
      <= 0x1000 + LoadedExecutable.size le.
Proof.
  destruct (LoadedExecutable.init 8 Ex2.image 0x1000 Ex.store_two)
    as [[le|e] h'] eqn:E; [|vm_compute in E; discriminate E].
  exists le, h'. split; [reflexivity|].
  apply (image_sections_within_size 8 Ex2.image 0x1000 Ex.store_two h' le E);
    [lia|repeat constructor; simpl; lia].
Defined.

(** ** ElfLoader: the layout check of [add_sec] *)

(** the check between a section present and a new one, in plain terms *)
Lemma apart_iff (sec new_sec : LoadedMemorySection.t) :
  ElfExecutable.apart sec new_sec = true <->
  0 < LoadedMemorySection.size sec /\
  (LoadedMemorySection.end_ sec <= LoadedMemorySection.base new_sec \/
   LoadedMemorySection.end_ new_sec <= LoadedMemorySection.base sec).
Proof.
  unfold ElfExecutable.apart, LoadedMemorySection.end_.
  rewrite orb_true_iff, !andb_true_iff, Z.ltb_lt, Z.leb_le, Z.gtb_ltb, Z.ltb_lt,
    Z.geb_leb, Z.leb_le.
  lia.
Qed.

Lemma apart_no_overlap (sec new_sec : LoadedMemorySection.t) :
  ElfExecutable.apart sec new_sec = true -> ~ LoadedExecutable.overlap sec new_sec.
Proof.
  rewrite apart_iff. unfold LoadedMemorySection.end_.
  intros [_ H] (x & Hx1 & Hx2). unfold LoadedExecutable.covers in *. lia.
Qed.

Lemma check_layout_ok (overlap_line : LoadedMemorySection.t -> LoadedMemorySection.t -> string)
    (secs : list LoadedMemorySection.t) (new_sec : LoadedMemorySection.t)
    (st : ElfLoader.state) :
  Forall (fun sec => ElfExecutable.apart sec new_sec = true) secs ->
  ElfLoader.check_layout overlap_line secs new_sec st = (Ok tt, st).
Proof.
  induction 1 as [|sec secs Hsec _ IH]; simpl; [reflexivity|].
  now rewrite Hsec.
Qed.

Lemma check_layout_inv (overlap_line : LoadedMemorySection.t -> LoadedMemorySection.t -> string)
    (secs : list LoadedMemorySection.t) (new_sec : LoadedMemorySection.t)
    (st st' : ElfLoader.state) :
  ElfLoader.check_layout overlap_line secs new_sec st = (Ok tt, st') ->
  st' = st /\ Forall (fun sec => ElfExecutable.apart sec new_sec = true) secs.
Proof.
  induction secs as [|sec secs IH]; simpl.
  - intros [= <-]. auto.
  - destruct (ElfExecutable.apart sec new_sec) eqn:E.
    + intros H. destruct (IH H) as [-> Hall]. auto.
    + destruct st as [h out]. discriminate.
Qed.

(** X20: [add_sec] accepts a new section exactly when every section
    already present has a positive size and lies entirely below or
    entirely above the new one; it then appends the section, files it
    under its name and prints nothing.  Otherwise it prints one line,
    about the first section that fails the check, and raises
    RuntimeError; so once a section of size 0 is present, no section can
    be added any more, wherever it lies. *)
Theorem add_sec_accepts_iff
    (overlap_line : LoadedMemorySection.t -> LoadedMemorySection.t -> string)
    (self : ElfLoader.ElfExecutable) (new_sec : LoadedMemorySection.t)
    (st : ElfLoader.state) :
  let fits sec :=
    0 < LoadedMemorySection.size sec /\
    (LoadedMemorySection.end_ sec <= LoadedMemorySection.base new_sec \/
     LoadedMemorySection.end_ new_sec <= LoadedMemorySection.base sec) in
  (Forall fits (ElfLoader.sections self) ->
   exists self',
     ElfLoader.add_sec overlap_line self new_sec st = (Ok self', st) /\
     ElfLoader.sections self' = ElfLoader.sections self ++ [new_sec] /\
     ElfLoader.sections_by_name self' !! LoadedMemorySection.name new_sec
     = Some new_sec) /\
  (~ Forall fits (ElfLoader.sections self) ->
   exists before sec after,
     ElfLoader.sections self = before ++ sec :: after /\
     Forall fits before /\ ~ fits sec /\
     ElfLoader.add_sec overlap_line self new_sec st
     = (Raise (RuntimeError "Cannot load elf with overlapping sections!"),
        (st.1, st.2 ++ [Print (overlap_line sec new_sec)]))).
Proof.
  intros fits.
  assert (Hfits : forall sec, fits sec <-> ElfExecutable.apart sec new_sec = true)
    by (intros sec; symmetry; apply apart_iff).
  split.
  - intros Hall. unfold ElfLoader.add_sec.
    rewrite (bind_ok _ _ _ _ _ (check_layout_ok overlap_line _ new_sec st
               ltac:(eapply Forall_impl; [exact Hall|]; intros; now apply Hfits))).
    eexists. split; [reflexivity|]. simpl. split; [reflexivity|].
    apply lookup_insert_eq.
  - intros Hnot. unfold ElfLoader.add_sec.
    induction (ElfLoader.sections self) as [|sec secs IH].
    + destruct Hnot. constructor.
    + destruct (ElfExecutable.apart sec new_sec) eqn:E.
      * assert (Hnot' : ~ Forall fits secs).
        { intros Hall. apply Hnot. constructor; [now apply Hfits|exact Hall]. }
        destruct (IH Hnot') as (before & bad & after & -> & Hb & Hbad & Hrun).
        exists (sec :: before), bad, after. split; [reflexivity|].
        split; [constructor; [now apply Hfits|exact Hb]|]. split; [exact Hbad|].
        unfold bind in *. simpl. rewrite E.
        destruct (ElfLoader.check_layout overlap_line (before ++ bad :: after)
                    new_sec st) as [[[]|e] st1]; [discriminate Hrun|exact Hrun].
      * exists [], sec, secs. split; [reflexivity|]. split; [constructor|].
        split; [rewrite Hfits, E; discriminate|].
        unfold bind. simpl. rewrite E. destruct st as [h out]. reflexivity.
Qed.

Lemma add_sec_accepts_iff_witness :
  exists before sec after,
    ElfLoader.sections Ex2.with_empty = before ++ sec :: after /\
    LoadedMemorySection.size sec = 0 /\
    ElfLoader.add_sec Ex2.line Ex2.with_empty Ex2.far_sec ([], [])
    = (Raise (RuntimeError "Cannot load elf with overlapping sections!"),
       ([], [] ++ [Print (Ex2.line sec Ex2.far_sec)])).
Proof.
  destruct (add_sec_accepts_iff Ex2.line Ex2.with_empty Ex2.far_sec ([], []))
    as [_ H].
  destruct H as (before & sec & after & Hsecs & _ & _ & Hrun).
  - intros Hall. apply Forall_cons in Hall as [[Hsz _] _]. simpl in Hsz. lia.
  - exists before, sec, after. split; [exact Hsecs|]. split; [|exact Hrun].
    destruct before as [|x [|y before]]; simpl in Hsecs;
      [|destruct after; discriminate Hsecs|discriminate Hsecs].
    now injection Hsecs as <- _.
Defined.

Lemma layout_ok_snoc (secs : list LoadedMemorySection.t) (new_sec : LoadedMemorySection.t) :
  ElfLoader.layout_ok secs ->
  Forall (fun sec => ElfExecutable.apart sec new_sec = true) secs ->
  ElfLoader.layout_ok (secs ++ [new_sec]).
Proof.
  intros Hok Hall i j a b Hij Ha Hb.
  pose proof (lookup_lt_Some _ _ _ Hb) as Hj. rewrite length_app in Hj. simpl in Hj.
  assert (Hi : (i < length secs)%nat) by lia.
  rewrite lookup_app_l in Ha by exact Hi.
  destruct (decide (j < length secs)%nat) as [Hjl|Hjl].
  - rewrite lookup_app_l in Hb by exact Hjl. exact (Hok _ _ _ _ Hij Ha Hb).
  - rewrite lookup_app_r in Hb by lia.
    replace (j - length secs)%nat with 0%nat in Hb by lia. injection Hb as <-.
    rewrite Forall_lookup in Hall. exact (Hall _ _ Ha).
Qed.

Lemma add_sec_inv
    (overlap_line : LoadedMemorySection.t -> LoadedMemorySection.t -> string)
    (self self' : ElfLoader.ElfExecutable) (new_sec : LoadedMemorySection.t)
    (st st' : ElfLoader.state) :
  ElfLoader.add_sec overlap_line self new_sec st = (Ok self', st') ->
  st' = st /\
  ElfLoader.sections self' = ElfLoader.sections self ++ [new_sec] /\
  ElfLoader.symbols self' = ElfLoader.symbols self /\
  ElfLoader.run_ptr self' = ElfLoader.run_ptr self /\
  Forall (fun sec => ElfExecutable.apart sec new_sec = true) (ElfLoader.sections self).
Proof.
  unfold ElfLoader.add_sec. intros H.
  apply bind_inv in H as ([] & st1 & Hc & H).
  apply check_layout_inv in Hc as [-> Hall]. injection H as <- <-. auto.
Qed.

(** X21: whatever sections were added one by one to an ELF executable
    that started with none, if every [add_sec] returned then the sections
    are kept in the order they were added, nothing was printed, no two of
    them overlap, and every section but the last has a positive size. *)
Theorem add_secs_never_overlap
    (overlap_line : LoadedMemorySection.t -> LoadedMemorySection.t -> string)
    (new_secs : list LoadedMemorySection.t) (run_ptr : Z)
    (self' : ElfLoader.ElfExecutable) (st st' : ElfLoader.state) :
  ElfLoader.add_secs overlap_line (ElfLoader.empty run_ptr) new_secs st
  = (Ok self', st') ->
  st' = st /\
  ElfLoader.sections self' = new_secs /\
  forall i j a b, (i < j)%nat -> new_secs !! i = Some a -> new_secs !! j = Some b ->
    ~ LoadedExecutable.overlap a b /\ 0 < LoadedMemorySection.size a.
Proof.
  assert (Hgen : forall news self self' st st',
             ElfLoader.add_secs overlap_line self news st = (Ok self', st') ->
             ElfLoader.layout_ok (ElfLoader.sections self) ->
             st' = st /\
             ElfLoader.sections self' = ElfLoader.sections self ++ news /\
             ElfLoader.layout_ok (ElfLoader.sections self')).
  { induction news as [|new news IH]; intros self self1 st0 st1 H Hok; simpl in H.
    - injection H as <- <-. now rewrite app_nil_r.
    - apply bind_inv in H as (self2 & st2 & Hadd & H).
      apply add_sec_inv in Hadd as (-> & Hsecs & _ & _ & Hall).
      destruct (IH _ _ _ _ H) as (-> & Hs & Hok').
      + rewrite Hsecs. now apply layout_ok_snoc.
      + split; [reflexivity|]. split; [|exact Hok'].
        now rewrite Hs, Hsecs, <- app_assoc. }
  intros H. destruct (Hgen _ _ _ _ _ H) as (-> & Hs & Hok).
  - intros i j a b _ Ha. discriminate Ha.
  - simpl in Hs. split; [reflexivity|]. split; [exact Hs|].
    intros i j a b Hij Ha Hb. rewrite Hs in Hok.
    pose proof (Hok _ _ _ _ Hij Ha Hb) as Hap. split.
    + now apply apart_no_overlap.
    + now apply apart_iff in Hap as [Hsz _].
Qed.

Lemma add_secs_never_overlap_witness :
  exists self',
    ElfLoader.add_secs Ex2.line (ElfLoader.empty 0x200)
      [Ex2.text_sec; Ex2.far_sec; Ex2.empty_sec] ([], []) = (Ok self', ([], [])) /\
    ElfLoader.sections self' = [Ex2.text_sec; Ex2.far_sec; Ex2.empty_sec] /\
    forall i j a b, (i < j)%nat ->
      [Ex2.text_sec; Ex2.far_sec; Ex2.empty_sec] !! i = Some a ->
      [Ex2.text_sec; Ex2.far_sec; Ex2.empty_sec] !! j = Some b ->
      ~ LoadedExecutable.overlap a b /\ 0 < LoadedMemorySection.size a.
Proof.
  destruct (ElfLoader.add_secs Ex2.line (ElfLoader.empty 0x200)
              [Ex2.text_sec; Ex2.far_sec; Ex2.empty_sec] ([], []))
    as [[self'|e] st'] eqn:E; [|vm_compute in E; discriminate E].
  destruct (add_secs_never_overlap Ex2.line _ _ _ _ _ E) as (-> & Hs & Hall).
  exists self'. split; [reflexivity|]. split; [exact Hs|exact Hall].
Defined.

(** ** PrivRV32I: mret in machine mode *)

Lemma on_csr_run {A : Type} (m : M CSR.state A) (cpu : PrivCPU.t)
    (r : result A) (c : CSR.t) (o : list event) :
  m (PrivCPU.csr cpu, PrivCPU.out cpu) = (r, (c, o)) ->
  PrivCPU.on_csr m cpu
  = (r, PrivCPU.mk (PrivCPU.pc cpu) (PrivCPU.mode cpu) c (PrivCPU.regs cpu) o).
Proof. intros H. unfold PrivCPU.on_csr. now rewrite H. Qed.

(** [mret] in machine mode, up to the point where the mode is restored *)
Lemma mret_run (ins : Instruction.t) (pc : Z) (csr : CSR.t)
    (regs : gmap string Z) (out : list event) :
  let m := CSR.mstatus csr in
  let mpie := Z.shiftr (Z.land m (CSR.field_mask "mpie" 7)) 7 in
  let new_val := Z.lor (Z.land m (Z.lnot (CSR.field_mask "mie" 3))) (Z.shiftl mpie 3) in
  let mpp := Z.shiftr (Z.land new_val (CSR.field_mask "mpp" 11)) 11 in
  let csr' := {| CSR.regs := <[0x300 := new_val]> (CSR.regs csr);
                 CSR.listeners :=
                   <[0x300 := CSR.listener_at csr 0x300]> (CSR.listeners csr) |} in
  let out' := out ++ CSR.calls (CSR.listener_at csr 0x300) m new_val in
  PrivRV32I.instruction_mret ins (PrivCPU.mk pc MACHINE csr regs out)
  = bind (PrivModes_of mpp)
      (fun m' =>
         PrivCPU.set_mode m' ;;;
         mepc <- PrivCPU.on_csr (CSR.get (Name "mepc")) ;;
         PrivCPU.set_pc mepc)
      (PrivCPU.mk pc MACHINE csr' regs out').
Proof.
  intros m mpie new_val mpp csr' out'.
  unfold PrivRV32I.instruction_mret.
  unfold bind at 1. unfold PrivCPU.get_mode at 1. cbv beta iota.
  change (PrivCPU.mode (PrivCPU.mk pc MACHINE csr regs out)) with MACHINE.
  rewrite bool_decide_eq_true_2 by reflexivity.
  change (negb true) with false. cbv iota.
  rewrite (bind_ok _ _ _ _ _
             (on_csr_run (CSR.get_mstatus "mpie") (PrivCPU.mk pc MACHINE csr regs out)
                _ _ _ (get_mstatus_run "mpie" 7 csr out eq_refl))).
  cbv beta. fold m mpie.
  set (csr1 := {| CSR.regs := <[0x300 := m]> (CSR.regs csr);
                  CSR.listeners := CSR.listeners csr |}).
  assert (Hm1 : CSR.mstatus csr1 = m)
    by (unfold CSR.mstatus at 1; simpl; now rewrite lookup_insert_eq).
  assert (Hl1 : CSR.listener_at csr1 0x300 = CSR.listener_at csr 0x300) by reflexivity.
  pose proof (set_mstatus_run "mie" 3 mpie csr1 out eq_refl) as Hset.
  cbv zeta in Hset. rewrite Hm1, Hl1 in Hset. fold new_val in Hset.
  rewrite (bind_ok _ _ _ _ _
             (on_csr_run (CSR.set_mstatus "mie" mpie)
                (PrivCPU.mk pc MACHINE csr1 regs out) _ _ _ Hset)).
  simpl PrivCPU.pc. simpl PrivCPU.mode. simpl PrivCPU.regs.
  unfold csr1 at 1 2. simpl CSR.regs. simpl CSR.listeners.
  rewrite insert_insert_eq.
  set (csr2 := {| CSR.regs := <[0x300 := new_val]> (CSR.regs csr);
                  CSR.listeners :=
                    <[0x300 := CSR.listener_at csr 0x300]> (CSR.listeners csr) |}).
  assert (Hm2 : CSR.mstatus csr2 = new_val)
    by (unfold CSR.mstatus at 1; simpl; now rewrite lookup_insert_eq).
  pose proof (get_mstatus_run "mpp" 11 csr2
                (out ++ CSR.calls (CSR.listener_at csr 0x300) m new_val) eq_refl)
    as Hget.
  rewrite Hm2 in Hget. fold mpp in Hget. unfold csr2 at 2 3 in Hget.
  simpl CSR.regs in Hget. simpl CSR.listeners in Hget.
  rewrite insert_insert_eq in Hget.
  rewrite (bind_ok _ _ _ _ _
             (on_csr_run (CSR.get_mstatus "mpp")
                (PrivCPU.mk pc MACHINE csr2 regs
                   (out ++ CSR.calls (CSR.listener_at csr 0x300) m new_val))
                _ _ _ Hget)).
  reflexivity.
Qed.

Lemma mret_tail (m' : PrivModes) (cpu : PrivCPU.t) :
  (PrivCPU.set_mode m' ;;;
   mepc <- PrivCPU.on_csr (CSR.get (Name "mepc")) ;;
   PrivCPU.set_pc mepc) cpu
  = (Ok tt,
     PrivCPU.mk (CSR.value (PrivCPU.csr cpu) 0x341) m'
       {| CSR.regs := <[0x341 := CSR.value (PrivCPU.csr cpu) 0x341]>
                        (CSR.regs (PrivCPU.csr cpu));
          CSR.listeners := CSR.listeners (PrivCPU.csr cpu) |}
       (PrivCPU.regs cpu) (PrivCPU.out cpu)).
Proof.
  destruct cpu as [pc mode csr regs out].
  unfold bind at 1. unfold PrivCPU.set_mode at 1. cbv beta iota.
  assert (Hg : CSR.get (Name "mepc") (csr, out)
               = (Ok (CSR.value csr 0x341),
                  ({| CSR.regs := <[0x341 := CSR.value csr 0x341]> (CSR.regs csr);
                      CSR.listeners := CSR.listeners csr |}, out))).
  { unfold CSR.get at 1.
    rewrite (bind_ok _ _ _ _ _ (resolve_known "mepc" 0x341 _ eq_refl)).
    apply (get_addr_run 0x341 csr out). }
  rewrite (bind_ok _ _ _ _ _
             (on_csr_run (CSR.get (Name "mepc"))
                (PrivCPU.mk pc m' csr regs out) _ _ _ Hg)).
  reflexivity.
Qed.

(** the bits of mstatus after [mie] was restored from [mpie] *)
Lemma mie_restored_bits (m : Z) :
  let mpie := Z.shiftr (Z.land m (CSR.field_mask "mpie" 7)) 7 in
  let new_val := Z.lor (Z.land m (Z.lnot (CSR.field_mask "mie" 3))) (Z.shiftl mpie 3) in
  0 <= mpie < 2 /\
  Z.testbit new_val 3 = Z.testbit m 7 /\
  (forall n, n <> 3 -> Z.testbit new_val n = Z.testbit m n) /\
  Z.shiftr (Z.land new_val (CSR.field_mask "mpp" 11)) 11 = (m / 2 ^ 11) mod 2 ^ 2.
Proof.
  intros mpie new_val.
  assert (Hmpie : mpie = (m / 2 ^ 7) mod 2 ^ 1)
    by (unfold mpie; now rewrite field_extract_div_mod by lia).
  assert (Hr : 0 <= mpie < 2) by (rewrite Hmpie; apply Z.mod_pos_bound; lia).
  split; [exact Hr|]. split; [|split].
  - unfold new_val. rewrite testbit_new_val by lia.
    change (CSR.field_size "mie") with 1.
    change ((3 <=? 3) && (3 <? 3 + 1)) with true. cbv iota.
    change (3 - 3) with 0.
    unfold mpie. rewrite Z.shiftr_spec by lia.
    rewrite Z.land_spec, testbit_field_mask by lia.
    change (CSR.field_size "mpie") with 1. change (0 + 7) with 7.
    change ((7 <=? 7) && (7 <? 7 + 1)) with true. apply andb_true_r.
  - intros n Hn. unfold new_val. rewrite testbit_new_val by lia.
    change (CSR.field_size "mie") with 1.
    destruct (Z.leb_spec 3 n); simpl.
    + destruct (Z.ltb_spec n (3 + 1)); [lia|]. simpl.
      rewrite Z.shiftl_spec by lia.
      rewrite (testbit_small mpie 1) by lia. apply orb_false_r.
    + destruct (Z.neg_nonneg_cases n).
      * now rewrite !Z.testbit_neg_r by lia.
      * rewrite Z.shiftl_spec by lia.
        rewrite (Z.testbit_neg_r mpie) by lia. apply orb_false_r.
  - unfold new_val.
    rewrite (other_field_kept "mie" "mpp" 3 11 mpie m eq_refl eq_refl)
      by (discriminate || (change (CSR.field_size "mie") with 1; lia)).
    now rewrite field_extract_div_mod by lia.
Qed.

(** X22: in machine mode, with a previous-privilege field [mpp] other
    than 2, [mret] completes: the program counter becomes the value of
    [mepc], the mode becomes the one numbered [mpp], the [mie] bit (3) of
    mstatus takes the value of the [mpie] bit (7) and every other bit of
    mstatus stays; the registers are untouched, and the listener of
    mstatus is called once with the old and the new value. *)
Theorem mret_restores (ins : Instruction.t) (cpu : PrivCPU.t) :
  PrivCPU.mode cpu = MACHINE ->
  let m := CSR.mstatus (PrivCPU.csr cpu) in
  (m / 2 ^ 11) mod 2 ^ 2 <> 2 ->
  exists cpu',
    PrivRV32I.instruction_mret ins cpu = (Ok tt, cpu') /\
    PrivCPU.pc cpu' = CSR.value (PrivCPU.csr cpu) 0x341 /\
    PrivModes_value (PrivCPU.mode cpu') = (m / 2 ^ 11) mod 2 ^ 2 /\
    Z.testbit (CSR.mstatus (PrivCPU.csr cpu')) 3 = Z.testbit m 7 /\
    (forall n, n <> 3 -> Z.testbit (CSR.mstatus (PrivCPU.csr cpu')) n = Z.testbit m n) /\
    PrivCPU.regs cpu' = PrivCPU.regs cpu /\
    PrivCPU.out cpu'
    = PrivCPU.out cpu
      ++ CSR.calls (CSR.listener_at (PrivCPU.csr cpu) 0x300) m
           (CSR.mstatus (PrivCPU.csr cpu')).
Proof.
  destruct cpu as [pc mode csr regs out]. simpl. intros -> Hmpp.
  rewrite mret_run. cbv zeta.
  destruct (mie_restored_bits (CSR.mstatus csr)) as (_ & Hbit & Hrest & Hpp).
  cbv zeta in Hbit, Hrest, Hpp. rewrite Hpp.
  set (new_val := Z.lor _ _) in *.
  set (mpp := (CSR.mstatus csr / 2 ^ 11) mod 2 ^ 2) in *.
  assert (Hrange : 0 <= mpp < 4) by (apply Z.mod_pos_bound; lia).
  assert (Hmode : exists m', @PrivModes_of PrivCPU.t mpp = ret m'
                             /\ PrivModes_value m' = mpp).
  { unfold PrivModes_of.
    destruct (Z.eqb_spec mpp 0) as [->|]; [exists USER; auto|].
    destruct (Z.eqb_spec mpp 1) as [->|]; [exists SUPER; auto|].
    destruct (Z.eqb_spec mpp 3) as [->|]; [exists MACHINE; auto|]. lia. }
  destruct Hmode as (m' & Hof & Hval). rewrite Hof.
  unfold bind at 1. unfold ret at 1. cbv beta iota.
  rewrite mret_tail. simpl.
  assert (Hm : CSR.mstatus
                 {| CSR.regs :=
                      <[0x341 := CSR.value
                                   {| CSR.regs := <[0x300 := new_val]> (CSR.regs csr);
                                      CSR.listeners :=
                                        <[0x300 := CSR.listener_at csr 0x300]>
                                          (CSR.listeners csr) |} 0x341]>
                        (<[0x300 := new_val]> (CSR.regs csr));
                    CSR.listeners :=
                      <[0x300 := CSR.listener_at csr 0x300]> (CSR.listeners csr) |}
               = new_val).
  { unfold CSR.mstatus. simpl.
    rewrite lookup_insert_ne by discriminate. now rewrite lookup_insert_eq. }
  eexists. split; [reflexivity|]. simpl. rewrite Hm.
  repeat split; try assumption.
  unfold CSR.value. simpl. now rewrite lookup_insert_ne by discriminate.
Qed.

Lemma mret_restores_witness :
  exists cpu',
    PrivRV32I.instruction_mret Ex.mret_ins (Ex.cpu_in MACHINE) = (Ok tt, cpu') /\
    PrivCPU.pc cpu' = 0x80 /\
    PrivModes_value (PrivCPU.mode cpu') = 0.
Proof.
  destruct (mret_restores Ex.mret_ins (Ex.cpu_in MACHINE))
    as (cpu' & Hrun & Hpc & Hmode & _).
  - reflexivity.
  - vm_compute. discriminate.
  - exists cpu'. split; [exact Hrun|]. split; [exact Hpc|exact Hmode].
Defined.

(** X23: in machine mode with [mpp = 2], which numbers no privilege
    mode, [mret] stops with ValueError when it restores the mode, after
    it has restored [mie]: the CPU stays in machine mode at the same
    program counter, but the [mie] bit of mstatus already holds the value
    of the [mpie] bit, and the listener of mstatus was called. *)
Theorem mret_invalid_mpp (ins : Instruction.t) (cpu : PrivCPU.t) :
  PrivCPU.mode cpu = MACHINE ->
  let m := CSR.mstatus (PrivCPU.csr cpu) in
  (m / 2 ^ 11) mod 2 ^ 2 = 2 ->
  exists cpu',
    PrivRV32I.instruction_mret ins cpu
    = (Raise (ValueError "not a valid PrivModes"), cpu') /\
    PrivCPU.pc cpu' = PrivCPU.pc cpu /\
    PrivCPU.mode cpu' = MACHINE /\
    Z.testbit (CSR.mstatus (PrivCPU.csr cpu')) 3 = Z.testbit m 7 /\
    (forall n, n <> 3 -> Z.testbit (CSR.mstatus (PrivCPU.csr cpu')) n = Z.testbit m n) /\
    PrivCPU.out cpu'
    = PrivCPU.out cpu
      ++ CSR.calls (CSR.listener_at (PrivCPU.csr cpu) 0x300) m
           (CSR.mstatus (PrivCPU.csr cpu')).
Proof.
  destruct cpu as [pc mode csr regs out]. simpl. intros -> Hmpp.
  rewrite mret_run. cbv zeta.
  destruct (mie_restored_bits (CSR.mstatus csr)) as (_ & Hbit & Hrest & Hpp).
  cbv zeta in Hbit, Hrest, Hpp. rewrite Hpp, Hmpp.
  set (new_val := Z.lor _ _) in *.
  assert (Hm : CSR.mstatus
                 {| CSR.regs := <[0x300 := new_val]> (CSR.regs csr);
                    CSR.listeners :=
                      <[0x300 := CSR.listener_at csr 0x300]> (CSR.listeners csr) |}
               = new_val)
    by (unfold CSR.mstatus; simpl; now rewrite lookup_insert_eq).
  eexists. split; [reflexivity|]. simpl. rewrite Hm. repeat split; assumption.
Qed.

Lemma mret_invalid_mpp_witness :
  exists cpu',
    PrivRV32I.instruction_mret Ex.mret_ins Ex2.cpu_mpp2
    = (Raise (ValueError "not a valid PrivModes"), cpu') /\
    PrivCPU.pc cpu' = 0x100 /\
    PrivCPU.mode cpu' = MACHINE /\
    Z.testbit (CSR.mstatus (PrivCPU.csr cpu')) 3 = Z.testbit 0x1080 7.
Proof.
  destruct (mret_invalid_mpp Ex.mret_ins Ex2.cpu_mpp2)
    as (cpu' & Hrun & Hpc & Hmode & Hbit & _).
  - reflexivity.
  - reflexivity.
  - exists cpu'. split; [exact Hrun|]. split; [exact Hpc|]. split; [exact Hmode|].
    exact Hbit.
Defined.

(** ** PrivRV32I: jumps *)

Lemma reg_value_set (pc : Z) (mode : PrivModes) (csr : CSR.t)
    (regs : gmap string Z) (out : list event) (rd r : string) (v : Z) :
  rd <> "zero"%string ->
  PrivRV32I.reg_value (PrivCPU.mk pc mode csr (<[rd := v]> regs) out) r
  = if decide (rd = r) then v
    else PrivRV32I.reg_value (PrivCPU.mk pc mode csr regs out) r.
Proof.
  intros Hrd. unfold PrivRV32I.reg_value. simpl. rewrite lookup_insert.
  case_decide; [subst r|reflexivity].
  now rewrite bool_decide_eq_false_2.
Qed.

(** X24: [jal rd, addr] completes; it stores the current program
    counter in [rd] (nothing when [rd] is [zero], which still reads 0)
    and moves the program counter by [addr - 4] relative to where it was;
    every other register, the mode, the CSR bank and the output are
    unchanged. *)
Theorem jal_links (mnemonic rd : string) (addr : Z) (cpu : PrivCPU.t) :
  exists cpu',
    PrivRV32I.instruction_jal (Instruction.mk mnemonic [Reg rd; Imm addr]) cpu
    = (Ok tt, cpu') /\
    PrivCPU.pc cpu' = PrivCPU.pc cpu + (addr - 4) /\
    PrivRV32I.reg_value cpu' rd
    = (if bool_decide (rd = "zero"%string) then 0 else PrivCPU.pc cpu) /\
    (forall r, r <> rd -> PrivRV32I.reg_value cpu' r = PrivRV32I.reg_value cpu r) /\
    PrivCPU.mode cpu' = PrivCPU.mode cpu /\
    PrivCPU.csr cpu' = PrivCPU.csr cpu /\
    PrivCPU.out cpu' = PrivCPU.out cpu.
Proof.
  destruct cpu as [pc mode csr regs out].
  unfold PrivRV32I.instruction_jal, PrivRV32I.ASSERT_LEN, PrivRV32I.get_reg,
    PrivRV32I.get_imm, PrivRV32I.pc_iadd, PrivCPU.get_pc, PrivCPU.set_pc,
    PrivCPU.regs_set, bind, ret. simpl.
  destruct (decide (rd = "zero"%string)) as [->|Hrd].
  - eexists. split; [reflexivity|]. simpl. repeat split.
  - rewrite (bool_decide_eq_false_2 _ Hrd).
    eexists. split; [reflexivity|]. simpl. repeat split.
    + rewrite reg_value_set by exact Hrd. now case_decide.
    + intros r Hr. rewrite reg_value_set by exact Hrd.
      case_decide; [congruence|reflexivity].
Qed.

(** X25: [jalr rd, rs, imm] completes; it stores the current program
    counter in [rd] and sets the program counter to the content [rs] had
    before the instruction, plus [imm - 4], also when [rd] and [rs] are
    the same register; every other register, the mode, the CSR bank and
    the output are unchanged. *)
Theorem jalr_links (mnemonic rd rs : string) (imm : Z) (cpu : PrivCPU.t) :
  exists cpu',
    PrivRV32I.instruction_jalr (Instruction.mk mnemonic [Reg rd; Reg rs; Imm imm]) cpu
    = (Ok tt, cpu') /\
    PrivCPU.pc cpu' = PrivRV32I.reg_value cpu rs + imm - 4 /\
    PrivRV32I.reg_value cpu' rd
    = (if bool_decide (rd = "zero"%string) then 0 else PrivCPU.pc cpu) /\
    (forall r, r <> rd -> PrivRV32I.reg_value cpu' r = PrivRV32I.reg_value cpu r) /\
    PrivCPU.mode cpu' = PrivCPU.mode cpu /\
    PrivCPU.csr cpu' = PrivCPU.csr cpu /\
    PrivCPU.out cpu' = PrivCPU.out cpu.
Proof.
  destruct cpu as [pc mode csr regs out].
  unfold PrivRV32I.instruction_jalr, PrivRV32I.parse_rd_rs_imm,
    PrivRV32I.get_reg_content, PrivRV32I.ASSERT_LEN, PrivRV32I.get_reg,
    PrivRV32I.get_imm, PrivCPU.get_pc, PrivCPU.set_pc, PrivCPU.regs_get,
    PrivCPU.regs_set, bind, ret. simpl.
  destruct (decide (rd = "zero"%string)) as [->|Hrd].
  - eexists. split; [reflexivity|]. simpl. repeat split.
  - rewrite (bool_decide_eq_false_2 (rd = "zero"%string) Hrd).
    eexists. split; [reflexivity|]. simpl. repeat split.
    + rewrite reg_value_set by exact Hrd. now case_decide.
    + intros r Hr. rewrite reg_value_set by exact Hrd.
      case_decide; [congruence|reflexivity].
Qed.

(** ** Executable.py: the operand accessors of LoadedInstruction *)

Lemma str_contains_app (c : ascii) (a b : string) :
  str_contains c (a +:+ b) = str_contains c a || str_contains c b.
Proof.
  induction a as [|x a IH]; [reflexivity|].
  simpl. rewrite IH. now rewrite orb_assoc.
Qed.

Lemma str_split_none (sep : ascii) (s : string) :
  str_contains sep s = false -> str_split sep s = [s].
Proof.
  induction s as [|x s IH]; [reflexivity|].
  simpl. intros [Hx Hs]%orb_false_iff. rewrite Hx, (IH Hs). reflexivity.
Qed.

Lemma str_split_one (sep : ascii) (a b : string) :
  str_contains sep a = false -> str_contains sep b = false ->
  str_split sep (a +:+ String sep b) = [a; b].
Proof.
  intros Ha Hb. induction a as [|x a IH].
  - simpl. now rewrite Ascii.eqb_refl, (str_split_none _ _ Hb).
  - simpl in Ha. apply orb_false_iff in Ha as [Hx Ha].
    simpl. rewrite Hx, (IH Ha). reflexivity.
Qed.

Lemma str_drop_last_app (a b : string) :
  b <> EmptyString -> str_drop_last (a +:+ b) = a +:+ str_drop_last b.
Proof.
  intros Hb. induction a as [|x a IH]; [reflexivity|].
  simpl. rewrite IH. destruct (a +:+ b) eqn:E; [|reflexivity].
  destruct a; [exfalso; apply Hb; exact E|discriminate E].
Qed.

Lemma str_drop_last_snoc (s : string) (c : ascii) :
  str_drop_last (s +:+ String c EmptyString) = s.
Proof.
  induction s as [|x s IH]; [reflexivity|].
  simpl. rewrite IH. destruct s; reflexivity.
Qed.

Lemma present_argument (l : list string) (k : nat) (arg : string) :
  l !! k = Some arg ->
  (Z.of_nat (length l) <=? Z.of_nat k) = false /\
  py_getitem l (Z.of_nat k) = Ok arg.
Proof.
  intros Hk. pose proof (lookup_lt_Some _ _ _ Hk) as Hlt. split.
  - apply Z.leb_gt. lia.
  - now apply py_getitem_nat.
Qed.

(** X26: [get_reg] refuses an index at or past the number of arguments
    with the parse error, and returns the argument at an index within
    [0, len); but a negative index passes the length check: down to
    [-len] it returns the argument counted from the end, and below
    [-len] the exception is the IndexError of the list, not the parse
    error. *)
Theorem get_reg_index (repr_args : list string -> string)
    (self : LoadedInstruction.t) (num : Z) :
  let n := Z.of_nat (length (LoadedInstruction.args self)) in
  (n <= num ->
   Accessors.get_reg repr_args self num
   = Raise (Accessors.expected_argument repr_args self num)) /\
  (0 <= num < n ->
   exists a, LoadedInstruction.args self !! Z.to_nat num = Some a /\
             Accessors.get_reg repr_args self num = Ok a) /\
  (- n <= num < 0 ->
   exists a, LoadedInstruction.args self !! Z.to_nat (n + num) = Some a /\
             Accessors.get_reg repr_args self num = Ok a) /\
  (num < - n -> Accessors.get_reg repr_args self num = Raise IndexError).
Proof.
  intros n. unfold Accessors.get_reg. fold n. repeat split.
  - intros H. destruct (Z.leb_spec n num); [reflexivity|lia].
  - intros H. destruct (Z.leb_spec n num); [lia|].
    now apply py_getitem_in_range.
  - intros H. destruct (Z.leb_spec n num); [lia|].
    destruct (lookup_lt_is_Some_2 (LoadedInstruction.args self) (Z.to_nat (n + num)))
      as [a Ha]; [lia|].
    exists a. split; [exact Ha|].
    unfold py_getitem, py_index. fold n.
    destruct (Z.leb_spec 0 num); [lia|].
    destruct (Z.ltb_spec num 0); [|lia].
    destruct (Z.leb_spec 0 (num + n)); [|lia].
    simpl. replace (num + n) with (n + num) by lia. now rewrite Ha.
  - intros H. destruct (Z.leb_spec n num); [lia|].
    unfold py_getitem, py_index. fold n.
    destruct (Z.leb_spec 0 num); [lia|].
    destruct (Z.ltb_spec num 0); [|lia].
    destruct (Z.leb_spec 0 (num + n)); [lia|]. reflexivity.
Qed.

(** X27: for an argument that is present, [get_imm] looks the text up in
    the symbols of the owning executable first: a symbol's value is
    returned whatever the text would parse to as a number, and only a
    text that is no symbol goes to [parse_numeric_argument], whose result
    or exception is passed on unchanged. *)
Theorem get_imm_symbol_first (parse_numeric_argument : string -> result Z)
    (repr_args : list string -> string) (symbols : gmap string Z)
    (self : LoadedInstruction.t) (k : nat) (arg : string) :
  LoadedInstruction.args self !! k = Some arg ->
  (forall v, symbols !! arg = Some v ->
     Accessors.get_imm parse_numeric_argument repr_args symbols self (Z.of_nat k)
     = Ok v) /\
  (symbols !! arg = None ->
     Accessors.get_imm parse_numeric_argument repr_args symbols self (Z.of_nat k)
     = parse_numeric_argument arg).
Proof.
  intros Hk. destruct (present_argument _ _ _ Hk) as [Hlen Hget].
  unfold Accessors.get_imm, Accessors.symbol_or_number. rewrite Hlen, Hget.
  split; [intros v Hv|intros Hv]; now rewrite Hv.
Qed.

Lemma get_imm_symbol_first_witness :
  (forall v, ({["10" := 64]} : gmap string Z) !! "10"%string = Some v ->
     Accessors.get_imm (fun _ => Ok 10) (fun _ => ""%string) {["10" := 64]}
       (LoadedInstruction.mk "jal" ["ra"; "10"]%string "prog") (Z.of_nat 1)
     = Ok v) /\
  (({["10" := 64]} : gmap string Z) !! "10"%string = None ->
     Accessors.get_imm (fun _ => Ok 10) (fun _ => ""%string) {["10" := 64]}
       (LoadedInstruction.mk "jal" ["ra"; "10"]%string "prog") (Z.of_nat 1)
     = Ok 10).
Proof.
  apply (get_imm_symbol_first (fun _ => Ok 10) (fun _ => ""%string) {["10" := 64]}
           (LoadedInstruction.mk "jal" ["ra"; "10"]%string "prog") 1 "10").
  reflexivity.
Defined.

(** X28: [get_imm_reg] on an argument [imm(reg] followed by one more
    character, where neither [imm] nor [reg] holds a parenthesis, returns
    the value of [imm] (symbol first, number otherwise) with the register
    text [reg]; the last character is dropped unseen, so it need not be
    the closing parenthesis; an exception of the number parser is passed
    on. *)
Theorem get_imm_reg_splits (parse_numeric_argument : string -> result Z)
    (repr_args : list string -> string) (symbols : gmap string Z)
    (self : LoadedInstruction.t) (k : nat) (imm reg : string) (c : ascii) :
  str_contains "(" imm = false -> str_contains "(" reg = false ->
  LoadedInstruction.args self !! k
  = Some (imm +:+ String "(" (reg +:+ String c EmptyString)) ->
  Accessors.get_imm_reg parse_numeric_argument repr_args symbols self (Z.of_nat k)
  = (fun v => (v, reg))
      <$$> Accessors.symbol_or_number parse_numeric_argument symbols imm.
Proof.
  intros Hi Hr Hk. destruct (present_argument _ _ _ Hk) as [Hlen Hget].
  unfold Accessors.get_imm_reg. rewrite Hlen, Hget.
  unfold Accessors.ASSERT_IN_str. rewrite str_contains_app. simpl str_contains.
  rewrite orb_true_r.
  rewrite str_drop_last_app by discriminate.
  change (String "("%char (reg +:+ String c EmptyString))
    with (String "("%char reg +:+ String c EmptyString).
  rewrite str_drop_last_snoc, (str_split_one _ _ _ Hi Hr).
  now destruct (Accessors.symbol_or_number parse_numeric_argument symbols imm).
Qed.

Lemma get_imm_reg_splits_witness :
  Accessors.get_imm_reg (fun _ => Ok 8) (fun _ => ""%string) ∅
    (LoadedInstruction.mk "lw" ["a0"; "8(sp]"]%string "prog") (Z.of_nat 1)
  = (fun v => (v, "sp"%string)) <$$> Accessors.symbol_or_number (fun _ => Ok 8) ∅ "8".
Proof.
  apply (get_imm_reg_splits (fun _ => Ok 8) (fun _ => ""%string) ∅
           (LoadedInstruction.mk "lw" ["a0"; "8(sp]"]%string "prog") 1 "8" "sp" "]");
    reflexivity.
Defined.

(** X29: [get_imm_reg] on an argument whose only parenthesis is its last
    character ends in the ValueError of the tuple unpacking, not in a
    parse error: the check for the parenthesis passes, the slice drops
    it, and the split yields one part. *)
Theorem get_imm_reg_paren_last (parse_numeric_argument : string -> result Z)
    (repr_args : list string -> string) (symbols : gmap string Z)
    (self : LoadedInstruction.t) (k : nat) (imm : string) :
  str_contains "(" imm = false ->
  LoadedInstruction.args self !! k = Some (imm +:+ "(") ->
  Accessors.get_imm_reg parse_numeric_argument repr_args symbols self (Z.of_nat k)
  = Raise (ValueError "not enough values to unpack (expected 2, got 1)").
Proof.
  intros Hi Hk. destruct (present_argument _ _ _ Hk) as [Hlen Hget].
  unfold Accessors.get_imm_reg. rewrite Hlen, Hget.
  unfold Accessors.ASSERT_IN_str. rewrite str_contains_app. simpl str_contains.
  rewrite orb_true_r.
  rewrite str_drop_last_snoc, (str_split_none _ _ Hi). reflexivity.
Qed.

Lemma get_imm_reg_paren_last_witness :
  Accessors.get_imm_reg (fun _ => Ok 8) (fun _ => ""%string) ∅
    (LoadedInstruction.mk "lw" ["a0"; "8("]%string "prog") (Z.of_nat 1)
  = Raise (ValueError "not enough values to unpack (expected 2, got 1)").
Proof.
  apply (get_imm_reg_paren_last (fun _ => Ok 8) (fun _ => ""%string) ∅
           (LoadedInstruction.mk "lw" ["a0"; "8("]%string "prog") 1 "8");
    reflexivity.
Defined.

(** ** priv/ElfLoader.py: sections made from ELF sections *)

(** X30: [_lms_from_elf_sec] prints its line and returns a section at the
    ELF section's address and size whose content is a new bytearray, a
    copy of the ELF section's data, every object already in the store
    being left as it was.  A section named [.text] is read-only: every
    [write] to it raises the access fault and changes nothing.  A section
    of any other name is writable: a write that starts inside the section
    and fits the buffer completes and changes only the copy. *)
Theorem elf_section_write_protection (section_line : string -> Z -> string)
    (sec : ElfLoader.Section) (owner : string) (h : heap) (out : list event) :
  exists lms h',
    ElfLoader._lms_from_elf_sec section_line sec owner (h, out)
    = (Ok lms,
       (h', out ++ [Print (section_line (ElfLoader.name sec) (ElfLoader.sh_addr sec))])) /\
    h' !! LoadedMemorySection.content lms = Some (Bytearray (ElfLoader.data sec)) /\
    h !! LoadedMemorySection.content lms = None /\
    (forall r, (r < length h)%nat -> h' !! r = h !! r) /\
    LoadedMemorySection.base lms = ElfLoader.sh_addr sec /\
    LoadedMemorySection.size lms = ElfLoader.data_size sec /\
    (ElfLoader.name sec = ".text"%string ->
     forall offset size_ data,
       LoadedMemorySection.write lms offset size_ data h'
       = (Raise (MemoryAccessException "Section not writeable .text"
                   (ElfLoader.sh_addr sec + offset) size_ "write"), h')) /\
    (ElfLoader.name sec <> ".text"%string ->
     forall offset size_ data,
       0 <= offset < ElfLoader.data_size sec -> 0 <= size_ ->
       offset + size_ <= Z.of_nat (length (ElfLoader.data sec)) ->
       size_ <= Z.of_nat (length data) ->
       exists h'',
         LoadedMemorySection.write lms offset size_ data h' = (Ok tt, h'') /\
         h'' !! LoadedMemorySection.content lms
         = Some (Bytearray (take (Z.to_nat offset) (ElfLoader.data sec)
                            ++ take (Z.to_nat size_) data
                            ++ drop (Z.to_nat offset + Z.to_nat size_)
                                 (ElfLoader.data sec))) /\
         (forall r, (r < length h)%nat -> h'' !! r = h !! r)).
Proof.
  eexists _, (h ++ [Bytearray (ElfLoader.data sec)]).
  split; [reflexivity|]. cbn [LoadedMemorySection.content LoadedMemorySection.base
                               LoadedMemorySection.size].
  assert (Hnew : (h ++ [Bytearray (ElfLoader.data sec)]) !! length h
                 = Some (Bytearray (ElfLoader.data sec))).
  { rewrite lookup_app_r by lia. now rewrite Nat.sub_diag. }
  split; [exact Hnew|].
  split; [apply lookup_ge_None; lia|].
  split; [intros r Hr; now apply lookup_app_l|].
  split; [reflexivity|]. split; [reflexivity|]. split.
  - intros Hn offset size_ data. unfold LoadedMemorySection.write.
    cbn [LoadedMemorySection.flags LoadedMemorySection.name
         LoadedMemorySection.base read_only].
    rewrite Hn. reflexivity.
  - intros Hn offset size_ data Ho Hs Hroom Hdata.
    eexists. split; [|split].
    + apply (write_run _ _ offset size_ data (ElfLoader.data sec)).
      * cbn [LoadedMemorySection.flags read_only]. now apply bool_decide_eq_false.
      * exact Ho.
      * exact Hnew.
      * lia.
      * lia.
    + cbn [LoadedMemorySection.content]. apply list_lookup_insert_eq.
      rewrite length_app. simpl. lia.
    + intros r Hr. cbn [LoadedMemorySection.content].
      rewrite list_lookup_insert_ne by lia. now apply lookup_app_l.
Qed.
